(** * zahlen.ds.tree.avl: the AVL balancing core over a store of nodes

    The Python module keeps a tree of mutable [Node] objects that point at
    each other ([left], [right], [parent]).  The embedding keeps the objects
    in a finite map from object identities to records, threads the store
    through every method, and raises where Python raises. *)

From Stdlib Require Import ZArith List Lia Bool.
From stdpp Require Import base option list gmap fin_maps sorting.
Import ListNotations.

Local Open Scope Z_scope.

(** ** The store *)

(** Identity of a Python object. *)
Abbreviation loc := positive.

(** The attributes of [avl.Node] (those of [bst.Node] plus [_height]). *)
Record node := mkNode {
  key : Z;
  left : option loc;
  right : option loc;
  parent : option loc;
  count : Z;
  weight : Z;
  height : Z
}.

(** What the methods did, in order: a ghost record that no method reads. *)
Inductive event :=
| EvBalance (n : loc) (stored : Z) (lh rh : Z)
| EvRotateLeft (n : loc) (heavy_child : loc)
| EvRotateRight (n : loc) (heavy_child : loc).

(** An [AVLTree] object together with the objects it can reach. *)
Record tree_state := mkState {
  heap : gmap loc node;
  root : option loc;
  trace : list event
}.

(** ** Results and the method monad *)

Inductive error :=
| AttributeError   (* an attribute of [None] was read *)
| BadRef           (* a reference to no object: no Python run gets here *)
| OutOfFuel.       (* the bound on loop iterations and recursion was hit *)

Inductive result (A : Type) :=
| Ok (a : A) (s : tree_state)
| Err (e : error).
Arguments Ok {A} a s.
Arguments Err {A} e.

Definition M (A : Type) := tree_state -> result A.

Definition ret {A} (a : A) : M A := fun s => Ok a s.
Definition raise {A} (e : error) : M A := fun _ => Err e.
Definition bind {A B} (m : M A) (k : A -> M B) : M B :=
  fun s => match m s with
           | Ok a s' => k a s'
           | Err e => Err e
           end.

Notation "'let*' x ':=' m 'in' k" := (bind m (fun x => k))
  (at level 10, x name, m at level 100, k at level 200).
Notation "m ';;' k" := (bind m (fun _ => k))
  (at level 100, k at level 200, right associativity).

(** Reading an object; [deref] is the attribute access that fails on [None]. *)
Definition get (n : loc) : M node :=
  fun s => match heap s !! n with
           | Some x => Ok x s
           | None => Err BadRef
           end.

Definition deref (o : option loc) : M loc :=
  match o with
  | Some n => ret n
  | None => raise AttributeError
  end.

Definition modify (n : loc) (f : node -> node) : M unit :=
  fun s => match heap s !! n with
           | Some x => Ok tt (mkState (<[n := f x]> (heap s)) (root s) (trace s))
           | None => Err BadRef
           end.

Definition get_root : M (option loc) := fun s => Ok (root s) s.
Definition set_root (o : option loc) : M unit :=
  fun s => Ok tt (mkState (heap s) o (trace s)).
Definition emit (e : event) : M unit :=
  fun s => Ok tt (mkState (heap s) (root s) (trace s ++ [e])).

(** Field writes. *)
Definition with_left (c : option loc) (x : node) : node :=
  mkNode (key x) c (right x) (parent x) (count x) (weight x) (height x).
Definition with_right (c : option loc) (x : node) : node :=
  mkNode (key x) (left x) c (parent x) (count x) (weight x) (height x).
Definition with_parent (p : option loc) (x : node) : node :=
  mkNode (key x) (left x) (right x) p (count x) (weight x) (height x).
Definition with_weight (w : Z) (x : node) : node :=
  mkNode (key x) (left x) (right x) (parent x) (count x) w (height x).
Definition with_height (h : Z) (x : node) : node :=
  mkNode (key x) (left x) (right x) (parent x) (count x) (weight x) h.
Definition with_payload (k c : Z) (x : node) : node :=
  mkNode k (left x) (right x) (parent x) c (weight x) (height x).

(** ** The ordered-tree node this module extends ([bst.Node]) *)

(** Modelled from the spec: the [parent] attribute of [bst.Node], a plain
    back-reference that is read and assigned. *)
Definition set_parent (n : loc) (p : option loc) : M unit :=
  modify n (with_parent p).

(** Modelled from the spec: the [left] setter of [bst.Node]; "setting a child
    also sets that child's parent back-link". *)
Definition set_left (n : loc) (c : option loc) : M unit :=
  modify n (with_left c) ;;
  match c with
  | Some c' => set_parent c' (Some n)
  | None => ret tt
  end.

(** Modelled from the spec: the [right] setter of [bst.Node], as [set_left]. *)
Definition set_right (n : loc) (c : option loc) : M unit :=
  modify n (with_right c) ;;
  match c with
  | Some c' => set_parent c' (Some n)
  | None => ret tt
  end.

(** Modelled from the spec: [bst.Node.left_weight] and [right_weight]; the
    weight of the child, "0 for absent children". *)
Definition left_weight (n : loc) : M Z :=
  let* x := get n in
  match left x with
  | Some l => let* y := get l in ret (weight y)
  | None => ret 0
  end.

Definition right_weight (n : loc) : M Z :=
  let* x := get n in
  match right x with
  | Some r => let* y := get r in ret (weight y)
  | None => ret 0
  end.

(** Modelled from the spec: [bst.Node.add_child]; it "attaches x as the left
    or right child of self depending on which side it compares to".  A key
    that is not smaller goes right. *)
Definition add_child (p : loc) (x : loc) : M unit :=
  let* px := get p in
  let* xx := get x in
  if key xx <? key px then set_left p (Some x) else set_right p (Some x).

(** ** [avl.Node] *)

Definition left_height (n : loc) : M Z :=
  let* x := get n in
  match left x with
  | Some l => let* y := get l in ret (height y)
  | None => ret (-1)
  end.

Definition right_height (n : loc) : M Z :=
  let* x := get n in
  match right x with
  | Some r => let* y := get r in ret (height y)
  | None => ret (-1)
  end.

Definition is_heavy (n : loc) : M bool :=
  let* lh := left_height n in
  let* rh := right_height n in
  ret (Z.abs (lh - rh) >? 1).

Definition is_left_heavy (n : loc) (diff : Z) : M bool :=
  let* lh := left_height n in
  let* rh := right_height n in
  ret (lh - rh >? diff).

Definition is_right_heavy (n : loc) (diff : Z) : M bool :=
  let* rh := right_height n in
  let* lh := left_height n in
  ret (rh - lh >? diff).

Definition update (n : loc) : M unit :=
  let* x := get n in
  let* lw := left_weight n in
  let* rw := right_weight n in
  modify n (with_weight (count x + lw + rw)) ;;
  let* lh := left_height n in
  let* rh := right_height n in
  modify n (with_height (1 + Z.max lh rh)).

(** ** [avl.AVLTree] *)

(** [Node(key)]: a new object, no links, [count] and [weight] 1, height 0. *)
Definition create_node (k : Z) : M loc :=
  fun s =>
    let n := fresh (dom (heap s)) in
    Ok n (mkState (<[n := mkNode k None None None 1 1 0]> (heap s))
                  (root s) (trace s)).

Fixpoint is_balanced (fuel : nat) (arg : option loc) : M bool :=
  match fuel with
  | O => raise OutOfFuel
  | S fuel' =>
      let* start := match arg with
                    | Some n => ret (Some n)
                    | None => get_root
                    end in
      let* n := deref start in
      let* heavy := is_heavy n in
      let balanced := negb heavy in
      let* x := get n in
      let* balanced :=
        match balanced, left x with
        | true, Some l => is_balanced fuel' (Some l)
        | _, _ => ret balanced
        end in
      let* x := get n in
      let* balanced :=
        match balanced, right x with
        | true, Some r => is_balanced fuel' (Some r)
        | _, _ => ret balanced
        end in
      ret balanced
  end.

Definition _rotate_left (n : loc) (heavy_child : option loc) : M unit :=
  let* x := get n in
  let parent0 := parent x in
  let* hc := deref heavy_child in
  emit (EvRotateLeft n hc) ;;
  let* hx := get hc in
  set_right n (left hx) ;;
  update n ;;
  set_parent hc parent0 ;;
  set_left hc (Some n) ;;
  update hc ;;
  match parent0 with
  | Some p => add_child p hc
  | None => set_root (Some hc)
  end.

Definition _rotate_right (n : loc) (heavy_child : option loc) : M unit :=
  let* x := get n in
  let parent0 := parent x in
  let* hc := deref heavy_child in
  emit (EvRotateRight n hc) ;;
  let* hx := get hc in
  set_left n (right hx) ;;
  update n ;;
  set_parent hc parent0 ;;
  set_right hc (Some n) ;;
  update hc ;;
  match parent0 with
  | Some p => add_child p hc
  | None => set_root (Some hc)
  end.

Definition get_left (n : loc) : M (option loc) :=
  let* x := get n in ret (left x).
Definition get_right (n : loc) : M (option loc) :=
  let* x := get n in ret (right x).
Definition get_parent (n : loc) : M (option loc) :=
  let* x := get n in ret (parent x).

Definition observe_balance (n : loc) : M unit :=
  let* x := get n in
  let* lh := left_height n in
  let* rh := right_height n in
  emit (EvBalance n (height x) lh rh).

Fixpoint _balance (fuel : nat) (n : loc) : M unit :=
  match fuel with
  | O => raise OutOfFuel
  | S fuel' =>
      observe_balance n ;;
      let* parent0 := get_parent n in
      let* lheavy := is_left_heavy n 1 in
      (if lheavy then
         let* l := get_left n in
         let* l := deref l in
         let* inner := is_right_heavy l 0 in
         (if inner then
            let* lr := get_right l in
            _rotate_left l lr
          else ret tt) ;;
         let* l' := get_left n in
         _rotate_right n l'
       else
         let* rheavy := is_right_heavy n 1 in
         if rheavy then
           let* r := get_right n in
           let* r := deref r in
           let* inner := is_left_heavy r 0 in
           (if inner then
              let* rl := get_left r in
              _rotate_right r rl
            else ret tt) ;;
           let* r' := get_right n in
           _rotate_left n r'
         else ret tt) ;;
      match parent0 with
      | Some p => _balance fuel' p
      | None => ret tt
      end
  end.

Fixpoint _update (fuel : nat) (cur : option loc) : M unit :=
  match cur with
  | None => ret tt
  | Some n =>
      match fuel with
      | O => raise OutOfFuel
      | S fuel' =>
          update n ;;
          _balance fuel n ;;
          let* p := get_parent n in
          _update fuel' p
      end
  end.

(** ** The ordered tree this module extends ([bst.BinarySearchTree]) *)

(** Modelled from the spec: the descent of [bst.BinarySearchTree.insert] "by
    key comparison"; it gives the node under which a new key attaches, or
    nothing when the key is already stored (the spec "assumes unique keys",
    such an insert leaves the tree as it is). *)
Fixpoint find_parent (fuel : nat) (cur : loc) (k : Z) : M (option loc) :=
  match fuel with
  | O => raise OutOfFuel
  | S fuel' =>
      let* x := get cur in
      if k =? key x then ret None
      else
        match (if k <? key x then left x else right x) with
        | None => ret (Some cur)
        | Some c => find_parent fuel' c k
        end
  end.

(** Modelled from the spec: [bst.BinarySearchTree.insert]; a new leaf is
    attached at its ordered place and the walk starts at "the new leaf". *)
Definition insert (fuel : nat) (k : Z) : M unit :=
  let* r := get_root in
  match r with
  | None =>
      let* n := create_node k in
      set_root (Some n) ;;
      _update fuel (Some n)
  | Some r =>
      let* p := find_parent fuel r k in
      match p with
      | None => ret tt
      | Some p =>
          let* n := create_node k in
          add_child p n ;;
          _update fuel (Some n)
      end
  end.

(** Modelled from the spec: [bst.BinarySearchTree.search], lookup "by key
    comparison". *)
Fixpoint search (fuel : nat) (cur : option loc) (k : Z) : M (option loc) :=
  match cur with
  | None => ret None
  | Some n =>
      match fuel with
      | O => raise OutOfFuel
      | S fuel' =>
          let* x := get n in
          if k =? key x then ret (Some n)
          else if k <? key x then search fuel' (left x) k
          else search fuel' (right x) k
      end
  end.

(** Modelled from the spec: the successor of a node with two children is the
    leftmost node under its right child. *)
Fixpoint leftmost (fuel : nat) (n : loc) : M loc :=
  match fuel with
  | O => raise OutOfFuel
  | S fuel' =>
      let* x := get n in
      match left x with
      | None => ret n
      | Some l => leftmost fuel' l
      end
  end.

(** Modelled from the spec: the "splice-out of a deleted node": a node with
    at most one child leaves the tree and that child takes its slot; the
    result is "the parent of the removed/spliced node". *)
Definition splice_out (t : loc) : M (option loc) :=
  let* x := get t in
  let child := match left x with Some l => Some l | None => right x end in
  match parent x with
  | Some p =>
      let* px := get p in
      (if decide (left px = Some t) then set_left p child
       else set_right p child) ;;
      ret (Some p)
  | None =>
      set_root child ;;
      match child with
      | Some c => set_parent c None
      | None => ret tt
      end ;;
      ret None
  end.

(** Modelled from the spec: [bst.BinarySearchTree.delete].  A node with two
    children is "implicitly replaced" by its successor: it takes the
    successor's key and count, and the successor is the node spliced out.
    The walk starts at "the parent of the removed/spliced node".  A key that
    is not stored leaves the tree as it is. *)
Definition delete (fuel : nat) (k : Z) : M unit :=
  let* r := get_root in
  let* d := search fuel r k in
  match d with
  | None => ret tt
  | Some d =>
      let* x := get d in
      let* target :=
        match left x, right x with
        | Some _, Some r =>
            let* y := leftmost fuel r in
            let* yx := get y in
            modify d (with_payload (key yx) (count yx)) ;;
            ret y
        | _, _ => ret d
        end in
      let* p := splice_out target in
      _update fuel p
  end.

(** A public operation, and a run of them one after the other. *)
Inductive op :=
| Insert (k : Z)
| Delete (k : Z).

Definition run_op (fuel : nat) (o : op) : M unit :=
  match o with
  | Insert k => insert fuel k
  | Delete k => delete fuel k
  end.

Fixpoint run_ops (fuel : nat) (ops : list op) : M unit :=
  match ops with
  | [] => ret tt
  | o :: ops' => run_op fuel o ;; run_ops fuel ops'
  end.

Definition empty_tree : tree_state := mkState ∅ None [].

(** ** Rotations in a trace, and the two rotations as one *)

(** The rotations among the events of a run. *)
Definition is_rotation (e : event) : bool :=
  match e with
  | EvBalance _ _ _ _ => false
  | _ => true
  end.

Definition rotations (evs : list event) : list event :=
  List.filter is_rotation evs.

(** What [_balance] does once the rotations at a node are over. *)
Definition continue_at (fuel : nat) (p : option loc) : M unit :=
  match p with
  | Some p => _balance fuel p
  | None => ret tt
  end.

(** The two sides of a node, to say "mirror image" once. *)
Inductive side := SideLeft | SideRight.

Definition opposite (d : side) : side :=
  match d with SideLeft => SideRight | SideRight => SideLeft end.

Definition child (d : side) (x : node) : option loc :=
  match d with SideLeft => left x | SideRight => right x end.

Definition set_child (d : side) (n : loc) (c : option loc) : M unit :=
  match d with SideLeft => set_left n c | SideRight => set_right n c end.

Definition rotation_event (d : side) (n hc : loc) : event :=
  match d with
  | SideLeft => EvRotateLeft n hc
  | SideRight => EvRotateRight n hc
  end.

(** The rotation towards side [d] as the specification lists its steps, for
    a heavy child that is present. *)
Definition rotate_steps (d : side) (n hc : loc) : M unit :=
  let* x := get n in
  emit (rotation_event d n hc) ;;
  let* hx := get hc in
  (* the child that "moves across" *)
  set_child (opposite d) n (child d hx) ;;
  update n ;;
  (* the heavy child takes the place of the node *)
  set_parent hc (parent x) ;;
  set_child d hc (Some n) ;;
  update hc ;;
  (* reattach *)
  match parent x with
  | Some p => add_child p hc
  | None => set_root (Some hc)
  end.

(** The rotations of one call of [_balance], without the recursion. *)
Definition rotations_at (n : loc) : M unit :=
  let* lheavy := is_left_heavy n 1 in
  if lheavy then
    let* l := get_left n in
    let* l := deref l in
    let* inner := is_right_heavy l 0 in
    (if inner then
       let* lr := get_right l in
       _rotate_left l lr
     else ret tt) ;;
    let* l' := get_left n in
    _rotate_right n l'
  else
    let* rheavy := is_right_heavy n 1 in
    if rheavy then
      let* r := get_right n in
      let* r := deref r in
      let* inner := is_left_heavy r 0 in
      (if inner then
         let* rl := get_left r in
         _rotate_right r rl
       else ret tt) ;;
      let* r' := get_right n in
      _rotate_left n r'
    else ret tt.

(** ** The tree a store holds *)

(** What a node stores besides its links. *)
Record info := mkInfo {
  ikey : Z;
  icount : Z;
  iweight : Z;
  iheight : Z
}.

(** The shape reachable from a node, with the identity and the stored
    bookkeeping of every node in it. *)
Inductive tree :=
| Leaf
| Node (n : loc) (i : info) (l r : tree).

Definition root_loc (t : tree) : option loc :=
  match t with
  | Leaf => None
  | Node n _ _ _ => Some n
  end.

(** The stored height and weight as a parent reads them. *)
Definition sheight (t : tree) : Z :=
  match t with
  | Leaf => -1
  | Node _ i _ _ => iheight i
  end.

Definition sweight (t : tree) : Z :=
  match t with
  | Leaf => 0
  | Node _ i _ _ => iweight i
  end.

(** In-order listings. *)
Fixpoint locs (t : tree) : list loc :=
  match t with
  | Leaf => []
  | Node n _ l r => locs l ++ n :: locs r
  end.

Fixpoint keys (t : tree) : list Z :=
  match t with
  | Leaf => []
  | Node _ i l r => keys l ++ ikey i :: keys r
  end.

Fixpoint size (t : tree) : nat :=
  match t with
  | Leaf => O
  | Node _ _ l r => S (size l + size r)
  end.

(** The object a node of the shape is, under a given parent. *)
Definition to_node (par : option loc) (i : info) (l r : tree) : node :=
  mkNode (ikey i) (root_loc l) (root_loc r) par
         (icount i) (iweight i) (iheight i).

Fixpoint repr (h : gmap loc node) (par : option loc) (t : tree) : Prop :=
  match t with
  | Leaf => True
  | Node n i l r =>
      h !! n = Some (to_node par i l r) /\
      repr h (Some n) l /\ repr h (Some n) r
  end.

(** The store holds exactly the tree [t] under its root: links agree both
    ways and no object occurs twice. *)
Definition represents (s : tree_state) (t : tree) : Prop :=
  root s = root_loc t /\ repr (heap s) None t /\ NoDup (locs t).

(** Strictly increasing keys in order: the search-tree ordering. *)
Definition bst (t : tree) : Prop := StronglySorted Z.lt (keys t).

(** ** A node and the way up from it *)

(** One step up: the parent, which side the hole is on, and the sibling. *)
Inductive frame :=
| InLeft (n : loc) (i : info) (r : tree)
| InRight (n : loc) (i : info) (l : tree).

Definition frame_loc (f : frame) : loc :=
  match f with
  | InLeft n _ _ => n
  | InRight n _ _ => n
  end.

Definition frame_info (f : frame) : info :=
  match f with
  | InLeft _ i _ => i
  | InRight _ i _ => i
  end.

Definition sibling (f : frame) : tree :=
  match f with
  | InLeft _ _ r => r
  | InRight _ _ l => l
  end.

Definition plug1 (f : frame) (t : tree) : tree :=
  match f with
  | InLeft n i r => Node n i t r
  | InRight n i l => Node n i l t
  end.

(** The innermost frame comes first. *)
Fixpoint plug (c : list frame) (t : tree) : tree :=
  match c with
  | [] => t
  | f :: c' => plug c' (plug1 f t)
  end.

Definition ctx_parent (c : list frame) : option loc :=
  match c with
  | [] => None
  | f :: _ => Some (frame_loc f)
  end.

Fixpoint ctx_locs (c : list frame) : list loc :=
  match c with
  | [] => []
  | f :: c' => frame_loc f :: locs (sibling f) ++ ctx_locs c'
  end.

Fixpoint repr_ctx (h : gmap loc node) (c : list frame) (hole : option loc) : Prop :=
  match c with
  | [] => True
  | f :: c' =>
      h !! frame_loc f =
        Some (match f with
              | InLeft _ i r =>
                  mkNode (ikey i) hole (root_loc r) (ctx_parent c')
                         (icount i) (iweight i) (iheight i)
              | InRight _ i l =>
                  mkNode (ikey i) (root_loc l) hole (ctx_parent c')
                         (icount i) (iweight i) (iheight i)
              end) /\
      repr h (Some (frame_loc f)) (sibling f) /\
      repr_ctx h c' (Some (frame_loc f))
  end.

Definition plug_root (c : list frame) (o : option loc) : option loc :=
  match c with
  | [] => o
  | f :: c' => Some (frame_loc (List.last c' f))
  end.

(** Where a node sits in a tree: the way up from it and the subtree under
    it. *)
Fixpoint focus (t : tree) (n : loc) : option (list frame * tree) :=
  match t with
  | Leaf => None
  | Node m i l r =>
      if decide (m = n) then Some ([], t)
      else
        match focus l n with
        | Some (c, u) => Some (c ++ [InLeft m i r], u)
        | None =>
            match focus r n with
            | Some (c, u) => Some (c ++ [InRight m i l], u)
            | None => None
            end
        end
  end.

Definition parent_in (t : tree) (n : loc) : option loc :=
  match focus t n with
  | Some (c, _) => ctx_parent c
  | None => None
  end.

(** ** The methods on shapes *)

(** [Node.update] at the root of a shape. *)
Definition upd (n : loc) (i : info) (l r : tree) : tree :=
  Node n (mkInfo (ikey i) (icount i)
                 (icount i + sweight l + sweight r)
                 (1 + Z.max (sheight l) (sheight r))) l r.

Definition update_root (t : tree) : tree :=
  match t with
  | Leaf => Leaf
  | Node n i l r => upd n i l r
  end.

(** [_rotate_left] and [_rotate_right] at the root of a shape, the heavy
    child being the right, respectively the left, child. *)
Definition rot_left (t : tree) : tree :=
  match t with
  | Node n i l (Node hc hi m r) => upd hc hi (upd n i l m) r
  | _ => t
  end.

Definition rot_right (t : tree) : tree :=
  match t with
  | Node n i (Node hc hi l m) r => upd hc hi l (upd n i m r)
  | _ => t
  end.

(** The rotations [_balance] does at the root of a shape; it reads stored
    heights only. *)
Definition balance_node (t : tree) : tree :=
  match t with
  | Leaf => Leaf
  | Node n i l r =>
      if sheight l - sheight r >? 1 then
        match l with
        | Leaf => t
        | Node _ _ ll lr =>
            if sheight lr - sheight ll >? 0
            then rot_right (Node n i (rot_left l) r)
            else rot_right t
        end
      else if sheight r - sheight l >? 1 then
        match r with
        | Leaf => t
        | Node _ _ rl rr =>
            if sheight rl - sheight rr >? 0
            then rot_left (Node n i l (rot_right r))
            else rot_left t
        end
      else t
  end.

(** [_balance] at a node and then, by its recursion, at every node on the
    way up as that way was when it started. *)
Fixpoint balance_up (c : list frame) (t : tree) : tree :=
  match c with
  | [] => balance_node t
  | f :: c' => balance_up c' (plug1 f (balance_node t))
  end.

(** The loop of [_update]. *)
Fixpoint walk (fuel : nat) (t : tree) (cur : option loc) : option tree :=
  match cur with
  | None => Some t
  | Some n =>
      match fuel with
      | O => None
      | S fuel' =>
          match focus t n with
          | None => None
          | Some (c, u) =>
              let t' := balance_up c (update_root u) in
              walk fuel' t' (parent_in t' n)
          end
      end
  end.

(** ** Properties of a shape *)

(** Height and weight recomputed from the shape alone. *)
Fixpoint real_height (t : tree) : Z :=
  match t with
  | Leaf => -1
  | Node _ _ l r => 1 + Z.max (real_height l) (real_height r)
  end.

Fixpoint real_weight (t : tree) : Z :=
  match t with
  | Leaf => 0
  | Node _ i l r => icount i + real_weight l + real_weight r
  end.

(** Every stored height and weight is the recomputed one. *)
Fixpoint exact (t : tree) : Prop :=
  match t with
  | Leaf => True
  | Node _ i l r =>
      iheight i = 1 + Z.max (real_height l) (real_height r) /\
      iweight i = icount i + real_weight l + real_weight r /\
      exact l /\ exact r
  end.

(** No node is heavy, by the heights of the shape. *)
Fixpoint balanced (t : tree) : Prop :=
  match t with
  | Leaf => True
  | Node _ _ l r =>
      Z.abs (real_height l - real_height r) <= 1 /\
      balanced l /\ balanced r
  end.

(** No stored height is below that of a leaf. *)
Fixpoint heights_nonneg (t : tree) : Prop :=
  match t with
  | Leaf => True
  | Node _ i l r => 0 <= iheight i /\ heights_nonneg l /\ heights_nonneg r
  end.

(** What [is_balanced] computes on a shape. *)
Fixpoint none_heavy (t : tree) : bool :=
  match t with
  | Leaf => true
  | Node _ _ l r =>
      negb (Z.abs (sheight l - sheight r) >? 1) && none_heavy l && none_heavy r
  end.

(** A tree as every public operation leaves it. *)
Definition avl (t : tree) : Prop :=
  bst t /\ exact t /\ balanced t.

(** The stored height and weight behind a reference, as [left_height] and
    its siblings read them. *)
Definition stored_height (h : gmap loc node) (o : option loc) : option Z :=
  match o with
  | None => Some (-1)
  | Some l => height <$> h !! l
  end.

Definition stored_weight (h : gmap loc node) (o : option loc) : option Z :=
  match o with
  | None => Some 0
  | Some l => weight <$> h !! l
  end.

(** The object a node is once [update] ran on it. *)
Definition updated (x : node) (lw rw lh rh : Z) : node :=
  mkNode (key x) (left x) (right x) (parent x) (count x)
         (count x + lw + rw) (1 + Z.max lh rh).

(** ** The invariant of the walk *)

(** A subtree whose bookkeeping is exact and in which no node is heavy. *)
Definition sound (t : tree) : Prop := exact t /\ balanced t.

(** The way up as the last operation left it, when the subtree under it had
    height [o]: siblings are sound, and every node on the way stores the
    height it had then and was not heavy. *)
Fixpoint ctx_old (o : Z) (c : list frame) : Prop :=
  match c with
  | [] => True
  | f :: c' =>
      sound (sibling f) /\
      Z.abs (o - real_height (sibling f)) <= 1 /\
      iheight (frame_info f) = 1 + Z.max o (real_height (sibling f)) /\
      ctx_old (iheight (frame_info f)) c'
  end.

(** Where [_balance] leaves the tree: a sound subtree that holds the nodes
    it started from, under a way up that is still as before. *)
Definition settled (c : list frame) (t : tree) (w : tree) : Prop :=
  exists outer u o,
    w = plug outer u /\ sound u /\
    (forall x, x ∈ locs t -> x ∈ locs u) /\
    ctx_old o outer /\ Z.abs (real_height u - o) <= 1 /\
    ((outer = c /\ u = t) \/ (length outer < length c)%nat).

(** The states of the loop of [_update], with a bound on the iterations
    left.  [wi_inside]: the loop is at a node inside a sound subtree.
    [wi_boundary]: it is at a node whose two subtrees are sound and whose
    own bookkeeping is about to be refreshed.  [wi_done]: it is over. *)
Inductive walk_inv (b : nat) : tree -> option loc -> nat -> Prop :=
| wi_done t : sound t -> walk_inv b t None 0
| wi_inside outer inner t n o :
    root_loc t = Some n ->
    sound (plug inner t) ->
    ctx_old o outer ->
    Z.abs (real_height (plug inner t) - o) <= 1 ->
    walk_inv b (plug outer (plug inner t)) (Some n)
             (length outer * (b + 2) + length inner + 1)
| wi_boundary c n i l r o :
    sound l -> sound r ->
    Z.abs (real_height l - real_height r) <= 2 ->
    ctx_old o c ->
    Z.abs (1 + Z.max (real_height l) (real_height r) - o) <= 1 ->
    (Z.abs (real_height l - real_height r) = 2 ->
     o = Z.max (real_height l) (real_height r) \/
     o = 1 + Z.max (real_height l) (real_height r)) ->
    walk_inv b (plug c (Node n i l r)) (Some n)
             (length c * (b + 2) + b + 1).

(** ** The ordered-tree operations on shapes *)

(** The descent of [insert]: the way up from the empty place where the key
    belongs, or nothing when the key is stored. *)
Fixpoint locate (t : tree) (k : Z) (acc : list frame) : option (list frame) :=
  match t with
  | Leaf => Some acc
  | Node n i l r =>
      if k =? ikey i then None
      else if k <? ikey i then locate l k (InLeft n i r :: acc)
      else locate r k (InRight n i l :: acc)
  end.

Definition new_leaf (n : loc) (k : Z) : tree :=
  Node n (mkInfo k 1 1 0) Leaf Leaf.

Definition insert_tree (fuel : nat) (n : loc) (k : Z) (t : tree) : option tree :=
  match locate t k [] with
  | None => Some t
  | Some c => walk fuel (plug c (new_leaf n k)) (Some n)
  end.

(** The descent of [search]: the node that stores the key and the way up
    from it. *)
Fixpoint find_key (t : tree) (k : Z) (acc : list frame)
  : option (list frame * tree) :=
  match t with
  | Leaf => None
  | Node n i l r =>
      if k =? ikey i then Some (acc, t)
      else if k <? ikey i then find_key l k (InLeft n i r :: acc)
      else find_key r k (InRight n i l :: acc)
  end.

(** The leftmost node of a shape and the way up from it. *)
Fixpoint leftmost_ctx (t : tree) (acc : list frame)
  : option (list frame * tree) :=
  match t with
  | Leaf => None
  | Node n i l r =>
      match l with
      | Leaf => Some (acc, t)
      | Node _ _ _ _ => leftmost_ctx l (InLeft n i r :: acc)
      end
  end.

(** The only child of a node with at most one. *)
Definition only_child (l r : tree) : tree :=
  match l with
  | Leaf => r
  | Node _ _ _ _ => l
  end.

Definition repayload (i : info) (k c : Z) : info :=
  mkInfo k c (iweight i) (iheight i).

Definition delete_tree (fuel : nat) (k : Z) (t : tree) : option tree :=
  match find_key t k [] with
  | None => Some t
  | Some (_, Leaf) => None
  | Some (c, Node d i l r) =>
      match l, r with
      | Node _ _ _ _, Node _ _ _ _ =>
          match leftmost_ctx r [] with
          | Some (cy, Node y yi yl yr) =>
              let c' := cy ++ InRight d (repayload i (ikey yi) (icount yi)) l :: c in
              walk fuel (plug c' (only_child yl yr)) (ctx_parent c')
          | _ => None
          end
      | _, _ => walk fuel (plug c (only_child l r)) (ctx_parent c)
      end
  end.

(** The keys to the left and to the right of the hole of a way up. *)
Fixpoint keys_before (c : list frame) : list Z :=
  match c with
  | [] => []
  | InLeft _ _ _ :: c' => keys_before c'
  | InRight _ i l :: c' => keys_before c' ++ keys l ++ [ikey i]
  end.

Fixpoint keys_after (c : list frame) : list Z :=
  match c with
  | [] => []
  | InLeft _ i r :: c' => ikey i :: keys r ++ keys_after c'
  | InRight _ _ _ :: c' => keys_after c'
  end.

(** The side a key went at a node on the way up. *)
Definition went (k : Z) (f : frame) : Prop :=
  match f with
  | InLeft _ i _ => k < ikey i
  | InRight _ i _ => ikey i < k
  end.

(** ** Statements over the store *)

(** The nodes the tree object reaches through child links. *)
Inductive reachable (s : tree_state) : loc -> Prop :=
| reach_root n : root s = Some n -> reachable s n
| reach_left p x n :
    reachable s p -> heap s !! p = Some x -> left x = Some n -> reachable s n
| reach_right p x n :
    reachable s p -> heap s !! p = Some x -> right x = Some n -> reachable s n.

(** Iterations and recursion depth that [n] operations on an empty tree
    never exceed. *)
Definition fuel_for (n : nat) : nat := (n + 2) * (n + 4).

(** The bookkeeping of one object is what [update] would store. *)
Definition bookkeeping_current (s : tree_state) (n : loc) : Prop :=
  exists x lh rh lw rw,
    heap s !! n = Some x /\
    stored_height (heap s) (left x) = Some lh /\
    stored_height (heap s) (right x) = Some rh /\
    stored_weight (heap s) (left x) = Some lw /\
    stored_weight (heap s) (right x) = Some rw /\
    height x = 1 + Z.max lh rh /\
    weight x = count x + lw + rw.

(** One object is not heavy. *)
Definition not_heavy (s : tree_state) (n : loc) : Prop :=
  exists lh rh,
    left_height n s = Ok lh s /\ right_height n s = Ok rh s /\
    Z.abs (lh - rh) <= 1.

(** The link fields of an object. *)
Definition links (x : node) : option loc * option loc * option loc :=
  (left x, right x, parent x).

Definition links_changed (s s' : tree_state) (m : loc) : Prop :=
  links <$> heap s !! m <> links <$> heap s' !! m.

(** The two double rotations, by the rotations they are made of: first at
    the heavy child [c], pulling [x] up, then at the node [n], pulling [x]
    up again. *)
Definition left_right_double (evs : list event) : Prop :=
  exists n c x, evs = [EvRotateLeft c x; EvRotateRight n x].

Definition right_left_double (evs : list event) : Prop :=
  exists n c x, evs = [EvRotateRight c x; EvRotateLeft n x].

(** What a rotation at [n] with heavy child [hc] may do to an object [m]
    that was [x] and is [x'] afterwards; [p0] is the parent [n] had and
    [mc] the child of [hc] that moves across. *)
Definition rotation_effect (n hc : loc) (p0 mc : option loc)
    (m : loc) (x x' : node) : Prop :=
  key x' = key x /\ count x' = count x /\
  (m <> n -> m <> hc -> weight x' = weight x /\ height x' = height x) /\
  (m <> n -> m <> hc -> p0 <> Some m -> left x' = left x /\ right x' = right x) /\
  (m <> n -> m <> hc -> p0 <> Some m -> mc <> Some m -> x' = x).

(** Every object of [s] is still there in [s'], changed at most as [P]
    allows. *)
Definition changes_only (P : loc -> node -> node -> Prop)
    (s s' : tree_state) : Prop :=
  forall m x, heap s !! m = Some x ->
              exists x', heap s' !! m = Some x' /\ P m x x'.

(** The store of the frame examples: 5 at the root, 10 to its right, 30 to
    the right of 10 and 20 to the left of 30. *)
Definition four_nodes : tree_state :=
  mkState
    (<[1%positive := mkNode 5 None (Some 2%positive) None 1 4 3]>
       (<[2%positive := mkNode 10 None (Some 4%positive) (Some 1%positive) 1 3 2]>
          (<[4%positive := mkNode 30 (Some 3%positive) None (Some 2%positive) 1 2 1]>
             (<[3%positive := mkNode 20 None None (Some 4%positive) 1 1 0]> ∅))))
    (Some 1%positive) [].

(** A store that holds the left chain 30, 20, 10 and the shape it holds. *)
Definition left_chain : tree_state :=
  mkState
    (<[1%positive := mkNode 30 (Some 2%positive) None None 1 3 2]>
       (<[2%positive := mkNode 20 (Some 3%positive) None (Some 1%positive) 1 2 1]>
          (<[3%positive := mkNode 10 None None (Some 2%positive) 1 1 0]> ∅)))
    (Some 1%positive) [].

Definition left_chain_shape : tree :=
  Node 1%positive (mkInfo 30 1 3 2)
       (Node 2%positive (mkInfo 20 1 2 1)
             (Node 3%positive (mkInfo 10 1 1 0) Leaf Leaf) Leaf)
       Leaf.

(** A method that changes objects at most as [P] allows. *)
Definition safe {A} (P : loc -> node -> node -> Prop) (m : M A) : Prop :=
  forall s a s', m s = Ok a s' -> changes_only P s s'.

(** What [_balance] saw when it inspected a node: the height the node
    stored was one more than the larger of the two heights it read. *)
Definition current_when_inspected (e : event) : Prop :=
  match e with
  | EvBalance _ stored lh rh => stored = 1 + Z.max lh rh
  | _ => True
  end.

(** ** Further stores and measures *)

(** A store that holds 20 over the leaves 10 and 30, and the shape it
    holds. *)
Definition three_nodes : tree_state :=
  mkState
    (<[1%positive := mkNode 20 (Some 2%positive) (Some 3%positive) None 1 3 1]>
       (<[2%positive := mkNode 10 None None (Some 1%positive) 1 1 0]>
          (<[3%positive := mkNode 30 None None (Some 1%positive) 1 1 0]> ∅)))
    (Some 1%positive) [].

Definition three_nodes_shape : tree :=
  Node 1%positive (mkInfo 20 1 3 1)
       (Node 2%positive (mkInfo 10 1 1 0) Leaf Leaf)
       (Node 3%positive (mkInfo 30 1 1 0) Leaf Leaf).

(** The least number of nodes of a height-balanced tree with [k] levels
    (height [k - 1]). *)
Fixpoint min_nodes (k : nat) : nat :=
  match k with
  | O => O
  | S k' =>
      match k' with
      | O => 1%nat
      | S k'' => S (min_nodes k' + min_nodes k'')
      end
  end.

(** A store whose heights are corrupted: the node of 10 has no left child
    and a right child that stores height -5. *)
Definition bad_heights : tree_state :=
  mkState
    (<[1%positive := mkNode 10 None (Some 2%positive) None 1 2 1]>
       (<[2%positive := mkNode 20 None None (Some 1%positive) 1 1 (-5)]> ∅))
    (Some 1%positive) [].

(** What [update] at [n] may do to an object [m] that was [x] and is [x']
    afterwards: only the weight and the height of [n] itself may differ. *)
Definition update_effect (n : loc) (m : loc) (x x' : node) : Prop :=
  key x' = key x /\ count x' = count x /\ links x' = links x /\
  (m <> n -> x' = x).

(** ** One call of [_balance] at a node of a held shape *)

(** The rotations [_balance] records at the root of a shape, in order; it
    reads stored heights only. *)
Definition balance_events (t : tree) : list event :=
  match t with
  | Leaf => []
  | Node n _ l r =>
      if sheight l - sheight r >? 1 then
        match l with
        | Leaf => []
        | Node ln _ ll lr =>
            if sheight lr - sheight ll >? 0 then
              match lr with
              | Leaf => []
              | Node x _ _ _ => [EvRotateLeft ln x; EvRotateRight n x]
              end
            else [EvRotateRight n ln]
        end
      else if sheight r - sheight l >? 1 then
        match r with
        | Leaf => []
        | Node rn _ rl rr =>
            if sheight rl - sheight rr >? 0 then
              match rl with
              | Leaf => []
              | Node x _ _ _ => [EvRotateRight rn x; EvRotateLeft n x]
              end
            else [EvRotateLeft n rn]
        end
      else []
  end.

(** What the rotations of a left-heavy node [n] over [l] and [r] are: the
    rotations recorded are [evs] and the subtree is [t'] afterwards. *)
Definition left_heavy_outcome (s : tree_state) (n : loc) (i : info)
    (l r : tree) (evs : list event) (t' : tree) : Prop :=
  exists ln li ll lr,
    l = Node ln li ll lr /\
    left_height ln s = Ok (sheight ll) s /\
    right_height ln s = Ok (sheight lr) s /\
    (sheight lr - sheight ll > 0 ->
     exists x xi xl xr,
       lr = Node x xi xl xr /\
       evs = [EvRotateLeft ln x; EvRotateRight n x] /\
       t' = upd x xi (upd ln li ll xl) (upd n i xr r)) /\
    (sheight lr - sheight ll <= 0 ->
     evs = [EvRotateRight n ln] /\
     t' = upd ln li ll (upd n i lr r)).

(** The mirror image, for a right-heavy node. *)
Definition right_heavy_outcome (s : tree_state) (n : loc) (i : info)
    (l r : tree) (evs : list event) (t' : tree) : Prop :=
  exists rn ri rl rr,
    r = Node rn ri rl rr /\
    left_height rn s = Ok (sheight rl) s /\
    right_height rn s = Ok (sheight rr) s /\
    (sheight rl - sheight rr > 0 ->
     exists x xi xl xr,
       rl = Node x xi xl xr /\
       evs = [EvRotateRight rn x; EvRotateLeft n x] /\
       t' = upd x xi (upd n i l xl) (upd rn ri xr rr)) /\
    (sheight rl - sheight rr <= 0 ->
     evs = [EvRotateLeft n rn] /\
     t' = upd rn ri (upd n i l rl) rr).

(** A store that holds 30 over 10 over 20 (a left child with a right
    child), and the shape it holds. *)
Definition zigzag : tree_state :=
  mkState
    (<[1%positive := mkNode 30 (Some 2%positive) None None 1 3 2]>
       (<[2%positive := mkNode 10 None (Some 3%positive) (Some 1%positive) 1 2 1]>
          (<[3%positive := mkNode 20 None None (Some 2%positive) 1 1 0]> ∅)))
    (Some 1%positive) [].

Definition zigzag_shape : tree :=
  Node 1%positive (mkInfo 30 1 3 2)
       (Node 2%positive (mkInfo 10 1 2 1) Leaf
             (Node 3%positive (mkInfo 20 1 1 0) Leaf Leaf))
       Leaf.

(** A store that holds the right chain 10, 20, 30 and the shape it holds. *)
Definition right_chain : tree_state :=
  mkState
    (<[1%positive := mkNode 10 None (Some 2%positive) None 1 3 2]>
       (<[2%positive := mkNode 20 None (Some 3%positive) (Some 1%positive) 1 2 1]>
          (<[3%positive := mkNode 30 None None (Some 2%positive) 1 1 0]> ∅)))
    (Some 1%positive) [].

Definition right_chain_shape : tree :=
  Node 1%positive (mkInfo 10 1 3 2) Leaf
       (Node 2%positive (mkInfo 20 1 2 1) Leaf
             (Node 3%positive (mkInfo 30 1 1 0) Leaf Leaf)).

(** * Properties *)

(** ** The method monad *)

Lemma bind_Ok {A B} (m : M A) (k : A -> M B) s a s1 :
  m s = Ok a s1 -> bind m k s = k a s1.
Proof. unfold bind. intros ->. reflexivity. Qed.

Lemma bind_Err {A B} (m : M A) (k : A -> M B) s e :
  m s = Err e -> bind m k s = Err e.
Proof. unfold bind. intros ->. reflexivity. Qed.

Lemma bind_Ok_inv {A B} (m : M A) (k : A -> M B) s b s2 :
  bind m k s = Ok b s2 -> exists a s1, m s = Ok a s1 /\ k a s1 = Ok b s2.
Proof.
  unfold bind. destruct (m s) as [a s1|e]; [|discriminate].
  intros H. exists a, s1. split; [reflexivity|exact H].
Qed.

Lemma get_Ok h rt tr n x :
  h !! n = Some x -> get n (mkState h rt tr) = Ok x (mkState h rt tr).
Proof. unfold get. simpl. intros ->. reflexivity. Qed.

Lemma get_Ok_inv n s x s1 :
  get n s = Ok x s1 -> heap s !! n = Some x /\ s1 = s.
Proof.
  unfold get. destruct (heap s !! n); [|discriminate].
  intros [= -> ->]. split; reflexivity.
Qed.

Lemma modify_Ok h rt tr n f x :
  h !! n = Some x ->
  modify n f (mkState h rt tr) = Ok tt (mkState (<[n := f x]> h) rt tr).
Proof. unfold modify. simpl. intros ->. reflexivity. Qed.

Lemma modify_Ok_inv n f s u s1 :
  modify n f s = Ok u s1 ->
  exists x, heap s !! n = Some x /\
            s1 = mkState (<[n := f x]> (heap s)) (root s) (trace s).
Proof.
  unfold modify. destruct (heap s !! n) as [x|]; [|discriminate].
  intros [= <- <-]. exists x. split; reflexivity.
Qed.

Lemma emit_Ok h rt tr e :
  emit e (mkState h rt tr) = Ok tt (mkState h rt (tr ++ [e])).
Proof. reflexivity. Qed.

Lemma set_root_Ok h rt tr o :
  set_root o (mkState h rt tr) = Ok tt (mkState h o tr).
Proof. reflexivity. Qed.

Lemma get_root_Ok h rt tr :
  get_root (mkState h rt tr) = Ok rt (mkState h rt tr).
Proof. reflexivity. Qed.

Lemma ret_Ok {A} (a : A) s : ret a s = Ok a s.
Proof. reflexivity. Qed.

(** ** C10: [is_balanced()] on the empty tree *)

(** C10: with no argument and no root, [is_balanced] falls back to the absent
    root and reads an attribute of it: the call raises and returns no
    boolean, whatever else the store holds. *)
Theorem is_balanced_empty_raises (h : gmap loc node) (tr : list event) (fuel : nat) :
  is_balanced (S fuel) None (mkState h None tr) = Err AttributeError.
Proof. reflexivity. Qed.

(** ** C3: the steps of a rotation *)


(** ** Shapes and the way up *)

Lemma locs_plug1 f t :
  locs (plug1 f t) ≡ₚ locs t ++ frame_loc f :: locs (sibling f).
Proof.
  destruct f as [n i r|n i l]; simpl.
  - reflexivity.
  - rewrite Permutation_app_comm. simpl. apply Permutation_middle.
Qed.

Lemma locs_plug c t : locs (plug c t) ≡ₚ locs t ++ ctx_locs c.
Proof.
  revert t. induction c as [|f c IH]; intros t; simpl.
  - by rewrite app_nil_r.
  - rewrite IH, locs_plug1. by rewrite <- app_assoc.
Qed.

Lemma locs_plug_ext c t t' : locs t = locs t' -> locs (plug c t) = locs (plug c t').
Proof.
  revert t t'. induction c as [|f c IH]; intros t t' H; simpl; [done|].
  apply IH. destruct f; simpl; by rewrite H.
Qed.

Lemma keys_plug_ext c t t' : keys t = keys t' -> keys (plug c t) = keys (plug c t').
Proof.
  revert t t'. induction c as [|f c IH]; intros t t' H; simpl; [done|].
  apply IH. destruct f; simpl; by rewrite H.
Qed.

Lemma keys_plug_within c t : exists a b, keys (plug c t) = a ++ keys t ++ b.
Proof.
  revert t. induction c as [|f c IH]; intros t; simpl.
  - exists [], []. by rewrite app_nil_r.
  - destruct (IH (plug1 f t)) as (a & b & ->).
    destruct f as [n i r|n i l]; simpl.
    + exists a, (ikey i :: keys r ++ b).
      by rewrite <- ?app_assoc.
    + exists (a ++ keys l ++ [ikey i]), b.
      rewrite <- ?app_assoc. simpl. by rewrite <- ?app_assoc.
Qed.

Lemma StronglySorted_within (a m b : list Z) :
  StronglySorted Z.lt (a ++ m ++ b) -> StronglySorted Z.lt m.
Proof.
  intros H. apply StronglySorted_app_1_r, StronglySorted_app_1_l in H. exact H.
Qed.

Lemma bst_plug_inv c t : bst (plug c t) -> bst t.
Proof.
  unfold bst. destruct (keys_plug_within c t) as (a & b & ->).
  apply StronglySorted_within.
Qed.

Lemma bst_Node n i l r :
  bst (Node n i l r) <->
  bst l /\ bst r /\ Forall (fun k => k < ikey i) (keys l) /\
  Forall (fun k => ikey i < k) (keys r) .
Proof.
  unfold bst. simpl.
  rewrite StronglySorted_app, StronglySorted_cons, !Forall_forall.
  split.
  - intros (Hlr & Hl & Hir & Hr). split_and!; try done.
    intros k Hk. apply (Hlr k (ikey i) Hk). left.
  - intros (Hl & Hr & Hli & Hir). split_and!; try done.
    intros x1 x2 H1 H2.
    apply elem_of_cons in H2 as [->|H2]; [by apply Hli|].
    specialize (Hli _ H1). specialize (Hir _ H2). lia.
Qed.

Lemma last_cons_default {A} (l : list A) (x d : A) :
  List.last (x :: l) d = List.last l x.
Proof.
  revert x d. induction l as [|y l IH]; intros x d; [reflexivity|].
  change (List.last (y :: l) d = List.last (y :: l) x).
  by rewrite !IH.
Qed.

Lemma root_loc_plug c t : root_loc (plug c t) = plug_root c (root_loc t).
Proof.
  revert t. induction c as [|f c IH]; intros t; [done|].
  simpl plug. rewrite IH. destruct c as [|g c].
  - by destruct f.
  - unfold plug_root. by rewrite last_cons_default.
Qed.

Lemma root_loc_plug_cons f c t t' :
  root_loc (plug (f :: c) t) = root_loc (plug (f :: c) t').
Proof. by rewrite !root_loc_plug. Qed.

(** ** Stores that hold a shape *)

Lemma repr_agree h h' par t :
  (forall n, n ∈ locs t -> h' !! n = h !! n) ->
  repr h par t -> repr h' par t.
Proof.
  revert par. induction t as [|n i l IHl r IHr]; intros par Hag; simpl; [done|].
  intros (Hn & Hl & Hr). split_and!.
  - rewrite Hag; [done|]. simpl. set_solver.
  - apply IHl; [|done]. intros m Hm. apply Hag. simpl. set_solver.
  - apply IHr; [|done]. intros m Hm. apply Hag. simpl. set_solver.
Qed.

Lemma repr_ctx_agree h h' c o :
  (forall n, n ∈ ctx_locs c -> h' !! n = h !! n) ->
  repr_ctx h c o -> repr_ctx h' c o.
Proof.
  revert o. induction c as [|f c IH]; intros o Hag; simpl; [done|].
  intros (Hn & Hs & Hc). split_and!.
  - rewrite Hag; [done|]. set_solver.
  - eapply repr_agree; [|done]. intros m Hm. apply Hag. set_solver.
  - apply IH; [|done]. intros m Hm. apply Hag. set_solver.
Qed.

Lemma repr_plug h c t :
  repr h None (plug c t) <->
  repr h (ctx_parent c) t /\ repr_ctx h c (root_loc t).
Proof.
  revert t. induction c as [|f c IH]; intros t; simpl.
  - tauto.
  - rewrite IH. destruct f as [n i r|n i l]; simpl; unfold to_node; tauto.
Qed.

(** The root of a held shape may change parent. *)
Lemma repr_root_lookup h par n i l r :
  repr h par (Node n i l r) -> h !! n = Some (to_node par i l r).
Proof. by intros (H & _). Qed.

Lemma repr_in_heap h par t n :
  repr h par t -> n ∈ locs t -> is_Some (h !! n).
Proof.
  revert par. induction t as [|m i l IHl r IHr]; intros par; simpl.
  - intros _ H. by apply elem_of_nil in H.
  - intros (Hm & Hl & Hr) Hin.
    apply elem_of_app in Hin as [Hin|Hin]; [by eapply IHl|].
    apply elem_of_cons in Hin as [->|Hin]; [by eexists|by eapply IHr].
Qed.

(** ** Reading and writing a store *)

Lemma stored_height_insert_ne h k v o :
  o ≠ Some k -> stored_height (<[k := v]> h) o = stored_height h o.
Proof.
  destruct o as [l|]; simpl; [|done].
  intros H. rewrite lookup_insert_ne; [done|congruence].
Qed.

Lemma stored_weight_insert_ne h k v o :
  o ≠ Some k -> stored_weight (<[k := v]> h) o = stored_weight h o.
Proof.
  destruct o as [l|]; simpl; [|done].
  intros H. rewrite lookup_insert_ne; [done|congruence].
Qed.

Lemma repr_stored_height h par t :
  repr h par t -> stored_height h (root_loc t) = Some (sheight t).
Proof. destruct t; simpl; [done|]. by intros (-> & _). Qed.

Lemma repr_stored_weight h par t :
  repr h par t -> stored_weight h (root_loc t) = Some (sweight t).
Proof. destruct t; simpl; [done|]. by intros (-> & _). Qed.

Lemma left_height_Ok h rt tr n x v :
  h !! n = Some x -> stored_height h (left x) = Some v ->
  left_height n (mkState h rt tr) = Ok v (mkState h rt tr).
Proof.
  intros Hn Hv. unfold left_height, bind, get; simpl. rewrite Hn.
  destruct (left x) as [l|]; simpl in *.
  - destruct (h !! l); simpl in *; [|done]. by inversion Hv.
  - by inversion Hv.
Qed.

Lemma right_height_Ok h rt tr n x v :
  h !! n = Some x -> stored_height h (right x) = Some v ->
  right_height n (mkState h rt tr) = Ok v (mkState h rt tr).
Proof.
  intros Hn Hv. unfold right_height, bind, get; simpl. rewrite Hn.
  destruct (right x) as [l|]; simpl in *.
  - destruct (h !! l); simpl in *; [|done]. by inversion Hv.
  - by inversion Hv.
Qed.

Lemma left_weight_Ok h rt tr n x v :
  h !! n = Some x -> stored_weight h (left x) = Some v ->
  left_weight n (mkState h rt tr) = Ok v (mkState h rt tr).
Proof.
  intros Hn Hv. unfold left_weight, bind, get; simpl. rewrite Hn.
  destruct (left x) as [l|]; simpl in *.
  - destruct (h !! l); simpl in *; [|done]. by inversion Hv.
  - by inversion Hv.
Qed.

Lemma right_weight_Ok h rt tr n x v :
  h !! n = Some x -> stored_weight h (right x) = Some v ->
  right_weight n (mkState h rt tr) = Ok v (mkState h rt tr).
Proof.
  intros Hn Hv. unfold right_weight, bind, get; simpl. rewrite Hn.
  destruct (right x) as [l|]; simpl in *.
  - destruct (h !! l); simpl in *; [|done]. by inversion Hv.
  - by inversion Hv.
Qed.

Lemma stored_height_with_weight h n x w o :
  h !! n = Some x ->
  stored_height (<[n := with_weight w x]> h) o = stored_height h o.
Proof.
  intros Hn. destruct o as [l|]; simpl; [|done].
  destruct (decide (n = l)) as [->|Hne].
  - by rewrite lookup_insert_eq, Hn.
  - by rewrite lookup_insert_ne.
Qed.

(** [update] reads the node and its two children and writes the node. *)
Lemma update_Ok h rt tr n x lw rw lh rh :
  h !! n = Some x ->
  stored_weight h (left x) = Some lw -> stored_weight h (right x) = Some rw ->
  stored_height h (left x) = Some lh -> stored_height h (right x) = Some rh ->
  update n (mkState h rt tr) =
    Ok tt (mkState (<[n := updated x lw rw lh rh]> h) rt tr).
Proof.
  intros Hn Hlw Hrw Hlh Hrh. unfold update.
  rewrite (bind_Ok _ _ _ _ _ (get_Ok _ rt tr _ _ Hn)).
  rewrite (bind_Ok _ _ _ _ _ (left_weight_Ok _ rt tr _ _ _ Hn Hlw)).
  rewrite (bind_Ok _ _ _ _ _ (right_weight_Ok _ rt tr _ _ _ Hn Hrw)).
  rewrite (bind_Ok _ _ _ _ _ (modify_Ok _ rt tr _ _ _ Hn)). simpl.
  set (x' := with_weight (count x + lw + rw) x).
  assert (Hn' : <[n := x']> h !! n = Some x') by apply lookup_insert_eq.
  erewrite bind_Ok; cycle 1.
  { eapply left_height_Ok; [exact Hn'|].
    subst x'; simpl. by rewrite stored_height_with_weight. }
  erewrite bind_Ok; cycle 1.
  { eapply right_height_Ok; [exact Hn'|].
    subst x'; simpl. by rewrite stored_height_with_weight. }
  rewrite (modify_Ok _ rt tr _ _ _ Hn'). simpl.
  by rewrite insert_insert_eq.
Qed.

Lemma root_loc_elem t k : root_loc t = Some k -> k ∈ locs t.
Proof. destruct t; simpl; [done|]. intros [= ->]. set_solver. Qed.

Lemma root_loc_ne t k : k ∉ locs t -> root_loc t ≠ Some k.
Proof. intros H E. by apply H, root_loc_elem. Qed.

Lemma NoDup_plug_split c t :
  NoDup (locs (plug c t)) -> NoDup (locs t ++ ctx_locs c).
Proof. intros H. by rewrite <- locs_plug. Qed.

Ltac heap_lookup :=
  first
    [ rewrite lookup_insert_eq
    | rewrite lookup_insert_ne by congruence
    | match goal with
      | H : ?h !! ?n = Some _ |- context [?h !! ?n] => rewrite H
      end ].

Ltac solve_lookup := repeat heap_lookup; reflexivity.

Ltac solve_stored :=
  rewrite ?stored_height_insert_ne, ?stored_weight_insert_ne
    by (apply root_loc_ne; assumption);
  first [ eapply repr_stored_height; eassumption
        | eapply repr_stored_weight; eassumption
        | simpl; repeat heap_lookup; reflexivity ].

Ltac norm_fields :=
  cbn beta iota delta
    [left right parent key count weight height
     with_left with_right with_parent with_weight with_height
     to_node root_loc updated].

(** Runs a method whose reads all succeed, one step after the other. *)
Ltac run :=
  norm_fields;
  lazymatch goal with
  | |- bind _ _ _ = _ =>
      eapply eq_trans; [eapply bind_Ok; run | run]
  | |- get _ _ = _ => eapply get_Ok; solve_lookup
  | |- modify _ _ _ = _ => eapply modify_Ok; solve_lookup
  | |- update _ _ = _ =>
      eapply update_Ok; [solve_lookup | norm_fields; solve_stored ..]
  | |- ret _ _ = _ => apply ret_Ok
  | |- emit _ _ = _ => apply emit_Ok
  | |- set_root _ _ = _ => apply set_root_Ok
  | |- get_root _ = _ => apply get_root_Ok
  | |- set_parent _ _ _ = _ => unfold set_parent; run
  | |- set_left _ _ _ = _ => unfold set_left; run
  | |- set_right _ _ _ = _ => unfold set_right; run
  | |- add_child _ _ _ = _ => unfold add_child; run
  | |- (if decide ?P then _ else _) _ = _ =>
      first [ rewrite (decide_True (P := P))
                by (norm_fields; first [reflexivity | done])
            | rewrite (decide_False (P := P))
                by (norm_fields;
                    first [ by apply root_loc_ne | congruence | done ]) ];
      run
  | |- (if ?b then _ else _) _ = _ =>
      match goal with H : b = _ |- _ => rewrite H end; run
  end.

(** A subtree or a part of the way up that no write touched. *)
Ltac solve_agree :=
  let k := fresh "k" in
  let Hk := fresh "Hk" in
  intros k Hk;
  rewrite ?lookup_insert_ne by (intros ->; contradiction);
  reflexivity.

Ltac keep_repr :=
  first [ eapply repr_agree; [|eassumption]; solve_agree
        | eapply repr_ctx_agree; [|eassumption]; solve_agree ].

(** What [NoDup] says about each object listed by name: it is none of the
    others and lies in none of the subtrees. *)
Lemma NoDup_app_flip {A} (a b : list A) :
  NoDup (a ++ b) -> NoDup a /\ (forall x, x ∈ b -> x ∉ a) /\ NoDup b.
Proof.
  rewrite NoDup_app. intros (Ha & Hab & Hb). split_and!; try done.
  intros x Hx Hx'. by apply (Hab x).
Qed.

Ltac find_elem :=
  solve [ repeat first [ apply list_elem_of_here
                       | apply list_elem_of_further
                       | apply elem_of_app; right ] ].

Ltac named_apart H a b :=
  lazymatch b with
  | ?k :: ?b' =>
      assert (k ∉ a) by (apply H; find_elem);
      named_apart H a b'
  | ?c ++ ?b' => named_apart H a b'
  | _ => idtac
  end.

Ltac nodup_facts H :=
  lazymatch type of H with
  | NoDup (?a ++ ?b) =>
      let H1 := fresh "Hnd" in
      let H2 := fresh "Hnd" in
      let H3 := fresh "Hnd" in
      apply NoDup_app_flip in H as (H1 & H2 & H3);
      named_apart H2 a b;
      clear H1 H2;
      nodup_facts H3
  | NoDup (?k :: ?b) =>
      let H1 := fresh "Hnd" in
      let H2 := fresh "Hnd" in
      apply NoDup_cons in H as (H1 & H2);
      repeat first [ rewrite not_elem_of_app in H1
                   | rewrite not_elem_of_cons in H1 ];
      destruct_and? H1;
      nodup_facts H2
  | _ => clear H
  end.

Ltac flatten_nodup H :=
  repeat first [ rewrite <- app_assoc in H | rewrite <- app_comm_cons in H ].

Lemma rot_left_locs t : locs (rot_left t) = locs t.
Proof.
  destruct t as [|n i l [|hc hi m r]]; simpl; try done.
  by rewrite <- app_assoc.
Qed.

Lemma rot_left_keys t : keys (rot_left t) = keys t.
Proof.
  destruct t as [|n i l [|hc hi m r]]; simpl; try done.
  by rewrite <- app_assoc.
Qed.

Lemma hole_key_lt c p pi pr t k :
  bst (plug c (Node p pi t pr)) -> k ∈ keys t -> (k <? ikey pi) = true.
Proof.
  intros H Hk. apply bst_plug_inv, bst_Node in H as (_ & _ & H & _).
  rewrite Forall_forall in H. apply Z.ltb_lt. by apply H.
Qed.

Lemma hole_key_gt c p pi pl t k :
  bst (plug c (Node p pi pl t)) -> k ∈ keys t -> (k <? ikey pi) = false.
Proof.
  intros H Hk. apply bst_plug_inv, bst_Node in H as (_ & _ & _ & H).
  rewrite Forall_forall in H. apply Z.ltb_ge. specialize (H _ Hk). lia.
Qed.

Lemma rotate_left_sim s c n i l hc hi m r :
  let t := Node n i l (Node hc hi m r) in
  represents s (plug c t) -> bst (plug c t) ->
  exists s',
    _rotate_left n (Some hc) s = Ok tt s' /\
    represents s' (plug c (rot_left t)) /\
    trace s' = trace s ++ [EvRotateLeft n hc].
Proof.
  intros t (Hroot & Hrepr & Hnd) Hbst.
  assert (Hnd' : NoDup (locs (plug c (rot_left t)))).
  { by rewrite (locs_plug_ext c _ t) by apply rot_left_locs. }
  subst t.
  destruct s as [h rt tr]. simpl in *.
  apply repr_plug in Hrepr as [(Hn & Hl & Hhc & Hm & Hr) Hc].
  apply NoDup_plug_split in Hnd. simpl in Hnd.
  destruct m as [|mn mi ml mr]; [|destruct Hm as (Hmn & Hml & Hmr)];
    (destruct c as [|[p pi pr|p pi pl] c'];
       [|destruct Hc as (Hp & Hps & Hc);
         first [ assert (Hcmp : (ikey hi <? ikey pi) = true)
                   by (eapply hole_key_lt; [exact Hbst|]; simpl; set_solver)
               | assert (Hcmp : (ikey hi <? ikey pi) = false)
                   by (eapply hole_key_gt; [exact Hbst|]; simpl; set_solver) ]..]);
    simpl in *.
  all: flatten_nodup Hnd; nodup_facts Hnd.
  all: eexists; (split; [unfold _rotate_left, deref; run|]).
  all: split; [|reflexivity].
  all: split_and!; [first [done | by rewrite Hroot, !root_loc_plug] | | done].
  all: lazymatch goal with
       | |- repr _ _ (plug _ _) => apply repr_plug
       | _ => idtac
       end; simpl.
  all: split_and!; try done; try keep_repr; try solve_lookup.
Qed.

Lemma rot_right_locs t : locs (rot_right t) = locs t.
Proof.
  destruct t as [|n i [|hc hi l m] r]; simpl; try done.
  by rewrite <- app_assoc.
Qed.

Lemma rot_right_keys t : keys (rot_right t) = keys t.
Proof.
  destruct t as [|n i [|hc hi l m] r]; simpl; try done.
  by rewrite <- app_assoc.
Qed.

Lemma rotate_right_sim s c n i hc hi l m r :
  let t := Node n i (Node hc hi l m) r in
  represents s (plug c t) -> bst (plug c t) ->
  exists s',
    _rotate_right n (Some hc) s = Ok tt s' /\
    represents s' (plug c (rot_right t)) /\
    trace s' = trace s ++ [EvRotateRight n hc].
Proof.
  intros t (Hroot & Hrepr & Hnd) Hbst.
  assert (Hnd' : NoDup (locs (plug c (rot_right t)))).
  { by rewrite (locs_plug_ext c _ t) by apply rot_right_locs. }
  subst t.
  destruct s as [h rt tr]. simpl in *.
  apply repr_plug in Hrepr as [(Hn & (Hhc & Hl & Hm) & Hr) Hc].
  apply NoDup_plug_split in Hnd. simpl in Hnd.
  destruct m as [|mn mi ml mr]; [|destruct Hm as (Hmn & Hml & Hmr)];
    (destruct c as [|[p pi pr|p pi pl] c'];
       [|destruct Hc as (Hp & Hps & Hc);
         first [ assert (Hcmp : (ikey hi <? ikey pi) = true)
                   by (eapply hole_key_lt; [exact Hbst|]; simpl; set_solver)
               | assert (Hcmp : (ikey hi <? ikey pi) = false)
                   by (eapply hole_key_gt; [exact Hbst|]; simpl; set_solver) ]..]);
    simpl in *.
  all: flatten_nodup Hnd; nodup_facts Hnd.
  all: eexists; (split; [unfold _rotate_right, deref; run|]).
  all: split; [|reflexivity].
  all: split_and!; [first [done | by rewrite Hroot, !root_loc_plug] | | done].
  all: lazymatch goal with
       | |- repr _ _ (plug _ _) => apply repr_plug
       | _ => idtac
       end; simpl.
  all: split_and!; try done; try keep_repr; try solve_lookup.
Qed.

(** ** Reading at a node of a held shape *)

Lemma focus_lookup h rt tr c n i l r :
  represents (mkState h rt tr) (plug c (Node n i l r)) ->
  h !! n = Some (to_node (ctx_parent c) i l r) /\
  stored_height h (root_loc l) = Some (sheight l) /\
  stored_height h (root_loc r) = Some (sheight r) /\
  stored_weight h (root_loc l) = Some (sweight l) /\
  stored_weight h (root_loc r) = Some (sweight r).
Proof.
  intros (_ & H & _). simpl in H.
  apply repr_plug in H as [(Hn & Hl & Hr) _].
  split_and!; first [done | by eapply repr_stored_height
                    | by eapply repr_stored_weight].
Qed.

Lemma get_focus h rt tr c n i l r :
  represents (mkState h rt tr) (plug c (Node n i l r)) ->
  get n (mkState h rt tr) =
    Ok (to_node (ctx_parent c) i l r) (mkState h rt tr).
Proof. intros H. apply get_Ok. by apply focus_lookup in H as (? & _). Qed.

Lemma left_height_focus h rt tr c n i l r :
  represents (mkState h rt tr) (plug c (Node n i l r)) ->
  left_height n (mkState h rt tr) = Ok (sheight l) (mkState h rt tr).
Proof.
  intros H. apply focus_lookup in H as (Hn & Hl & _).
  by eapply left_height_Ok.
Qed.

Lemma right_height_focus h rt tr c n i l r :
  represents (mkState h rt tr) (plug c (Node n i l r)) ->
  right_height n (mkState h rt tr) = Ok (sheight r) (mkState h rt tr).
Proof.
  intros H. apply focus_lookup in H as (Hn & _ & Hr & _).
  by eapply right_height_Ok.
Qed.

Lemma is_left_heavy_focus h rt tr c n i l r d :
  represents (mkState h rt tr) (plug c (Node n i l r)) ->
  is_left_heavy n d (mkState h rt tr) =
    Ok (sheight l - sheight r >? d) (mkState h rt tr).
Proof.
  intros H. unfold is_left_heavy.
  rewrite (bind_Ok _ _ _ _ _ (left_height_focus _ _ _ _ _ _ _ _ H)).
  by rewrite (bind_Ok _ _ _ _ _ (right_height_focus _ _ _ _ _ _ _ _ H)).
Qed.

Lemma is_right_heavy_focus h rt tr c n i l r d :
  represents (mkState h rt tr) (plug c (Node n i l r)) ->
  is_right_heavy n d (mkState h rt tr) =
    Ok (sheight r - sheight l >? d) (mkState h rt tr).
Proof.
  intros H. unfold is_right_heavy.
  rewrite (bind_Ok _ _ _ _ _ (right_height_focus _ _ _ _ _ _ _ _ H)).
  by rewrite (bind_Ok _ _ _ _ _ (left_height_focus _ _ _ _ _ _ _ _ H)).
Qed.

Lemma is_heavy_focus h rt tr c n i l r :
  represents (mkState h rt tr) (plug c (Node n i l r)) ->
  is_heavy n (mkState h rt tr) =
    Ok (Z.abs (sheight l - sheight r) >? 1) (mkState h rt tr).
Proof.
  intros H. unfold is_heavy.
  rewrite (bind_Ok _ _ _ _ _ (left_height_focus _ _ _ _ _ _ _ _ H)).
  by rewrite (bind_Ok _ _ _ _ _ (right_height_focus _ _ _ _ _ _ _ _ H)).
Qed.

(** ** [update] at a node of a held shape *)

Lemma update_sim s c n i l r :
  represents s (plug c (Node n i l r)) ->
  exists s',
    update n s = Ok tt s' /\
    represents s' (plug c (upd n i l r)) /\
    trace s' = trace s /\ root s' = root s.
Proof.
  destruct s as [h rt tr]. intros H.
  pose proof (focus_lookup _ _ _ _ _ _ _ _ H) as (Hn & Hlh & Hrh & Hlw & Hrw).
  destruct H as (Hroot & Hrepr & Hnd). simpl in *.
  eexists. split; [by eapply update_Ok|].
  split; [|done].
  assert (Hnd' : NoDup (locs (plug c (upd n i l r)))).
  { by rewrite (locs_plug_ext c _ (Node n i l r)). }
  apply repr_plug in Hrepr as [(_ & Hl & Hr) Hc].
  apply NoDup_plug_split in Hnd. simpl in Hnd.
  flatten_nodup Hnd. nodup_facts Hnd.
  split_and!; [by rewrite Hroot, !root_loc_plug| |done].
  apply repr_plug. simpl.
  split_and!; try done; try keep_repr; try solve_lookup.
Qed.

(** The same reads, whatever the root and the ghost record are. *)
Lemma represents_trace h rt tr tr' t :
  represents (mkState h rt tr) t -> represents (mkState h rt tr') t.
Proof. by intros (? & ? & ?). Qed.

Lemma get_at s c n i l r :
  represents s (plug c (Node n i l r)) ->
  get n s = Ok (to_node (ctx_parent c) i l r) s.
Proof. destruct s. apply get_focus. Qed.

Lemma get_parent_at s c n i l r :
  represents s (plug c (Node n i l r)) ->
  get_parent n s = Ok (ctx_parent c) s.
Proof. intros H. unfold get_parent. by rewrite (bind_Ok _ _ _ _ _ (get_at _ _ _ _ _ _ H)). Qed.

Lemma get_left_at s c n i l r :
  represents s (plug c (Node n i l r)) ->
  get_left n s = Ok (root_loc l) s.
Proof. intros H. unfold get_left. by rewrite (bind_Ok _ _ _ _ _ (get_at _ _ _ _ _ _ H)). Qed.

Lemma get_right_at s c n i l r :
  represents s (plug c (Node n i l r)) ->
  get_right n s = Ok (root_loc r) s.
Proof. intros H. unfold get_right. by rewrite (bind_Ok _ _ _ _ _ (get_at _ _ _ _ _ _ H)). Qed.

Lemma left_height_at s c n i l r :
  represents s (plug c (Node n i l r)) ->
  left_height n s = Ok (sheight l) s.
Proof. destruct s. apply left_height_focus. Qed.

Lemma right_height_at s c n i l r :
  represents s (plug c (Node n i l r)) ->
  right_height n s = Ok (sheight r) s.
Proof. destruct s. apply right_height_focus. Qed.

Lemma is_left_heavy_at s c n i l r d :
  represents s (plug c (Node n i l r)) ->
  is_left_heavy n d s = Ok (sheight l - sheight r >? d) s.
Proof. destruct s. apply is_left_heavy_focus. Qed.

Lemma is_right_heavy_at s c n i l r d :
  represents s (plug c (Node n i l r)) ->
  is_right_heavy n d s = Ok (sheight r - sheight l >? d) s.
Proof. destruct s. apply is_right_heavy_focus. Qed.

Lemma is_heavy_at s c n i l r :
  represents s (plug c (Node n i l r)) ->
  is_heavy n s = Ok (Z.abs (sheight l - sheight r) >? 1) s.
Proof. destruct s. apply is_heavy_focus. Qed.

Lemma observe_balance_at s c n i l r :
  represents s (plug c (Node n i l r)) ->
  exists s',
    observe_balance n s = Ok tt s' /\
    heap s' = heap s /\ root s' = root s /\
    trace s' = trace s ++ [EvBalance n (iheight i) (sheight l) (sheight r)].
Proof.
  intros H. unfold observe_balance.
  rewrite (bind_Ok _ _ _ _ _ (get_at _ _ _ _ _ _ H)).
  rewrite (bind_Ok _ _ _ _ _ (left_height_at _ _ _ _ _ _ H)).
  rewrite (bind_Ok _ _ _ _ _ (right_height_at _ _ _ _ _ _ H)).
  destruct s as [h rt tr]. eexists. split; [apply emit_Ok|]. done.
Qed.

Lemma represents_same s s' t :
  heap s' = heap s -> root s' = root s -> represents s t -> represents s' t.
Proof. unfold represents. by intros -> ->. Qed.

(** ** Stored heights stay those of nodes *)

Lemma sheight_nonneg t : heights_nonneg t -> -1 <= sheight t.
Proof. destruct t; simpl; [lia|]. intros (? & _). lia. Qed.

Lemma heights_nonneg_upd n i l r :
  heights_nonneg l -> heights_nonneg r -> heights_nonneg (upd n i l r).
Proof.
  intros Hl Hr. simpl. split_and!; try done.
  apply sheight_nonneg in Hl, Hr. lia.
Qed.

Lemma heights_nonneg_rot_left t : heights_nonneg t -> heights_nonneg (rot_left t).
Proof.
  destruct t as [|n i l [|hc hi m r]]; try done.
  intros (? & ? & ? & ? & ?). unfold rot_left.
  apply heights_nonneg_upd; [|done]. by apply heights_nonneg_upd.
Qed.

Lemma heights_nonneg_rot_right t : heights_nonneg t -> heights_nonneg (rot_right t).
Proof.
  destruct t as [|n i [|hc hi l m] r]; try done.
  intros (? & (? & ? & ?) & ?). unfold rot_right.
  apply heights_nonneg_upd; [done|]. by apply heights_nonneg_upd.
Qed.

Lemma heights_nonneg_balance_node t :
  heights_nonneg t -> heights_nonneg (balance_node t).
Proof.
  destruct t as [|n i l r]; [done|]. intros H. unfold balance_node.
  destruct (sheight l - sheight r >? 1).
  - destruct l as [|ln li ll lr]; [done|].
    destruct (sheight lr - sheight ll >? 0);
      apply heights_nonneg_rot_right; [|done].
    destruct H as (? & ? & ?). split_and!; try done.
    by apply heights_nonneg_rot_left.
  - destruct (sheight r - sheight l >? 1); [|done].
    destruct r as [|rn ri rl rr]; [done|].
    destruct (sheight rl - sheight rr >? 0);
      apply heights_nonneg_rot_left; [|done].
    destruct H as (? & ? & ?). split_and!; try done.
    by apply heights_nonneg_rot_right.
Qed.

Lemma heights_nonneg_plug_mono c t t' :
  (heights_nonneg t -> heights_nonneg t') ->
  heights_nonneg (plug c t) -> heights_nonneg (plug c t').
Proof.
  revert t t'. induction c as [|f c IH]; intros t t' H; simpl; [done|].
  apply IH. destruct f; simpl; tauto.
Qed.

Lemma heights_nonneg_plug_inv c t : heights_nonneg (plug c t) -> heights_nonneg t.
Proof.
  revert t. induction c as [|f c IH]; intros t; simpl; [done|].
  intros H. apply IH in H. destruct f; simpl in H; tauto.
Qed.

Lemma balance_node_locs t : locs (balance_node t) = locs t.
Proof.
  destruct t as [|n i l r]; [done|]. unfold balance_node.
  destruct (sheight l - sheight r >? 1).
  - destruct l as [|ln li ll lr]; [done|].
    destruct (sheight lr - sheight ll >? 0);
      rewrite rot_right_locs; [|done].
    change (locs (rot_left (Node ln li ll lr)) ++ n :: locs r =
            locs (Node ln li ll lr) ++ n :: locs r).
    by rewrite rot_left_locs.
  - destruct (sheight r - sheight l >? 1); [|done].
    destruct r as [|rn ri rl rr]; [done|].
    destruct (sheight rl - sheight rr >? 0);
      rewrite rot_left_locs; [|done].
    change (locs l ++ n :: locs (rot_right (Node rn ri rl rr)) =
            locs l ++ n :: locs (Node rn ri rl rr)).
    by rewrite rot_right_locs.
Qed.

Lemma balance_node_keys t : keys (balance_node t) = keys t.
Proof.
  destruct t as [|n i l r]; [done|]. unfold balance_node.
  destruct (sheight l - sheight r >? 1).
  - destruct l as [|ln li ll lr]; [done|].
    destruct (sheight lr - sheight ll >? 0);
      rewrite rot_right_keys; [|done].
    change (keys (rot_left (Node ln li ll lr)) ++ ikey i :: keys r =
            keys (Node ln li ll lr) ++ ikey i :: keys r).
    by rewrite rot_left_keys.
  - destruct (sheight r - sheight l >? 1); [|done].
    destruct r as [|rn ri rl rr]; [done|].
    destruct (sheight rl - sheight rr >? 0);
      rewrite rot_left_keys; [|done].
    change (keys l ++ ikey i :: keys (rot_right (Node rn ri rl rr)) =
            keys l ++ ikey i :: keys (Node rn ri rl rr)).
    by rewrite rot_right_keys.
Qed.

Lemma balance_node_root t : t <> Leaf -> balance_node t <> Leaf.
Proof.
  destruct t as [|n i l r]; [done|]. intros _. unfold balance_node.
  destruct (sheight l - sheight r >? 1).
  - destruct l as [|ln li ll lr]; [done|].
    destruct (sheight lr - sheight ll >? 0); [|done].
    by destruct lr.
  - destruct (sheight r - sheight l >? 1); [|done].
    destruct r as [|rn ri rl rr]; [done|].
    destruct (sheight rl - sheight rr >? 0); [|done].
    by destruct rl.
Qed.

Lemma balance_up_locs c t : locs (balance_up c t) = locs (plug c t).
Proof.
  revert t. induction c as [|f c IH]; intros t; simpl.
  - apply balance_node_locs.
  - rewrite IH. apply locs_plug_ext.
    destruct f; simpl; by rewrite balance_node_locs.
Qed.

Lemma balance_up_keys c t : keys (balance_up c t) = keys (plug c t).
Proof.
  revert t. induction c as [|f c IH]; intros t; simpl.
  - apply balance_node_keys.
  - rewrite IH. apply keys_plug_ext.
    destruct f; simpl; by rewrite balance_node_keys.
Qed.

Lemma balance_up_heights_nonneg c t :
  heights_nonneg (plug c t) -> heights_nonneg (balance_up c t).
Proof.
  revert t. induction c as [|f c IH]; intros t; simpl.
  - apply heights_nonneg_balance_node.
  - intros H. apply IH. revert H. apply heights_nonneg_plug_mono.
    destruct f; simpl; intros (? & ? & ?); split_and!; try done;
      by apply heights_nonneg_balance_node.
Qed.

(** ** [_balance] on a held shape *)

Lemma balance_unfold fuel n s :
  _balance (S fuel) n s =
    (observe_balance n ;;
     let* parent0 := get_parent n in
     rotations_at n ;;
     continue_at fuel parent0) s.
Proof.
  simpl. unfold bind, rotations_at, bind.
  destruct (observe_balance n s) as [[] s1|]; [|done].
  destruct (get_parent n s1) as [p s2|]; [|done].
  destruct (is_left_heavy n 1 s2) as [[] s3|]; [| |done].
  - destruct (get_left n s3) as [l s4|]; [|done].
    destruct (deref l s4) as [l' s5|]; [|done].
    destruct (is_right_heavy l' 0 s5) as [[] s6|]; [| |done]; reflexivity.
  - destruct (is_right_heavy n 1 s3) as [[] s4|]; [| |done]; [|reflexivity].
    destruct (get_right n s4) as [r s5|]; [|done].
    destruct (deref r s5) as [r' s6|]; [|done].
    destruct (is_left_heavy r' 0 s6) as [[] s7|]; [| |done]; reflexivity.
Qed.

Lemma bst_plug_keys c t t' : keys t' = keys t -> bst (plug c t) -> bst (plug c t').
Proof. intros H. unfold bst. by rewrite (keys_plug_ext c t' t). Qed.

Ltac step_with H := rewrite (bind_Ok _ _ _ _ _ H).

Lemma rotations_at_sim s c n i l r :
  let t := Node n i l r in
  represents s (plug c t) -> bst (plug c t) -> heights_nonneg (plug c t) ->
  exists s',
    rotations_at n s = Ok tt s' /\
    represents s' (plug c (balance_node t)).
Proof.
  intros t Hs Hbst Hnn. subst t.
  pose proof (heights_nonneg_plug_inv _ _ Hnn) as (Hi & Hl & Hr).
  unfold rotations_at, balance_node.
  step_with (is_left_heavy_at _ _ _ _ _ _ 1 Hs).
  destruct (sheight l - sheight r >? 1) eqn:Hlh.
  - (* left-heavy *)
    step_with (get_left_at _ _ _ _ _ _ Hs).
    destruct l as [|ln li ll lr].
    { apply sheight_nonneg in Hr. simpl in Hlh. lia. }
    simpl root_loc. unfold deref. step_with (ret_Ok ln s).
    assert (Hs' : represents s (plug (InLeft n i r :: c) (Node ln li ll lr))) by done.
    step_with (is_right_heavy_at _ _ _ _ _ _ 0 Hs').
    destruct (sheight lr - sheight ll >? 0) eqn:Hin.
    + destruct lr as [|lrn lri lrl lrr].
      { destruct Hl as (_ & Hll & _). apply sheight_nonneg in Hll.
        simpl in Hin. lia. }
      destruct (rotate_left_sim s (InLeft n i r :: c) ln li ll lrn lri lrl lrr)
        as (s1 & Hrun1 & Hs1 & _); [done..|].
      assert (Hrun1' : (let* lr := get_right ln in _rotate_left ln lr) s
                       = Ok tt s1).
      { step_with (get_right_at _ _ _ _ _ _ Hs'). exact Hrun1. }
      step_with Hrun1'.
      simpl in Hs1.
      step_with (get_left_at _ _ _ _ _ _ Hs1).
      edestruct (rotate_right_sim s1 c n i lrn) as (s2 & Hrun2 & Hs2 & _);
        [exact Hs1| |].
      { revert Hbst. apply bst_plug_keys. simpl.
        f_equal. by rewrite <- app_assoc. }
      exists s2. split; [exact Hrun2|exact Hs2].
    + step_with (ret_Ok tt s).
      step_with (get_left_at _ _ _ _ _ _ Hs).
      edestruct (rotate_right_sim s c n i ln) as (s2 & Hrun2 & Hs2 & _);
        [exact Hs|done|].
      exists s2. split; [exact Hrun2|exact Hs2].
  - step_with (is_right_heavy_at _ _ _ _ _ _ 1 Hs).
    destruct (sheight r - sheight l >? 1) eqn:Hrh.
    + (* right-heavy *)
      step_with (get_right_at _ _ _ _ _ _ Hs).
      destruct r as [|rn ri rl rr].
      { apply sheight_nonneg in Hl. simpl in Hrh. lia. }
      simpl root_loc. unfold deref. step_with (ret_Ok rn s).
      assert (Hs' : represents s (plug (InRight n i l :: c) (Node rn ri rl rr))) by done.
      step_with (is_left_heavy_at _ _ _ _ _ _ 0 Hs').
      destruct (sheight rl - sheight rr >? 0) eqn:Hin.
      * destruct rl as [|rln rli rll rlr].
        { destruct Hr as (_ & _ & Hrr). apply sheight_nonneg in Hrr.
          simpl in Hin. lia. }
        destruct (rotate_right_sim s (InRight n i l :: c) rn ri rln rli rll rlr rr)
          as (s1 & Hrun1 & Hs1 & _); [done..|].
        assert (Hrun1' : (let* rl := get_left rn in _rotate_right rn rl) s
                         = Ok tt s1).
        { step_with (get_left_at _ _ _ _ _ _ Hs'). exact Hrun1. }
        step_with Hrun1'.
        simpl in Hs1.
        step_with (get_right_at _ _ _ _ _ _ Hs1).
        edestruct (rotate_left_sim s1 c n i l rln) as (s2 & Hrun2 & Hs2 & _);
          [exact Hs1| |].
        { revert Hbst. apply bst_plug_keys. simpl.
          do 2 f_equal. by rewrite <- app_assoc. }
        exists s2. split; [exact Hrun2|exact Hs2].
      * step_with (ret_Ok tt s).
        step_with (get_right_at _ _ _ _ _ _ Hs).
        edestruct (rotate_left_sim s c n i l rn) as (s2 & Hrun2 & Hs2 & _);
          [exact Hs|done|].
        exists s2. split; [exact Hrun2|exact Hs2].
    + exists s. split; [reflexivity|exact Hs].
Qed.

Lemma balance_up_cons f c t :
  balance_up (f :: c) t = balance_up c (plug1 f (balance_node t)).
Proof. reflexivity. Qed.

Lemma balance_sim c :
  forall t n s fuel,
    root_loc t = Some n ->
    represents s (plug c t) -> bst (plug c t) -> heights_nonneg (plug c t) ->
    (length c < fuel)%nat ->
    exists s', _balance fuel n s = Ok tt s' /\ represents s' (balance_up c t).
Proof.
  induction c as [|f c IH]; intros t n s fuel Hroot Hs Hbst Hnn Hfuel;
    (destruct fuel as [|fuel]; [simpl in Hfuel; lia|]);
    (destruct t as [|n' i l r]; [done|]); injection Hroot as ->;
    rewrite balance_unfold.
  - destruct (observe_balance_at _ _ _ _ _ _ Hs) as (s0 & Hobs & Hh & Hr & _).
    step_with Hobs.
    pose proof (represents_same _ _ _ Hh Hr Hs) as Hs0.
    step_with (get_parent_at _ _ _ _ _ _ Hs0).
    destruct (rotations_at_sim _ _ _ _ _ _ Hs0 Hbst Hnn) as (s1 & Hrot & Hs1).
    step_with Hrot. simpl. by exists s1.
  - destruct (observe_balance_at _ _ _ _ _ _ Hs) as (s0 & Hobs & Hh & Hr & _).
    step_with Hobs.
    pose proof (represents_same _ _ _ Hh Hr Hs) as Hs0.
    step_with (get_parent_at _ _ _ _ _ _ Hs0).
    destruct (rotations_at_sim _ _ _ _ _ _ Hs0 Hbst Hnn) as (s1 & Hrot & Hs1).
    step_with Hrot. simpl ctx_parent. simpl continue_at.
    rewrite balance_up_cons.
    apply IH.
    + by destruct f.
    + exact Hs1.
    + revert Hbst. apply (bst_plug_keys (f :: c)). apply balance_node_keys.
    + revert Hnn.
      apply (heights_nonneg_plug_mono (f :: c)), heights_nonneg_balance_node.
    + simpl in Hfuel. lia.
Qed.

(** ** Finding a node in a shape *)

Lemma plug_app c1 c2 t : plug (c1 ++ c2) t = plug c2 (plug c1 t).
Proof.
  revert t. induction c1 as [|f c1 IH]; intros t; simpl; [done|].
  apply IH.
Qed.

Lemma focus_plug t n c u :
  focus t n = Some (c, u) -> t = plug c u /\ root_loc u = Some n.
Proof.
  revert c u. induction t as [|m i l IHl r IHr]; intros c u; simpl; [done|].
  destruct (decide (m = n)) as [->|Hne].
  { intros [= <- <-]. done. }
  destruct (focus l n) as [[cl ul]|].
  { intros [= <- <-]. destruct (IHl _ _ eq_refl) as [-> ?].
    split; [|done]. by rewrite plug_app. }
  destruct (focus r n) as [[cr ur]|]; [|done].
  intros [= <- <-]. destruct (IHr _ _ eq_refl) as [-> ?].
  split; [|done]. by rewrite plug_app.
Qed.

Lemma focus_elem t n : n ∈ locs t -> is_Some (focus t n).
Proof.
  induction t as [|m i l IHl r IHr]; simpl.
  { intros H. by apply elem_of_nil in H. }
  intros H. destruct (decide (m = n)); [by eexists|].
  destruct (focus l n) as [[cl ul]|]; [by eexists|].
  destruct (focus r n) as [[cr ur]|]; [by eexists|].
  apply elem_of_app in H as [H|H].
  { apply IHl in H. by destruct H. }
  apply elem_of_cons in H as [H|H]; [congruence|].
  apply IHr in H. by destruct H.
Qed.

Lemma focus_None t n : focus t n = None -> n ∉ locs t.
Proof.
  intros H Hin. apply focus_elem in Hin. rewrite H in Hin. by destruct Hin.
Qed.

Lemma focus_Some_elem t n c u : focus t n = Some (c, u) -> n ∈ locs t.
Proof.
  intros H. apply focus_plug in H as [-> H].
  rewrite locs_plug. apply elem_of_app. left. by apply root_loc_elem.
Qed.

Lemma size_locs t : size t = length (locs t).
Proof.
  induction t as [|m i l IHl r IHr]; simpl; [done|].
  rewrite length_app. simpl. lia.
Qed.

Lemma length_ctx_lt c t : t <> Leaf -> (length c < size (plug c t))%nat.
Proof.
  intros Ht. rewrite size_locs, locs_plug, length_app.
  assert (length c <= length (ctx_locs c))%nat.
  { induction c as [|f c IH]; simpl; [lia|]. rewrite length_app. lia. }
  destruct t; [done|]. simpl. rewrite length_app. simpl. lia.
Qed.

Lemma update_root_locs t : locs (update_root t) = locs t.
Proof. by destruct t. Qed.

Lemma update_root_keys t : keys (update_root t) = keys t.
Proof. by destruct t. Qed.

Lemma heights_nonneg_update_root t :
  heights_nonneg t -> heights_nonneg (update_root t).
Proof.
  destruct t as [|n i l r]; [done|]. intros (? & ? & ?).
  by apply heights_nonneg_upd.
Qed.

(** ** The loop of [_update] on a held shape *)

Lemma update_loop_unfold fuel n :
  _update (S fuel) (Some n) =
    (update n ;;
     _balance (S fuel) n ;;
     let* p := get_parent n in
     _update fuel p).
Proof. reflexivity. Qed.

Lemma walk_sim fuel :
  forall t cur t' s fuel',
    walk fuel t cur = Some t' ->
    represents s t -> bst t -> heights_nonneg t ->
    (fuel + size t <= fuel')%nat ->
    exists s', _update fuel' cur s = Ok tt s' /\ represents s' t'.
Proof.
  induction fuel as [|fuel IH]; intros t cur t' s fuel' Hwalk Hs Hbst Hnn Hfuel.
  { destruct cur; [done|]. injection Hwalk as <-.
    exists s. by destruct fuel'. }
  destruct cur as [n|]; cycle 1.
  { injection Hwalk as <-. exists s. by destruct fuel'. }
  simpl in Hwalk.
  destruct (focus t n) as [[c u]|] eqn:Hfocus; [|done].
  apply focus_plug in Hfocus as [-> Hroot].
  destruct u as [|n' i l r]; [done|]. injection Hroot as ->.
  destruct fuel' as [|fuel']; [lia|].
  rewrite update_loop_unfold.
  destruct (update_sim _ _ _ _ _ _ Hs) as (s1 & Hupd & Hs1 & _).
  step_with Hupd.
  assert (Hbst1 : bst (plug c (upd n i l r))).
  { revert Hbst. by apply bst_plug_keys. }
  assert (Hnn1 : heights_nonneg (plug c (upd n i l r))).
  { revert Hnn. apply heights_nonneg_plug_mono.
    apply (heights_nonneg_update_root (Node n i l r)). }
  destruct (balance_sim c (upd n i l r) n s1 (S fuel')) as (s2 & Hbal & Hs2);
    [done..| |].
  { pose proof (length_ctx_lt c (Node n i l r) ltac:(done)). lia. }
  step_with Hbal.
  simpl update_root in Hwalk.
  set (t2 := balance_up c (upd n i l r)) in *.
  assert (Hlocs : locs t2 = locs (plug c (Node n i l r))).
  { unfold t2. rewrite balance_up_locs. by apply locs_plug_ext. }
  assert (Hin : n ∈ locs t2).
  { rewrite Hlocs, locs_plug. apply elem_of_app. left. simpl. set_solver. }
  unfold parent_in in Hwalk.
  destruct (focus_elem _ _ Hin) as [[c2 u2] Hf2]. rewrite Hf2 in Hwalk.
  apply focus_plug in Hf2 as [Ht2 Hroot2].
  destruct u2 as [|n2 i2 l2 r2]; [done|]. injection Hroot2 as ->.
  rewrite Ht2 in Hs2.
  step_with (get_parent_at _ _ _ _ _ _ Hs2).
  rewrite <- Ht2 in Hs2.
  eapply IH; [exact Hwalk|exact Hs2| | |].
  - unfold bst, t2. rewrite balance_up_keys.
    by rewrite (keys_plug_ext c _ (Node n i l r)).
  - by apply balance_up_heights_nonneg.
  - rewrite !size_locs in *. rewrite Hlocs. lia.
Qed.

(** ** Exact bookkeeping and rotations *)

Lemma exact_sheight t : exact t -> sheight t = real_height t.
Proof. destruct t; simpl; [done|]. by intros (-> & _). Qed.

Lemma exact_sweight t : exact t -> sweight t = real_weight t.
Proof. destruct t; simpl; [done|]. by intros (_ & -> & _). Qed.

Lemma real_height_ge t : -1 <= real_height t.
Proof. induction t; simpl; lia. Qed.

Lemma real_height_Node_ge n i l r : 0 <= real_height (Node n i l r).
Proof. simpl. pose proof (real_height_ge l). lia. Qed.

Lemma exact_upd n i l r : exact l -> exact r -> exact (upd n i l r).
Proof.
  intros Hl Hr. simpl.
  rewrite !exact_sheight, !exact_sweight by done. done.
Qed.

Lemma real_height_upd n i l r :
  real_height (upd n i l r) = 1 + Z.max (real_height l) (real_height r).
Proof. reflexivity. Qed.

Lemma sound_Leaf : sound Leaf.
Proof. by split. Qed.

Lemma sound_Node_inv n i l r :
  sound (Node n i l r) ->
  sound l /\ sound r /\ Z.abs (real_height l - real_height r) <= 1 /\
  iheight i = 1 + Z.max (real_height l) (real_height r).
Proof. intros ((? & ? & ? & ?) & (? & ? & ?)). by repeat split. Qed.

Lemma sound_upd n i l r :
  sound l -> sound r -> Z.abs (real_height l - real_height r) <= 1 ->
  sound (upd n i l r).
Proof.
  intros (? & ?) (? & ?) ?. split.
  - by apply exact_upd.
  - simpl. done.
Qed.

(** A sound subtree is left alone by [_balance]. *)
Lemma balance_node_sound t : sound t -> balance_node t = t.
Proof.
  destruct t as [|n i l r]; [done|].
  intros (Hl & Hr & Hd & _)%sound_Node_inv. unfold balance_node.
  rewrite !(exact_sheight l), !(exact_sheight r) by apply Hl || apply Hr.
  destruct (Z.gtb_spec (real_height l - real_height r) 1); [lia|].
  destruct (Z.gtb_spec (real_height r - real_height l) 1); [lia|].
  done.
Qed.

(** The case analysis of AVL rebalancing: two sound subtrees whose heights
    differ by two come out as one sound subtree, one lower or as high. *)
Lemma balance_node_fixes n i l r :
  sound l -> sound r ->
  Z.abs (real_height l - real_height r) = 2 ->
  let t' := balance_node (Node n i l r) in
  sound t' /\
  (real_height t' = Z.max (real_height l) (real_height r) \/
   real_height t' = 1 + Z.max (real_height l) (real_height r)).
Proof.
  intros Hl Hr Hd. unfold balance_node.
  rewrite !(exact_sheight l), !(exact_sheight r) by apply Hl || apply Hr.
  destruct (Z.gtb_spec (real_height l - real_height r) 1) as [Hlh|Hlh].
  - (* left-heavy *)
    destruct l as [|ln li ll lr].
    { pose proof (real_height_ge r). simpl in *. lia. }
    apply sound_Node_inv in Hl as (Hll & Hlr & Hld & Hli).
    rewrite !(exact_sheight ll), !(exact_sheight lr) by apply Hll || apply Hlr.
    simpl in Hd, Hlh.
    destruct (Z.gtb_spec (real_height lr - real_height ll) 0) as [Hin|Hin].
    + destruct lr as [|lrn lri lrl lrr].
      { pose proof (real_height_ge ll). simpl in *. lia. }
      apply sound_Node_inv in Hlr as (Hlrl & Hlrr & Hlrd & Hlri).
      simpl in *. unfold rot_left, rot_right.
      split.
      * apply sound_upd; [apply sound_upd; try done; lia
                         |apply sound_upd; try done; lia|].
        rewrite ?real_height_upd; simpl; lia.
      * rewrite ?real_height_upd; simpl; lia.
    + unfold rot_right. split.
      * apply sound_upd; [done|apply sound_upd; try done; lia|].
        rewrite ?real_height_upd; simpl; lia.
      * rewrite ?real_height_upd; simpl; lia.
  - destruct (Z.gtb_spec (real_height r - real_height l) 1) as [Hrh|Hrh];
      [|lia].
    destruct r as [|rn ri rl rr].
    { pose proof (real_height_ge l). simpl in *. lia. }
    apply sound_Node_inv in Hr as (Hrl & Hrr & Hrd & Hri).
    rewrite !(exact_sheight rl), !(exact_sheight rr) by apply Hrl || apply Hrr.
    simpl in Hd, Hrh.
    destruct (Z.gtb_spec (real_height rl - real_height rr) 0) as [Hin|Hin].
    + destruct rl as [|rln rli rll rlr].
      { pose proof (real_height_ge rr). simpl in *. lia. }
      apply sound_Node_inv in Hrl as (Hrll & Hrlr & Hrld & Hrli).
      simpl in *. unfold rot_left, rot_right.
      split.
      * apply sound_upd; [apply sound_upd; try done; lia
                         |apply sound_upd; try done; lia|].
        rewrite ?real_height_upd; simpl; lia.
      * rewrite ?real_height_upd; simpl; lia.
    + unfold rot_left. split.
      * apply sound_upd; [apply sound_upd; try done; lia|done|].
        rewrite ?real_height_upd; simpl; lia.
      * rewrite ?real_height_upd; simpl; lia.
Qed.

(** ** [_balance] on the way up *)

Lemma balance_up_idem c t :
  balance_node (balance_node t) = balance_node t ->
  balance_up c t = balance_up c (balance_node t).
Proof. intros H. destruct c; simpl; by rewrite H. Qed.

Lemma ctx_old_first_quiet f c o t :
  ctx_old o (f :: c) -> sheight t = o ->
  balance_node (plug1 f t) = plug1 f t.
Proof.
  intros (HS & Hd & _) Ht.
  destruct f as [p i r|p i l]; simpl in *; unfold balance_node;
    rewrite Ht, (exact_sheight _ (proj1 HS)).
  - destruct (Z.gtb_spec (o - real_height r) 1); [lia|].
    destruct (Z.gtb_spec (real_height r - o) 1); [lia|]. done.
  - destruct (Z.gtb_spec (real_height l - o) 1); [lia|].
    destruct (Z.gtb_spec (o - real_height l) 1); [lia|]. done.
Qed.

(** Above a node that stores the height it had, nothing is heavy. *)
Lemma balance_up_old c :
  forall t, balance_node t = t -> ctx_old (sheight t) c ->
            balance_up c t = plug c t.
Proof.
  induction c as [|f c IH]; intros t Ht Hc; simpl; [done|].
  rewrite Ht. apply IH.
  - by eapply ctx_old_first_quiet.
  - destruct Hc as (_ & _ & _ & Hc). by destruct f.
Qed.

Lemma locs_plug1_hole f t x : x ∈ locs t -> x ∈ locs (plug1 f t).
Proof. rewrite locs_plug1. set_solver. Qed.

Lemma plug1_fixes f t s :
  sound t -> sound s -> sibling f = s ->
  Z.abs (real_height t - real_height s) = 2 ->
  let t' := balance_node (plug1 f t) in
  sound t' /\
  (real_height t' = Z.max (real_height t) (real_height s) \/
   real_height t' = 1 + Z.max (real_height t) (real_height s)).
Proof.
  intros Ht Hs <- Hd. destruct f as [p i r|p i l]; simpl in *.
  - by apply balance_node_fixes.
  - rewrite (Z.max_comm (real_height t)).
    apply balance_node_fixes; [done..|lia].
Qed.

Lemma settle_sound c :
  forall t o,
    sound t -> ctx_old o c -> Z.abs (real_height t - o) <= 1 ->
    settled c t (balance_up c t).
Proof.
  induction c as [|f c IH]; intros t o Ht Hc Ho.
  - simpl. rewrite balance_node_sound by done.
    exists [], t, o. split_and!; try done. by left.
  - rewrite balance_up_cons, balance_node_sound by done.
    pose proof Hc as (HS & Hd & Hf & Hc').
    destruct (decide (Z.abs (real_height t - real_height (sibling f)) <= 1))
      as [Hq|Hq].
    + (* nothing is heavy: the way up is left as it is *)
      assert (Hq1 : balance_node (plug1 f t) = plug1 f t).
      { destruct f as [p i r|p i l]; simpl in *; unfold balance_node;
          rewrite (exact_sheight _ (proj1 Ht)), (exact_sheight _ (proj1 HS)).
        - destruct (Z.gtb_spec (real_height t - real_height r) 1); [lia|].
          destruct (Z.gtb_spec (real_height r - real_height t) 1); [lia|].
          done.
        - destruct (Z.gtb_spec (real_height l - real_height t) 1); [lia|].
          destruct (Z.gtb_spec (real_height t - real_height l) 1); [lia|].
          done. }
      rewrite balance_up_old; [|done|by destruct f].
      exists (f :: c), t, o. split_and!; try done. by left.
    + (* the parent is heavy by two: it is rotated, and the walk goes on *)
      assert (Hd2 : Z.abs (real_height t - real_height (sibling f)) = 2) by lia.
      destruct (plug1_fixes f t _ Ht HS eq_refl Hd2) as (Hs2 & Hh2).
      rewrite balance_up_idem by (by rewrite (balance_node_sound _ Hs2)).
      destruct (IH (balance_node (plug1 f t)) (iheight (frame_info f)))
        as (outer & u & o' & Hw & Hu & Hin & Hco & Hho & Hm);
        [done|done|lia|].
      exists outer, u, o'. split_and!; try done.
      * intros x Hx. apply Hin. rewrite balance_node_locs.
        by apply locs_plug1_hole.
      * right. destruct Hm as [[-> _]|Hm]; simpl; lia.
Qed.

Lemma settle_almost c n i l r o :
  sound l -> sound r ->
  Z.abs (real_height l - real_height r) <= 2 ->
  ctx_old o c ->
  Z.abs (1 + Z.max (real_height l) (real_height r) - o) <= 1 ->
  (Z.abs (real_height l - real_height r) = 2 ->
   o = Z.max (real_height l) (real_height r) \/
   o = 1 + Z.max (real_height l) (real_height r)) ->
  exists outer u o',
    balance_up c (upd n i l r) = plug outer u /\ sound u /\
    n ∈ locs u /\ ctx_old o' outer /\
    Z.abs (real_height u - o') <= 1 /\
    (length outer <= length c)%nat.
Proof.
  intros Hl Hr Hd Hc Hx Ho.
  destruct (decide (Z.abs (real_height l - real_height r) <= 1)) as [Hq|Hq].
  - assert (Ht : sound (upd n i l r)) by by apply sound_upd.
    destruct (settle_sound c _ o Ht Hc)
      as (outer & u & o' & Hw & Hu & Hin & Hco & Hho & Hm); [simpl; lia|].
    exists outer, u, o'. split_and!; try done.
    + apply Hin. simpl. set_solver.
    + destruct Hm as [[-> _]|Hm]; lia.
  - assert (Hd2 : Z.abs (real_height l - real_height r) = 2) by lia.
    destruct (balance_node_fixes n
                (mkInfo (ikey i) (icount i)
                        (icount i + sweight l + sweight r)
                        (1 + Z.max (sheight l) (sheight r))) l r Hl Hr Hd2)
      as (Hs2 & Hh2).
    change (Node n _ l r) with (upd n i l r) in Hs2, Hh2.
    rewrite balance_up_idem by (by rewrite (balance_node_sound _ Hs2)).
    destruct (settle_sound c _ o Hs2 Hc)
      as (outer & u & o' & Hw & Hu & Hin & Hco & Hho & Hm).
    { specialize (Ho Hd2). lia. }
    exists outer, u, o'. split_and!; try done.
    + apply Hin. rewrite balance_node_locs. simpl. set_solver.
    + destruct Hm as [[-> _]|Hm]; lia.
Qed.

(** ** Where the loop of [_update] is *)

Lemma NoDup_plug_inv c t : NoDup (locs (plug c t)) -> NoDup (locs t).
Proof. rewrite locs_plug. by intros (? & _)%NoDup_app. Qed.

Lemma focus_root t n : root_loc t = Some n -> focus t n = Some ([], t).
Proof.
  destruct t as [|m i l r]; [done|]. intros [= ->]. simpl.
  by rewrite decide_True.
Qed.

Lemma focus_plug_in outer :
  forall u n inner t,
    NoDup (locs (plug outer u)) ->
    focus u n = Some (inner, t) ->
    focus (plug outer u) n = Some (inner ++ outer, t).
Proof.
  induction outer as [|f outer IH]; intros u n inner t Hnd Hf; simpl.
  { by rewrite app_nil_r. }
  replace (inner ++ f :: outer) with ((inner ++ [f]) ++ outer)
    by (by rewrite <- app_assoc).
  apply IH; [done|].
  simpl in Hnd. apply NoDup_plug_inv in Hnd.
  pose proof (focus_Some_elem _ _ _ _ Hf) as Hin.
  destruct f as [p i r|p i l]; simpl in *.
  - apply NoDup_app in Hnd as (_ & Hd & _).
    rewrite decide_False; [by rewrite Hf|].
    intros ->. apply (Hd n Hin). set_solver.
  - apply NoDup_app in Hnd as (_ & Hd & Hnd).
    apply NoDup_cons in Hnd as (Hp & _).
    rewrite decide_False; [|intros ->; by apply Hp].
    destruct (focus l n) as [[cl ul]|] eqn:Hl.
    { apply focus_Some_elem in Hl. exfalso. apply (Hd n Hl). set_solver. }
    by rewrite Hf.
Qed.

Lemma focus_plug_root c t n :
  NoDup (locs (plug c t)) -> root_loc t = Some n ->
  focus (plug c t) n = Some (c, t).
Proof.
  intros Hnd Hr. apply (focus_plug_in c t n [] t Hnd). by apply focus_root.
Qed.

Lemma sound_plug_inv c t : sound (plug c t) -> sound t.
Proof.
  revert t. induction c as [|f c IH]; intros t; simpl; [done|].
  intros H. apply IH in H.
  destruct f; simpl in H; by apply sound_Node_inv in H as (? & ? & _).
Qed.

Lemma update_root_exact t : exact t -> update_root t = t.
Proof.
  destruct t as [|n [k c w h] l r]; [done|]. simpl.
  intros (-> & -> & Hl & Hr). unfold upd. simpl.
  by rewrite !exact_sheight, !exact_sweight.
Qed.

Lemma balance_up_inner outer inner :
  forall t, sound (plug inner t) ->
            balance_up (inner ++ outer) t = balance_up outer (plug inner t).
Proof.
  induction inner as [|f inner IH]; intros t Ht; simpl; [by destruct outer|].
  rewrite balance_node_sound; [by apply IH|].
  simpl in Ht. apply sound_plug_inv in Ht.
  destruct f; simpl in Ht; by apply sound_Node_inv in Ht as (? & ? & _).
Qed.

Lemma real_height_lt_size t : real_height t < Z.of_nat (size t).
Proof.
  induction t as [|n i l IHl r IHr]; simpl; lia.
Qed.

(** After [_balance], the loop goes to the parent. *)
Lemma next_state b outer u o n inner t :
  NoDup (locs (plug outer u)) ->
  sound u -> focus u n = Some (inner, t) ->
  ctx_old o outer -> Z.abs (real_height u - o) <= 1 ->
  exists phi,
    walk_inv b (plug outer u) (parent_in (plug outer u) n) phi /\
    (phi < length outer * (b + 2) + length inner + 1)%nat.
Proof.
  intros Hnd Hu Hf Hc Ho. unfold parent_in.
  rewrite (focus_plug_in _ _ _ _ _ Hnd Hf).
  apply focus_plug in Hf as [-> Hroot].
  destruct inner as [|g inner]; simpl.
  - destruct outer as [|f outer]; simpl.
    + exists O. split; [by constructor|lia].
    + exists (length outer * (b + 2) + b + 1)%nat. split; [|lia].
      destruct Hc as (HS & Hd & Hh & Hc).
      destruct f as [p i r|p i l]; simpl in *.
      * apply (wi_boundary b outer p i t r (iheight i)); try done; lia.
      * apply (wi_boundary b outer p i l t (iheight i)); try done; lia.
  - exists (length outer * (b + 2) + length inner + 1)%nat. split; [|lia].
    apply (wi_inside b outer inner (plug1 g t) (frame_loc g) o); try done.
    by destruct g.
Qed.

Lemma walk_keeps fuel :
  forall t cur t',
    walk fuel t cur = Some t' -> locs t' = locs t /\ keys t' = keys t.
Proof.
  induction fuel as [|fuel IH]; intros t cur t' H.
  { destruct cur; [done|]. by injection H as <-. }
  destruct cur as [n|]; [|by injection H as <-].
  simpl in H. destruct (focus t n) as [[c u]|] eqn:Hf; [|done].
  apply IH in H as [-> ->]. apply focus_plug in Hf as [-> _].
  rewrite balance_up_locs, balance_up_keys.
  split; [apply locs_plug_ext, update_root_locs
         |apply keys_plug_ext, update_root_keys].
Qed.

(** From each of its states the loop ends, in a sound tree. *)
Lemma walk_total b fuel :
  forall t cur phi,
    walk_inv b t cur phi -> size t = b -> NoDup (locs t) ->
    (phi <= fuel)%nat ->
    exists t', walk fuel t cur = Some t' /\ sound t'.
Proof.
  induction fuel as [|fuel IH]; intros w cur phi Hinv Hsize Hnd Hphi.
  { inversion Hinv; subst; try lia. by exists w. }
  inversion Hinv as [t0 Hs|outer inner t n o Hroot Hs Hc Ho
                    |c n i l r o Hl Hr Hd Hc Hx Hox]; subst.
  - by exists w.
  - (* inside a sound subtree *)
    set (u := plug inner t) in *.
    assert (Hfu : focus u n = Some (inner, t)).
    { apply focus_plug_root; [by apply NoDup_plug_inv in Hnd|done]. }
    simpl. rewrite (focus_plug_in _ _ _ _ _ Hnd Hfu).
    rewrite update_root_exact by apply (sound_plug_inv inner), Hs.
    rewrite balance_up_inner by done.
    destruct (settle_sound outer u o Hs Hc Ho)
      as (outer' & u' & o' & Hw & Hu' & Hin & Hco & Hho & Hm).
    fold u. rewrite Hw.
    assert (Hlocs : locs (plug outer' u') = locs (plug outer u)).
    { rewrite <- Hw. apply balance_up_locs. }
    assert (Hnd' : NoDup (locs (plug outer' u'))) by by rewrite Hlocs.
    assert (Hn : n ∈ locs u').
    { apply Hin. by eapply focus_Some_elem. }
    destruct (focus_elem _ _ Hn) as [[inner' t'] Hf'].
    destruct (next_state (size (plug outer u)) outer' u' o' n inner' t')
      as (phi' & Hinv' & Hphi'); try done.
    eapply IH; [exact Hinv'| |done|].
    + by rewrite !size_locs, Hlocs.
    + destruct Hm as [[-> ->]|Hm].
      * rewrite Hfu in Hf'. injection Hf' as <- <-. lia.
      * apply focus_plug in Hf' as [Hu'' Hr''].
        pose proof (length_ctx_lt inner' t') as Hlt.
        assert (t' <> Leaf) by (by intros ->).
        rewrite <- Hu'' in Hlt. specialize (Hlt ltac:(done)).
        assert (size u' <= size (plug outer u))%nat.
        { rewrite !size_locs, <- Hlocs, locs_plug, length_app. lia. }
        assert (length outer' * (size (plug outer u) + 2)
                + (size (plug outer u) + 2)
                <= length outer * (size (plug outer u) + 2))%nat by nia.
        lia.
  - (* at a node about to be refreshed *)
    simpl. rewrite (focus_plug_root c _ n Hnd eq_refl). simpl update_root.
    destruct (settle_almost c n i l r o Hl Hr Hd Hc Hx Hox)
      as (outer' & u' & o' & Hw & Hu' & Hn & Hco & Hho & Hm).
    rewrite Hw.
    assert (Hlocs : locs (plug outer' u') = locs (plug c (Node n i l r))).
    { rewrite <- Hw, balance_up_locs. by apply locs_plug_ext. }
    assert (Hnd' : NoDup (locs (plug outer' u'))) by by rewrite Hlocs.
    destruct (focus_elem _ _ Hn) as [[inner' t'] Hf'].
    destruct (next_state (size (plug c (Node n i l r))) outer' u' o' n inner' t')
      as (phi' & Hinv' & Hphi'); try done.
    eapply IH; [exact Hinv'| |done|].
    + by rewrite !size_locs, Hlocs.
    + pose proof Hf' as Hf''. apply focus_plug in Hf'' as [Hu'' Hr''].
      pose proof (length_ctx_lt inner' t') as Hlt.
      assert (t' <> Leaf) by (by intros ->).
      rewrite <- Hu'' in Hlt. specialize (Hlt ltac:(done)).
      assert (size u' <= size (plug c (Node n i l r)))%nat.
      { rewrite !size_locs, <- Hlocs, locs_plug, length_app. lia. }
      assert (length outer' * (size (plug c (Node n i l r)) + 2)
              <= length c * (size (plug c (Node n i l r)) + 2))%nat by nia.
      lia.
Qed.

(** ** Keys around a hole *)

Lemma keys_plug c t :
  keys (plug c t) = keys_before c ++ keys t ++ keys_after c.
Proof.
  revert t. induction c as [|f c IH]; intros t; simpl.
  - by rewrite app_nil_r.
  - rewrite IH. destruct f as [n i r|n i l]; simpl.
    + by rewrite <- ?app_assoc.
    + rewrite <- ?app_assoc. simpl. by rewrite <- ?app_assoc.
Qed.

Lemma sorted_insert_middle (a b : list Z) k :
  StronglySorted Z.lt (a ++ b) ->
  Forall (fun x => x < k) a -> Forall (fun x => k < x) b ->
  StronglySorted Z.lt (a ++ k :: b).
Proof.
  rewrite !StronglySorted_app, StronglySorted_cons, !Forall_forall.
  intros (Hab & Ha & Hb) Hak Hkb. split_and!; try done.
  intros x y Hx [->|Hy]%elem_of_cons; [by apply Hak|by apply Hab].
Qed.

Lemma sorted_remove_middle (a b : list Z) m :
  StronglySorted Z.lt (a ++ m ++ b) -> StronglySorted Z.lt (a ++ b).
Proof.
  rewrite !StronglySorted_app. intros (Hab & Ha & _ & _ & Hb).
  split_and!; try done. intros x y Hx Hy. apply Hab; [done|].
  apply elem_of_app. by right.
Qed.

(** ** Soundness seen from a hole *)

Lemma sound_ctx_old c :
  forall t, sound (plug c t) -> ctx_old (real_height t) c.
Proof.
  induction c as [|f c IH]; intros t H; simpl; [done|].
  simpl in H. pose proof (IH _ H) as Hc.
  apply (sound_plug_inv c (plug1 f t)) in H.
  destruct f as [n i r|n i l]; simpl in *;
    apply sound_Node_inv in H as (Hl & Hr & Hd & Hi).
  - split_and!; try done. by rewrite Hi.
  - split_and!; try done; [lia|lia|by rewrite Hi].
Qed.

(** ** The descent of [insert] *)

Lemma locate_plug t :
  forall k acc c, locate t k acc = Some c -> plug acc t = plug c Leaf.
Proof.
  induction t as [|n i l IHl r IHr]; intros k acc c; simpl.
  { by intros [= ->]. }
  destruct (k =? ikey i); [done|].
  destruct (k <? ikey i); intros H.
  - by apply IHl in H.
  - by apply IHr in H.
Qed.

Lemma locate_went t :
  forall k acc c,
    locate t k acc = Some c -> Forall (went k) acc -> Forall (went k) c.
Proof.
  induction t as [|n i l IHl r IHr]; intros k acc c; simpl.
  { by intros [= ->]. }
  destruct (Z.eqb_spec k (ikey i)) as [|Hne]; [done|].
  destruct (Z.ltb_spec k (ikey i)) as [Hlt|Hge]; intros H Hacc.
  - apply (IHl _ _ _ H). constructor; [done|done].
  - apply (IHr _ _ _ H). constructor; [simpl; lia|done].
Qed.

Lemma locate_None_elem t :
  forall k acc, locate t k acc = None -> k ∈ keys t.
Proof.
  induction t as [|n i l IHl r IHr]; intros k acc; simpl; [done|].
  destruct (Z.eqb_spec k (ikey i)) as [->|]; [set_solver|].
  destruct (k <? ikey i); intros H.
  - apply IHl in H. set_solver.
  - apply IHr in H. set_solver.
Qed.

(** Keys on the way up lie on the side the descent left them. *)
Lemma went_bounds c k :
  forall t, bst (plug c t) -> Forall (went k) c ->
            Forall (fun x => x < k) (keys_before c) /\
            Forall (fun x => k < x) (keys_after c).
Proof.
  induction c as [|f c IH]; intros t Hb Hw; simpl; [done|].
  apply Forall_cons in Hw as (Hf & Hw).
  simpl in Hb. destruct (IH _ Hb Hw) as (Hbe & Haf).
  apply (bst_plug_inv c (plug1 f t)) in Hb.
  destruct f as [n i r|n i l]; simpl in *; apply bst_Node in Hb
    as (_ & _ & Hl & Hr).
  - split; [done|]. constructor; [done|].
    apply Forall_app. split; [|done].
    eapply Forall_impl; [exact Hr|]. simpl. lia.
  - split; [|done]. rewrite !Forall_app. split_and!; try done.
    + eapply Forall_impl; [exact Hl|]. simpl. lia.
    + by constructor.
Qed.

Lemma bst_attach c n k :
  bst (plug c Leaf) -> Forall (went k) c -> bst (plug c (new_leaf n k)).
Proof.
  intros Hb Hw. destruct (went_bounds c k Leaf Hb Hw) as (Hbe & Haf).
  unfold bst in *. rewrite keys_plug in *. simpl in *.
  by apply sorted_insert_middle.
Qed.

Lemma sound_new_leaf n k : sound (new_leaf n k).
Proof. split; simpl; split_and!; done. Qed.

(** [insert] on a sound ordered tree ends in one, with the new key in. *)
Lemma insert_tree_avl fuel n k t :
  avl t -> NoDup (locs t) -> n ∉ locs t ->
  ((size t + 1) * (size t + 3) <= fuel)%nat ->
  exists t',
    insert_tree fuel n k t = Some t' /\ avl t' /\ NoDup (locs t') /\
    (forall x, x ∈ locs t' <-> x = n /\ k ∉ keys t \/ x ∈ locs t) /\
    (forall x, x ∈ keys t' <-> x = k \/ x ∈ keys t).
Proof.
  intros (Hb & He & Hba) Hnd Hn Hfuel. unfold insert_tree.
  destruct (locate t k []) as [c|] eqn:Hloc.
  - pose proof (locate_plug _ _ _ _ Hloc) as Ht. simpl in Ht. subst t.
    pose proof (locate_went _ _ _ _ Hloc (List.Forall_nil _)) as Hw.
    set (w := plug c (new_leaf n k)).
    assert (Hlocs : locs w ≡ₚ n :: locs (plug c Leaf)).
    { unfold w. rewrite !locs_plug. done. }
    assert (Hndw : NoDup (locs w)).
    { rewrite Hlocs. by apply NoDup_cons. }
    assert (Hsz : size w = S (size (plug c Leaf))).
    { rewrite !size_locs, Hlocs. done. }
    assert (Hinv : walk_inv (size w) w (Some n)
                     (length c * (size w + 2) + length (@nil frame) + 1)).
    { apply (wi_inside (size w) c [] (new_leaf n k) n (-1));
        [done|apply sound_new_leaf|by apply (sound_ctx_old c Leaf)
        |simpl; lia]. }
    destruct (walk_total (size w) fuel w (Some n) _ Hinv eq_refl Hndw)
      as (t' & Hwalk & Hs').
    { pose proof (length_ctx_lt c (new_leaf n k) ltac:(done)) as Hlt.
      fold w in Hlt. simpl length. rewrite Hsz in *. nia. }
    exists t'. split; [done|].
    destruct (walk_keeps _ _ _ _ Hwalk) as (Hl' & Hk').
    assert (Hkn : k ∉ keys (plug c Leaf)).
    { destruct (went_bounds c k Leaf Hb Hw) as (Hbe & Haf).
      rewrite keys_plug. simpl. rewrite Forall_forall in Hbe, Haf.
      intros [H|H]%elem_of_app; [apply Hbe in H|apply Haf in H]; lia. }
    split_and!.
    + split; [|done]. unfold bst. rewrite Hk'. by apply bst_attach.
    + by rewrite Hl'.
    + intros x. rewrite Hl', Hlocs. set_solver.
    + intros x. rewrite Hk'. unfold w. rewrite !keys_plug. simpl. set_solver.
  - exists t. split; [done|].
    pose proof (locate_None_elem _ _ _ Hloc) as Hin.
    split_and!; try done.
    + intros x. set_solver.
    + intros x. set_solver.
Qed.

(** ** [insert] on a held shape *)

Lemma find_parent_sim k s t :
  forall acc n fuel,
    root_loc t = Some n -> represents s (plug acc t) ->
    (size t <= fuel)%nat ->
    find_parent fuel n k s =
      Ok (match locate t k acc with
          | Some c => ctx_parent c
          | None => None
          end) s.
Proof.
  induction t as [|m i l IHl r IHr]; intros acc n fuel Hroot Hs Hfuel; [done|].
  injection Hroot as ->. destruct fuel as [|fuel]; [simpl in Hfuel; lia|].
  simpl in Hfuel. simpl find_parent.
  step_with (get_at _ _ _ _ _ _ Hs). simpl.
  destruct (k =? ikey i); [done|].
  destruct (k <? ikey i).
  - destruct l as [|ln li ll lr]; [done|].
    apply (IHl (InLeft n i r :: acc)); [done|done|simpl in *; lia].
  - destruct r as [|rn ri rl rr]; [done|].
    apply (IHr (InRight n i l :: acc)); [done|done|simpl in *; lia].
Qed.

Lemma fresh_not_in s t :
  represents s t -> fresh (dom (heap s)) ∉ locs t.
Proof.
  intros (_ & Hr & _) Hin.
  apply (repr_in_heap _ _ _ _ Hr) in Hin.
  apply elem_of_dom in Hin. by apply is_fresh in Hin.
Qed.

Lemma fresh_lookup (h : gmap loc node) : h !! fresh (dom h) = None.
Proof. apply not_elem_of_dom, is_fresh. Qed.

Lemma create_node_Ok h rt tr k :
  create_node k (mkState h rt tr) =
    Ok (fresh (dom h))
       (mkState (<[fresh (dom h) := mkNode k None None None 1 1 0]> h) rt tr).
Proof. reflexivity. Qed.

(** A new leaf under the node the descent ended at. *)
Lemma attach_sim h rt tr f c k :
  represents (mkState h rt tr) (plug (f :: c) Leaf) -> went k f ->
  exists s',
    add_child (frame_loc f) (fresh (dom h))
      (mkState (<[fresh (dom h) := mkNode k None None None 1 1 0]> h) rt tr)
      = Ok tt s' /\
    represents s' (plug (f :: c) (new_leaf (fresh (dom h)) k)).
Proof.
  intros Hs Hw. pose proof (fresh_not_in _ _ Hs) as Hn0.
  simpl in *.
  pose proof (fresh_lookup h) as Hf0.
  remember (fresh (dom h)) as n0 eqn:Hn0eq. clear Hn0eq.
  destruct Hs as (Hroot & Hrepr & Hnd). simpl in *.
  change (plug c (plug1 f Leaf)) with (plug (f :: c) Leaf) in Hrepr, Hn0, Hnd.
  assert (Hperm : locs (plug (f :: c) Leaf) ≡ₚ ctx_locs (f :: c)).
  { by rewrite locs_plug. }
  assert (Hnd' : NoDup (locs (plug c (plug1 f (new_leaf n0 k))))).
  { change (NoDup (locs (plug (f :: c) (new_leaf n0 k)))).
    rewrite locs_plug. simpl locs. simpl app.
    apply NoDup_cons. split; by rewrite <- Hperm. }
  apply repr_plug in Hrepr as [_ Hc].
  rewrite locs_plug in Hn0. apply NoDup_plug_split in Hnd.
  simpl in Hn0, Hnd.
  destruct f as [p i r|p i l]; simpl in *; destruct Hc as (Hp & Hps & Hc).
  all: assert (Hcmp : (k <? ikey i) = true \/ (k <? ikey i) = false)
         by (destruct (k <? ikey i); auto).
  all: first [ assert (Hcmp' : (k <? ikey i) = true) by (apply Z.ltb_lt; lia)
             | assert (Hcmp' : (k <? ikey i) = false) by (apply Z.ltb_ge; lia) ].
  all: clear Hcmp.
  all: repeat first [ rewrite not_elem_of_app in Hn0
                    | rewrite not_elem_of_cons in Hn0 ];
       destruct_and? Hn0.
  all: flatten_nodup Hnd; nodup_facts Hnd.
  all: eexists; split; [run|].
  all: split_and!; [by rewrite Hroot, !root_loc_plug| |done].
  all: apply repr_plug; simpl.
  all: split_and!; try done; try keep_repr; try solve_lookup.
Qed.

Lemma locate_length t :
  forall k acc c, locate t k acc = Some c -> (length acc <= length c)%nat.
Proof.
  induction t as [|n i l IHl r IHr]; intros k acc c; simpl.
  { intros [= ->]. lia. }
  destruct (k =? ikey i); [done|].
  destruct (k <? ikey i); intros H.
  - apply IHl in H. simpl in H. lia.
  - apply IHr in H. simpl in H. lia.
Qed.

Lemma locate_Node_cons n i l r k c :
  locate (Node n i l r) k [] = Some c -> exists f c', c = f :: c'.
Proof.
  simpl. destruct (k =? ikey i); [done|].
  destruct (k <? ikey i); intros H; apply locate_length in H;
    destruct c; simpl in H; try lia; eauto.
Qed.

Lemma exact_heights_nonneg t : exact t -> heights_nonneg t.
Proof.
  induction t as [|n i l IHl r IHr]; simpl; [done|].
  intros (Hh & _ & Hl & Hr). split_and!; auto.
  pose proof (real_height_ge l). lia.
Qed.

Lemma heights_nonneg_plug_leaf c n k :
  heights_nonneg (plug c Leaf) -> heights_nonneg (plug c (new_leaf n k)).
Proof. apply heights_nonneg_plug_mono. intros _. simpl. done. Qed.

Lemma insert_sim s t k fuel fuel0 t' :
  represents s t -> bst t -> heights_nonneg t ->
  insert_tree fuel0 (fresh (dom (heap s))) k t = Some t' ->
  (fuel0 + size t + 1 <= fuel)%nat ->
  exists s', insert fuel k s = Ok tt s' /\ represents s' t'.
Proof.
  intros Hs Hb Hnn Hins Hfuel. unfold insert, insert_tree in *.
  destruct s as [h rt tr].
  rewrite (bind_Ok _ _ _ _ _ (get_root_Ok h rt tr)).
  pose proof Hs as (Hroot & Hrepr & Hnd). simpl in Hroot, Hrepr.
  destruct t as [|n i l r]; simpl in Hroot; subst rt.
  - (* the first key *)
    simpl in Hins. cbn beta iota.
    rewrite (bind_Ok _ _ _ _ _ (create_node_Ok h None tr k)).
    simpl heap in Hins.
    rewrite (bind_Ok _ _ _ _ _ (set_root_Ok _ _ _ (Some (fresh (dom h))))).
    eapply (walk_sim fuel0 _ _ _ _ fuel Hins).
    + split_and!; simpl; [done| |apply NoDup_singleton].
      split_and!; try done. apply lookup_insert_eq.
    + unfold bst. simpl. repeat constructor.
    + simpl. done.
    + simpl. lia.
  - cbn beta iota.
    rewrite (bind_Ok _ _ _ _ _
               (find_parent_sim k _ (Node n i l r) [] n fuel eq_refl Hs
                  ltac:(lia))).
    destruct (locate (Node n i l r) k []) as [c|] eqn:Hloc.
    + destruct (locate_Node_cons _ _ _ _ _ _ Hloc) as (f & c' & ->).
      cbn beta iota delta [ctx_parent].
      pose proof (locate_plug _ _ _ _ Hloc) as Ht. simpl plug in Ht at 1.
      pose proof (locate_went _ _ _ _ Hloc (List.Forall_nil _)) as Hw.
      rewrite Ht in Hs, Hb, Hnn, Hfuel.
      rewrite (bind_Ok _ _ _ _ _ (create_node_Ok h _ tr k)).
      destruct (attach_sim h _ tr f c' k Hs) as (s1 & Hadd & Hs1).
      { by apply Forall_cons in Hw as (? & _). }
      step_with Hadd. simpl heap in Hins.
      eapply (walk_sim fuel0 _ _ _ _ fuel Hins Hs1).
      * by apply bst_attach.
      * by apply heights_nonneg_plug_leaf.
      * assert (size (plug (f :: c') (new_leaf (fresh (dom h)) k))
                = S (size (plug (f :: c') Leaf))) as ->.
        { rewrite !size_locs, !locs_plug. done. }
        lia.
    + injection Hins as <-. by exists (mkState h (Some n) tr).
Qed.

Ltac norm_app :=
  repeat first [ rewrite <- app_assoc | rewrite <- app_comm_cons
               | rewrite app_nil_r | rewrite app_nil_l ].
Ltac norm_app_in H :=
  repeat first [ rewrite <- app_assoc in H | rewrite <- app_comm_cons in H
               | rewrite app_nil_r in H | rewrite app_nil_l in H ].

(** ** The descents of [delete] *)

Lemma find_key_plug t :
  forall k acc c u,
    find_key t k acc = Some (c, u) ->
    plug acc t = plug c u /\
    exists d i l r, u = Node d i l r /\ ikey i = k.
Proof.
  induction t as [|n i l IHl r IHr]; intros k acc c u; simpl; [done|].
  destruct (Z.eqb_spec k (ikey i)) as [->|Hne].
  { intros [= <- <-]. split; [done|]. by exists n, i, l, r. }
  destruct (k <? ikey i); intros H.
  - by apply IHl in H.
  - by apply IHr in H.
Qed.

Lemma leftmost_plug t :
  forall acc cy u,
    leftmost_ctx t acc = Some (cy, u) ->
    plug acc t = plug cy u /\
    (exists y yi yr, u = Node y yi Leaf yr) /\
    exists c1, cy = c1 ++ acc /\ keys_before c1 = [].
Proof.
  induction t as [|n i l IHl r IHr]; intros acc cy u; simpl; [done|].
  destruct l as [|ln li ll lr].
  - intros [= <- <-]. split_and!; [done|by exists n, i, r|by exists []].
  - intros H. apply IHl in H as (Hp & Hu & c1 & -> & Hc1).
    split_and!; [done|done|].
    exists (c1 ++ [InLeft n i r]). split; [by rewrite <- app_assoc|].
    clear -Hc1. induction c1 as [|[]]; simpl in *; try done.
    + by apply IHc1.
    + by destruct (keys_before c1), (keys l).
Qed.

Lemma leftmost_Some t acc :
  t <> Leaf -> is_Some (leftmost_ctx t acc).
Proof.
  revert acc. induction t as [|n i l IHl r IHr]; intros acc; [done|].
  intros _. simpl. destruct l as [|ln li ll lr]; [by eexists|].
  by apply IHl.
Qed.

Lemma keys_before_app c1 c2 :
  keys_before (c1 ++ c2) = keys_before c2 ++ keys_before c1.
Proof.
  induction c1 as [|[n i r|n i l] c1 IH]; simpl.
  - by rewrite app_nil_r.
  - done.
  - rewrite IH. by rewrite <- !app_assoc.
Qed.

Lemma keys_after_app c1 c2 :
  keys_after (c1 ++ c2) = keys_after c1 ++ keys_after c2.
Proof.
  induction c1 as [|[n i r|n i l] c1 IH]; simpl.
  - done.
  - rewrite IH. by rewrite <- !app_assoc.
  - done.
Qed.

Lemma ctx_locs_app c1 c2 : ctx_locs (c1 ++ c2) = ctx_locs c1 ++ ctx_locs c2.
Proof.
  induction c1 as [|f c1 IH]; simpl; [done|].
  rewrite IH. by rewrite <- !app_assoc.
Qed.

(** ** The way up after a change of payload *)

Lemma ctx_old_repayload c1 :
  forall o d i l c k cnt,
    ctx_old o (c1 ++ InRight d i l :: c) ->
    ctx_old o (c1 ++ InRight d (repayload i k cnt) l :: c).
Proof.
  induction c1 as [|f c1 IH]; intros o d i l c k cnt; simpl.
  - done.
  - intros (? & ? & ? & H). split_and!; try done. by apply IH.
Qed.

(** ** Where the walk starts after a splice *)

Lemma splice_inv b c child o :
  ctx_old o c -> sound child -> real_height child = o - 1 ->
  exists phi,
    walk_inv b (plug c child) (ctx_parent c) phi /\
    (phi <= length c * (b + 2))%nat.
Proof.
  intros Hc Hs Hh. destruct c as [|f c]; simpl.
  - exists O. split; [by constructor|lia].
  - exists (length c * (b + 2) + b + 1)%nat. split; [|lia].
    destruct Hc as (HS & Hd & Hf & Hc).
    destruct f as [p i r|p i l]; simpl in *.
    + apply (wi_boundary b c p i child r (iheight i)); try done; lia.
    + apply (wi_boundary b c p i l child (iheight i)); try done; lia.
Qed.

Lemma only_child_height l r :
  l = Leaf \/ r = Leaf ->
  real_height (only_child l r) = 1 + Z.max (real_height l) (real_height r) - 1.
Proof.
  intros [->| ->]; simpl.
  - pose proof (real_height_ge r). lia.
  - destruct l; simpl; [done|].
    pose proof (real_height_ge l1). pose proof (real_height_ge l2). lia.
Qed.

Lemma only_child_sound l r : sound l -> sound r -> sound (only_child l r).
Proof. by destruct l. Qed.

Lemma only_child_locs d l r :
  l = Leaf \/ r = Leaf -> locs l ++ d :: locs r ≡ₚ d :: locs (only_child l r).
Proof.
  intros [->| ->]; simpl; [done|].
  destruct l as [|ln li ll lr]; [done|].
  symmetry. apply Permutation_cons_append.
Qed.

Lemma only_child_keys_r l : keys (only_child l Leaf) = keys l.
Proof. by destruct l. Qed.

(** The walk after the splice of a node with at most one child. *)
Lemma splice_walk fuel c c' d i l r :
  let t := plug c (Node d i l r) in
  sound t -> bst t -> NoDup (locs t) ->
  l = Leaf \/ r = Leaf ->
  ctx_locs c' = ctx_locs c -> length c' = length c ->
  (forall o, ctx_old o c -> ctx_old o c') ->
  StronglySorted Z.lt (keys_before c' ++ keys (only_child l r) ++ keys_after c') ->
  (size t * (size t + 2) <= fuel)%nat ->
  exists t',
    walk fuel (plug c' (only_child l r)) (ctx_parent c') = Some t' /\
    avl t' /\ NoDup (locs t') /\ (size t' <= size t)%nat.
Proof.
  intros t Hs Hb Hnd Hone Hlocs Hlen Hold Hsorted Hfuel.
  set (w := plug c' (only_child l r)).
  assert (Hperm : locs t ≡ₚ d :: locs w).
  { unfold t, w. rewrite !locs_plug, Hlocs. simpl.
    by rewrite only_child_locs. }
  assert (Hndw : NoDup (locs w)).
  { rewrite Hperm in Hnd. by apply NoDup_cons in Hnd as (_ & ?). }
  assert (Hsz : size t = S (size w)).
  { by rewrite !size_locs, Hperm. }
  pose proof (sound_ctx_old c _ Hs) as Hc.
  pose proof (sound_plug_inv c _ Hs) as (Hl & Hr & _)%sound_Node_inv.
  destruct (splice_inv (size w) c' (only_child l r) _ (Hold _ Hc))
    as (phi & Hinv & Hphi).
  { by apply only_child_sound. }
  { simpl. rewrite only_child_height by done. lia. }
  destruct (walk_total (size w) fuel w _ phi Hinv eq_refl Hndw)
    as (t' & Hwalk & Hs').
  { pose proof (length_ctx_lt c (Node d i l r) ltac:(done)) as Hlt.
    fold t in Hlt. rewrite Hlen in Hphi. rewrite Hsz in *. nia. }
  exists t'. split; [done|].
  destruct (walk_keeps _ _ _ _ Hwalk) as (Hl' & Hk').
  split_and!.
  - split; [|done]. unfold bst. rewrite Hk'. unfold w. by rewrite keys_plug.
  - by rewrite Hl'.
  - rewrite (size_locs t'), Hl', <- size_locs. lia.
Qed.

Lemma delete_tree_avl fuel k t :
  avl t -> NoDup (locs t) ->
  (size t * (size t + 2) <= fuel)%nat ->
  exists t',
    delete_tree fuel k t = Some t' /\ avl t' /\ NoDup (locs t') /\
    (size t' <= size t)%nat.
Proof.
  intros (Hb & He & Hba) Hnd Hfuel. unfold delete_tree.
  destruct (find_key t k []) as [[c u]|] eqn:Hfind; cycle 1.
  { exists t. by split_and!. }
  apply find_key_plug in Hfind as (Ht & d & i & l & r & -> & Hk).
  simpl in Ht. subst t.
  assert (Hs : sound (plug c (Node d i l r))) by done.
  pose proof Hb as Hsorted. unfold bst in Hsorted.
  rewrite keys_plug in Hsorted.
  destruct l as [|ln li ll lr].
  { (* no left child *)
    assert (Hgoal : exists t',
      walk fuel (plug c (only_child Leaf r)) (ctx_parent c) = Some t' /\
      avl t' /\ NoDup (locs t') /\
      (size t' <= size (plug c (Node d i Leaf r)))%nat).
    { apply (splice_walk fuel c c d i Leaf r); auto.
      assert (H' : StronglySorted Z.lt
                     (keys_before c ++ [ikey i] ++ keys r ++ keys_after c)).
      { simpl in Hsorted. norm_app_in Hsorted. norm_app. exact Hsorted. }
      apply sorted_remove_middle in H'. exact H'. }
    by destruct r. }
  destruct r as [|rn ri rl rr].
  { (* no right child *)
    apply (splice_walk fuel c c d i (Node ln li ll lr) Leaf); auto.
    rewrite only_child_keys_r.
    assert (H' : StronglySorted Z.lt
                   ((keys_before c ++ keys (Node ln li ll lr)) ++
                    [ikey i] ++ keys_after c)).
    { simpl in Hsorted. simpl. norm_app_in Hsorted. norm_app.
      exact Hsorted. }
    apply sorted_remove_middle in H'. norm_app_in H'. norm_app. exact H'. }
  (* two children: the successor's payload moves up, the successor goes *)
  set (l := Node ln li ll lr) in *. set (r := Node rn ri rl rr) in *.
  destruct (leftmost_Some r [] ltac:(done)) as [[cy u] Hlm].
  rewrite Hlm.
  apply leftmost_plug in Hlm as (Hr & (y & yi & yr & ->) & c1 & -> & Hc1).
  simpl in Hr. rewrite app_nil_r in *.
  assert (Ht : plug c (Node d i l r)
               = plug (c1 ++ InRight d i l :: c) (Node y yi Leaf yr)).
  { rewrite plug_app. simpl. by rewrite <- Hr. }
  rewrite Ht in Hs, Hb, Hnd, Hfuel |- *.
  apply (splice_walk fuel (c1 ++ InRight d i l :: c)
           (c1 ++ InRight d (repayload i (ikey yi) (icount yi)) l :: c)
           y yi Leaf yr); auto.
  - by rewrite !ctx_locs_app.
  - by rewrite !length_app.
  - intros o. apply ctx_old_repayload.
  - assert (H' : StronglySorted Z.lt
                   ((keys_before c ++ keys l) ++ [ikey i] ++
                    (ikey yi :: keys yr ++ keys_after c1 ++ keys_after c))).
    { change (keys (Node d i l r)) with (keys l ++ ikey i :: keys r)
        in Hsorted.
      rewrite Hr, (keys_plug c1), Hc1 in Hsorted.
      change (keys (Node y yi Leaf yr)) with (ikey yi :: keys yr) in Hsorted.
      norm_app_in Hsorted. norm_app. exact Hsorted. }
    apply sorted_remove_middle in H'.
    simpl only_child. rewrite keys_before_app, keys_after_app, Hc1.
    simpl. unfold l in H'. simpl in H'.
    norm_app_in H'. norm_app. exact H'.
Qed.

(** ** [delete] on a held shape *)

Lemma search_sim k s t :
  forall acc fuel,
    represents s (plug acc t) -> (size t <= fuel)%nat ->
    search fuel (root_loc t) k s =
      Ok (match find_key t k acc with
          | Some (_, u) => root_loc u
          | None => None
          end) s.
Proof.
  induction t as [|m i l IHl r IHr]; intros acc fuel Hs Hfuel.
  { by destruct fuel. }
  destruct fuel as [|fuel]; [simpl in Hfuel; lia|].
  simpl in Hfuel. simpl search.
  step_with (get_at _ _ _ _ _ _ Hs). simpl.
  destruct (k =? ikey i); [done|].
  destruct (k <? ikey i).
  - apply (IHl (InLeft m i r :: acc)); [done|lia].
  - apply (IHr (InRight m i l :: acc)); [done|lia].
Qed.

Lemma leftmost_sim s t :
  forall acc n fuel,
    root_loc t = Some n -> represents s (plug acc t) ->
    (size t <= fuel)%nat ->
    exists cy u y,
      leftmost_ctx t acc = Some (cy, u) /\ root_loc u = Some y /\
      leftmost fuel n s = Ok y s.
Proof.
  induction t as [|m i l IHl r IHr]; intros acc n fuel Hroot Hs Hfuel; [done|].
  injection Hroot as ->. destruct fuel as [|fuel]; [simpl in Hfuel; lia|].
  simpl in Hfuel. simpl leftmost.
  step_with (get_at _ _ _ _ _ _ Hs). simpl.
  destruct l as [|ln li ll lr].
  - exists acc, (Node n i Leaf r), n. done.
  - apply (IHl (InLeft n i r :: acc)); [done|done|simpl in *; lia].
Qed.

Lemma repayload_sim s c d i l r k cnt :
  represents s (plug c (Node d i l r)) ->
  exists s',
    modify d (with_payload k cnt) s = Ok tt s' /\
    represents s' (plug c (Node d (repayload i k cnt) l r)).
Proof.
  destruct s as [h rt tr]. intros H.
  pose proof (focus_lookup _ _ _ _ _ _ _ _ H) as (Hn & _).
  destruct H as (Hroot & Hrepr & Hnd). simpl in *.
  eexists. split; [by eapply modify_Ok|].
  assert (Hnd' : NoDup (locs (plug c (Node d (repayload i k cnt) l r)))).
  { by rewrite (locs_plug_ext c _ (Node d i l r)). }
  apply repr_plug in Hrepr as [(_ & Hl & Hr) Hc].
  apply NoDup_plug_split in Hnd. simpl in Hnd.
  flatten_nodup Hnd. nodup_facts Hnd.
  split_and!; [by rewrite Hroot, !root_loc_plug| |done].
  apply repr_plug. simpl.
  split_and!; try done; try keep_repr; try solve_lookup.
Qed.

Lemma NoDup_only_child c d i l r :
  NoDup (locs (plug c (Node d i l r))) -> l = Leaf \/ r = Leaf ->
  NoDup (locs (plug c (only_child l r))).
Proof.
  intros H Hone. rewrite locs_plug in H |- *. simpl in H.
  rewrite (only_child_locs d l r Hone) in H. simpl in H.
  by apply NoDup_cons in H as (_ & ?).
Qed.

(** The node leaves; its only child, if any, takes its place. *)
Lemma splice_sim s c d i l r :
  represents s (plug c (Node d i l r)) -> l = Leaf \/ r = Leaf ->
  exists s',
    splice_out d s = Ok (ctx_parent c) s' /\
    represents s' (plug c (only_child l r)).
Proof.
  intros Hs Hone.
  pose proof (NoDup_only_child c d i l r (proj2 (proj2 Hs)) Hone) as Hnd'.
  destruct Hs as (Hroot & Hrepr & Hnd).
  destruct s as [h rt tr]. simpl in *.
  apply repr_plug in Hrepr as [(Hn & Hl & Hr) Hc].
  apply NoDup_plug_split in Hnd. simpl in Hnd.
  assert (Hcases : (l = Leaf /\ r = Leaf) \/
                   (l = Leaf /\ exists rn ri rl rr, r = Node rn ri rl rr) \/
                   (r = Leaf /\ exists ln li ll lr, l = Node ln li ll lr)).
  { destruct l, r; naive_solver. }
  destruct Hcases as [(-> & ->)|[(-> & rn & ri & rl & rr & ->)
                                |(-> & ln & li & ll & lr & ->)]];
    (destruct c as [|[p pi pr|p pi pl] c'];
       [|destruct Hc as (Hp & Hps & Hc)..]);
    simpl in *; destruct_and?.
  all: flatten_nodup Hnd; nodup_facts Hnd.
  all: eexists; (split; [unfold splice_out; run|]).
  all: split_and!; [first [done | by rewrite Hroot, !root_loc_plug] | | done].
  all: lazymatch goal with
       | |- repr _ _ (plug _ _) => apply repr_plug
       | _ => idtac
       end; simpl.
  all: split_and?; try done; try keep_repr; try solve_lookup.
Qed.

Lemma leftmost_acc t :
  forall acc,
    leftmost_ctx t acc =
      match leftmost_ctx t [] with
      | Some (c, u) => Some (c ++ acc, u)
      | None => None
      end.
Proof.
  induction t as [|n i l IHl r IHr]; intros acc; simpl; [done|].
  destruct l as [|ln li ll lr]; [done|].
  rewrite (IHl (InLeft n i r :: acc)), (IHl [InLeft n i r]).
  destruct (leftmost_ctx (Node ln li ll lr) []) as [[c u]|]; [|done].
  by rewrite <- app_assoc.
Qed.

Lemma heights_nonneg_only_child l r :
  heights_nonneg l -> heights_nonneg r -> heights_nonneg (only_child l r).
Proof. by destruct l. Qed.

Lemma delete_sim s t k fuel fuel0 t' :
  represents s t -> heights_nonneg t ->
  delete_tree fuel0 k t = Some t' -> bst t' ->
  (fuel0 + size t + 1 <= fuel)%nat ->
  exists s', delete fuel k s = Ok tt s' /\ represents s' t'.
Proof.
  intros Hs Hnn Hdel Hb' Hfuel. unfold delete, delete_tree in *.
  destruct s as [h rt tr].
  rewrite (bind_Ok _ _ _ _ _ (get_root_Ok h rt tr)).
  pose proof Hs as (Hroot & _ & _). simpl in Hroot.
  replace (search fuel rt k) with (search fuel (root_loc t) k)
    by (by rewrite Hroot).
  rewrite (bind_Ok _ _ _ _ _ (search_sim k _ t [] fuel Hs ltac:(lia))).
  destruct (find_key t k []) as [[c u]|] eqn:Hfind; cycle 1.
  { injection Hdel as <-. by eexists. }
  apply find_key_plug in Hfind as (Ht & d & i & l & r & -> & Hk).
  simpl in Ht. subst t. cbn beta iota delta [root_loc].
  step_with (get_at _ _ _ _ _ _ Hs).
  cbn beta iota delta [left right to_node].
  assert (Hwalk : forall c' u s1 p,
             represents s1 (plug c' u) ->
             heights_nonneg (plug c' u) ->
             (size (plug c' u) <= size (plug c (Node d i l r)))%nat ->
             walk fuel0 (plug c' u) p = Some t' ->
             exists s', _update fuel p s1 = Ok tt s' /\ represents s' t').
  { intros c' u s1 p Hs1 Hnn1 Hsz Hw.
    eapply (walk_sim fuel0 _ _ _ _ fuel Hw Hs1); [|done|lia].
    unfold bst. by rewrite <- (proj2 (walk_keeps _ _ _ _ Hw)). }
  destruct l as [|ln li ll lr].
  { (* no left child *)
    assert (Hdel' : walk fuel0 (plug c (only_child Leaf r)) (ctx_parent c)
                    = Some t') by (by destruct r).
    cbn beta iota delta [root_loc].
    step_with (ret_Ok d (mkState h rt tr)).
    destruct (splice_sim _ c d i Leaf r Hs) as (s1 & Hsp & Hs1); [by left|].
    step_with Hsp.
    apply (Hwalk c _ s1 _ Hs1); [| |done].
    - revert Hnn. apply heights_nonneg_plug_mono. simpl. tauto.
    - rewrite !size_locs, !locs_plug, !length_app. simpl. lia. }
  destruct r as [|rn ri rl rr].
  { (* no right child *)
    cbn beta iota delta [root_loc].
    step_with (ret_Ok d (mkState h rt tr)).
    destruct (splice_sim _ c d i (Node ln li ll lr) Leaf Hs)
      as (s1 & Hsp & Hs1); [by right|].
    step_with Hsp.
    apply (Hwalk c _ s1 _ Hs1); [| |done].
    - revert Hnn. apply heights_nonneg_plug_mono. simpl. tauto.
    - rewrite !size_locs, !locs_plug, !length_app. simpl.
      rewrite !length_app. simpl. lia. }
  (* two children *)
  set (l := Node ln li ll lr) in *. set (r := Node rn ri rl rr) in *.
  cbn beta iota delta [root_loc].
  assert (Hsr : represents (mkState h rt tr) (plug (InRight d i l :: c) r))
    by done.
  destruct (leftmost_sim _ r (InRight d i l :: c) rn fuel eq_refl Hsr)
    as (cy & u & y & Hlm & Hy & Hrun).
  { pose proof (length_ctx_lt (InRight d i l :: c) r ltac:(done)) as Hlt.
    assert (size r <= size (plug c (Node d i l r)))%nat.
    { rewrite !size_locs, locs_plug. simpl. rewrite !length_app. simpl.
      rewrite !length_app. simpl. lia. }
    lia. }
  rewrite leftmost_acc in Hlm.
  destruct (leftmost_ctx r []) as [[cy0 u0]|] eqn:Hlm0; [|done].
  injection Hlm as <- <-.
  apply leftmost_plug in Hlm0 as (Hr & (y' & yi & yr & ->) & _).
  simpl in Hr, Hy. injection Hy as ->.
  assert (Ht : plug c (Node d i l r)
               = plug (cy0 ++ InRight d i l :: c) (Node y yi Leaf yr)).
  { rewrite plug_app. simpl. by rewrite <- Hr. }
  assert (Hrun' :
    (let* y0 := leftmost fuel rn in
     let* yx := get y0 in
     modify d (with_payload (key yx) (count yx)) ;; ret y0)
      (mkState h rt tr)
    = (modify d (with_payload (ikey yi) (icount yi)) ;; ret y)
        (mkState h rt tr)).
  { step_with Hrun. rewrite Ht in Hs.
    by step_with (get_at _ _ _ _ _ _ Hs). }
  destruct (repayload_sim _ c d i l r (ikey yi) (icount yi) Hs)
    as (s1 & Hmod & Hs1).
  assert (Ht1 : plug c (Node d (repayload i (ikey yi) (icount yi)) l r)
                = plug (cy0 ++ InRight d (repayload i (ikey yi) (icount yi)) l :: c)
                       (Node y yi Leaf yr)).
  { rewrite plug_app. simpl. by rewrite <- Hr. }
  rewrite Ht1 in Hs1.
  destruct (splice_sim _ _ y yi Leaf yr Hs1) as (s2 & Hsp & Hs2); [by left|].
  change (root_loc l) with (Some ln). change (root_loc r) with (Some rn).
  cbn beta iota.
  erewrite bind_Ok; cycle 1.
  { rewrite Hrun'. step_with Hmod. apply ret_Ok. }
  step_with Hsp.
  apply (Hwalk _ _ s2 _ Hs2); [| |done].
  - assert (Hnn1 : heights_nonneg
                     (plug c (Node d (repayload i (ikey yi) (icount yi)) l r))).
    { revert Hnn. apply heights_nonneg_plug_mono. simpl. tauto. }
    rewrite Ht1 in Hnn1. revert Hnn1.
    apply heights_nonneg_plug_mono. simpl. tauto.
  - rewrite Ht. rewrite !size_locs, !locs_plug, !length_app, !ctx_locs_app.
    simpl. lia.
Qed.

(** ** Reachable nodes are the nodes of the held shape *)

Lemma node_at t n :
  n ∈ locs t -> exists c i l r, t = plug c (Node n i l r).
Proof.
  intros [[c u] Hf]%focus_elem. apply focus_plug in Hf as [-> Hr].
  destruct u as [|m i l r]; [done|]. injection Hr as ->. by exists c, i, l, r.
Qed.

Lemma locs_plug_hole c t x : x ∈ locs t -> x ∈ locs (plug c t).
Proof. rewrite locs_plug. set_solver. Qed.

Lemma reachable_in s t n : represents s t -> reachable s n -> n ∈ locs t.
Proof.
  intros Hs H. induction H as [n Hr|p x n _ IH Hp Hl|p x n _ IH Hp Hr].
  - destruct Hs as (Hroot & _). rewrite Hroot in Hr. by apply root_loc_elem.
  - destruct (node_at _ _ IH) as (c & i & l & r & ->).
    destruct s as [h rt tr].
    pose proof (focus_lookup _ _ _ _ _ _ _ _ Hs) as (Hp' & _).
    simpl in Hp. rewrite Hp in Hp'. injection Hp' as ->. simpl in Hl.
    apply locs_plug_hole. simpl. apply root_loc_elem in Hl. set_solver.
  - destruct (node_at _ _ IH) as (c & i & l & r & ->).
    destruct s as [h rt tr].
    pose proof (focus_lookup _ _ _ _ _ _ _ _ Hs) as (Hp' & _).
    simpl in Hp. rewrite Hp in Hp'. injection Hp' as ->. simpl in Hr.
    apply locs_plug_hole. simpl. apply root_loc_elem in Hr. set_solver.
Qed.

Lemma exact_plug_inv c t : exact (plug c t) -> exact t.
Proof.
  revert t. induction c as [|f c IH]; intros t; simpl; [done|].
  intros H. apply IH in H. destruct f; simpl in H; tauto.
Qed.

Lemma balanced_plug_inv c t : balanced (plug c t) -> balanced t.
Proof.
  revert t. induction c as [|f c IH]; intros t; simpl; [done|].
  intros H. apply IH in H. destruct f; simpl in H; tauto.
Qed.

Lemma exact_bookkeeping s t n :
  represents s t -> exact t -> n ∈ locs t -> bookkeeping_current s n.
Proof.
  intros Hs He Hn. destruct (node_at _ _ Hn) as (c & i & l & r & ->).
  destruct s as [h rt tr].
  pose proof (focus_lookup _ _ _ _ _ _ _ _ Hs) as (Hx & Hlh & Hrh & Hlw & Hrw).
  apply exact_plug_inv in He as (Hh & Hw & Hl & Hr).
  exists (to_node (ctx_parent c) i l r), (sheight l), (sheight r),
         (sweight l), (sweight r).
  simpl. split_and!; try done.
  - by rewrite !exact_sheight.
  - by rewrite !exact_sweight.
Qed.


(** ** [is_balanced] on a held shape *)

Lemma is_balanced_sim s t :
  forall c n fuel,
    root_loc t = Some n -> represents s (plug c t) ->
    (size t <= fuel)%nat ->
    is_balanced fuel (Some n) s = Ok (none_heavy t) s.
Proof.
  induction t as [|m i l IHl r IHr]; intros c n fuel Hroot Hs Hfuel; [done|].
  injection Hroot as ->. destruct fuel as [|fuel]; [simpl in Hfuel; lia|].
  simpl in Hfuel. simpl is_balanced.
  step_with (ret_Ok (Some n) s). unfold deref. step_with (ret_Ok n s).
  step_with (is_heavy_at _ _ _ _ _ _ Hs).
  step_with (get_at _ _ _ _ _ _ Hs).
  cbn beta iota delta [left right to_node].
  change (none_heavy (Node n i l r))
    with (negb (Z.abs (sheight l - sheight r) >? 1)
          && none_heavy l && none_heavy r).
  destruct (Z.abs (sheight l - sheight r) >? 1); simpl negb.
  { step_with (ret_Ok false s). step_with (get_at _ _ _ _ _ _ Hs).
    by step_with (ret_Ok false s). }
  assert (Hl : (match root_loc l with
                | Some l0 => is_balanced fuel (Some l0)
                | None => ret true
                end) s = Ok (none_heavy l) s).
  { destruct l as [|ln li ll lr]; [done|].
    apply (IHl (InLeft n i r :: c)); [done|done|simpl in *; lia]. }
  cbn beta iota.
  step_with Hl. step_with (get_at _ _ _ _ _ _ Hs).
  cbn beta iota delta [left right to_node].
  destruct (none_heavy l); cbn beta iota delta [andb].
  - assert (Hr : (match root_loc r with
                  | Some r0 => is_balanced fuel (Some r0)
                  | None => ret true
                  end) s = Ok (none_heavy r) s).
    { destruct r as [|rn ri rl rr]; [done|].
      apply (IHr (InRight n i l :: c)); [done|done|simpl in *; lia]. }
    by step_with Hr.
  - by step_with (ret_Ok false s).
Qed.


(** ** Runs of operations *)

Lemma run_op_keeps_avl s t o fuel :
  represents s t -> avl t ->
  (fuel_for (S (size t)) <= fuel)%nat ->
  exists s' t',
    run_op fuel o s = Ok tt s' /\ represents s' t' /\ avl t' /\
    (size t' <= S (size t))%nat.
Proof.
  intros Hs Havl Hfuel. pose proof Hs as (_ & _ & Hnd).
  pose proof Havl as (Hb & He & _). unfold fuel_for in Hfuel.
  destruct o as [k|k]; simpl.
  - destruct (insert_tree_avl ((size t + 1) * (size t + 3))
                (fresh (dom (heap s))) k t Havl Hnd)
      as (t' & Hins & Havl' & Hnd' & Hlocs & _); [by eapply fresh_not_in|lia|].
    destruct (insert_sim s t k fuel _ t' Hs Hb (exact_heights_nonneg _ He) Hins)
      as (s' & Hrun & Hs'); [nia|].
    exists s', t'. split_and!; try done.
    rewrite !size_locs.
    assert (Hincl : locs t' ⊆ fresh (dom (heap s)) :: locs t).
    { intros x Hx. apply Hlocs in Hx. set_solver. }
    apply (submseteq_length (locs t') (fresh (dom (heap s)) :: locs t)).
    by apply NoDup_submseteq.
  - destruct (delete_tree_avl (size t * (size t + 2)) k t Havl Hnd)
      as (t' & Hdel & Havl' & Hnd' & Hsz); [lia|].
    destruct (delete_sim s t k fuel _ t' Hs (exact_heights_nonneg _ He) Hdel)
      as (s' & Hrun & Hs'); [apply Havl'|nia|].
    exists s', t'. split_and!; try done. lia.
Qed.

Lemma fuel_for_mono n m : (n <= m)%nat -> (fuel_for n <= fuel_for m)%nat.
Proof. unfold fuel_for. nia. Qed.

Lemma run_ops_keep_avl ops :
  forall s t fuel,
    represents s t -> avl t ->
    (fuel_for (size t + length ops) <= fuel)%nat ->
    exists s' t',
      run_ops fuel ops s = Ok tt s' /\ represents s' t' /\ avl t' /\
      (size t' <= size t + length ops)%nat.
Proof.
  induction ops as [|o ops IH]; intros s t fuel Hs Havl Hfuel; simpl.
  - exists s, t. split_and!; try done. lia.
  - destruct (run_op_keeps_avl s t o fuel Hs Havl)
      as (s1 & t1 & Hrun & Hs1 & Havl1 & Hsz).
    { etrans; [|exact Hfuel]. apply fuel_for_mono. simpl. lia. }
    step_with Hrun.
    destruct (IH s1 t1 fuel Hs1 Havl1) as (s2 & t2 & Hrun2 & Hs2 & Havl2 & Hsz2).
    { etrans; [|exact Hfuel]. apply fuel_for_mono. simpl. lia. }
    exists s2, t2. split_and!; try done. simpl. lia.
Qed.

Lemma represents_empty : represents empty_tree Leaf.
Proof. split_and!; simpl; try done. constructor. Qed.

Lemma avl_Leaf : avl Leaf.
Proof. split_and!; simpl; try done. constructor. Qed.

(** ** What a method may change *)

Section Frame.
Variable P : loc -> node -> node -> Prop.
Hypothesis P_refl : forall m x, P m x x.
Hypothesis P_trans : forall m x y z, P m x y -> P m y z -> P m x z.

Lemma changes_only_refl s : changes_only P s s.
Proof. intros m x H. by exists x. Qed.

Lemma changes_only_same s s' :
  heap s' = heap s -> changes_only P s s'.
Proof. intros E m x H. exists x. by rewrite E. Qed.

Lemma changes_only_trans s1 s2 s3 :
  changes_only P s1 s2 -> changes_only P s2 s3 -> changes_only P s1 s3.
Proof.
  intros H12 H23 m x H. destruct (H12 m x H) as (y & Hy & Hxy).
  destruct (H23 m y Hy) as (z & Hz & Hyz). exists z. eauto.
Qed.

Lemma safe_ret {A} (a : A) : safe P (ret a).
Proof. intros s b s' [= _ <-]. apply changes_only_refl. Qed.

Lemma safe_bind {A B} (m : M A) (k : A -> M B) :
  safe P m -> (forall a, safe P (k a)) -> safe P (bind m k).
Proof.
  intros Hm Hk s b s' H. apply bind_Ok_inv in H as (a & s1 & H1 & H2).
  eapply changes_only_trans; [by eapply Hm|by eapply Hk].
Qed.

Lemma safe_get n : safe P (get n).
Proof.
  intros s x s' H. apply get_Ok_inv in H as [_ ->].
  apply changes_only_refl.
Qed.

Lemma safe_emit e : safe P (emit e).
Proof. intros s u s' H. injection H as _ <-. by apply changes_only_same. Qed.

Lemma safe_set_root o : safe P (set_root o).
Proof. intros s u s' H. injection H as _ <-. by apply changes_only_same. Qed.

Lemma safe_modify k f : (forall x, P k x (f x)) -> safe P (modify k f).
Proof.
  intros Hf s u s' H. apply modify_Ok_inv in H as (x & Hx & ->).
  intros m y Hm. simpl. destruct (decide (k = m)) as [->|Hne].
  - rewrite lookup_insert_eq. rewrite Hx in Hm. injection Hm as ->.
    by exists (f y).
  - rewrite lookup_insert_ne by done. by exists y.
Qed.

Lemma safe_set_parent k p :
  (forall x, P k x (with_parent p x)) -> safe P (set_parent k p).
Proof. apply safe_modify. Qed.

Lemma safe_set_left k c :
  (forall x, P k x (with_left c x)) ->
  (forall c' x, c = Some c' -> P c' x (with_parent (Some k) x)) ->
  safe P (set_left k c).
Proof.
  intros Hk Hc. apply safe_bind; [by apply safe_modify|]. intros _.
  destruct c as [c'|]; [|apply safe_ret].
  apply safe_set_parent. intros x. by apply Hc.
Qed.

Lemma safe_set_right k c :
  (forall x, P k x (with_right c x)) ->
  (forall c' x, c = Some c' -> P c' x (with_parent (Some k) x)) ->
  safe P (set_right k c).
Proof.
  intros Hk Hc. apply safe_bind; [by apply safe_modify|]. intros _.
  destruct c as [c'|]; [|apply safe_ret].
  apply safe_set_parent. intros x. by apply Hc.
Qed.

Lemma safe_reader {A} (m : M A) :
  (forall s a s', m s = Ok a s' -> s' = s) -> safe P m.
Proof. intros H s a s' E. apply H in E as ->. apply changes_only_refl. Qed.

Lemma child_reader (sel : node -> option loc) (f : node -> Z) (d : Z) n :
  safe P (let* x := get n in
          match sel x with
          | Some l => let* y := get l in ret (f y)
          | None => ret d
          end).
Proof.
  apply safe_bind; [apply safe_get|]. intros x.
  destruct (sel x); [|apply safe_ret].
  apply safe_bind; [apply safe_get|]. intros y. apply safe_ret.
Qed.

Lemma safe_update k :
  (forall x w, P k x (with_weight w x)) ->
  (forall x h, P k x (with_height h x)) ->
  safe P (update k).
Proof.
  intros Hw Hh. unfold update.
  apply safe_bind; [apply safe_get|]. intros x.
  apply safe_bind; [apply child_reader|]. intros lw.
  apply safe_bind; [apply child_reader|]. intros rw.
  apply safe_bind; [by apply safe_modify|]. intros _.
  apply safe_bind; [apply child_reader|]. intros lh.
  apply safe_bind; [apply child_reader|]. intros rh.
  by apply safe_modify.
Qed.

Lemma safe_add_child p c :
  (forall x o, P p x (with_left o x)) ->
  (forall x o, P p x (with_right o x)) ->
  (forall x, P c x (with_parent (Some p) x)) ->
  safe P (add_child p c).
Proof.
  intros Hl Hr Hc. unfold add_child.
  apply safe_bind; [apply safe_get|]. intros px.
  apply safe_bind; [apply safe_get|]. intros cx.
  destruct (key cx <? key px).
  - apply safe_set_left; [done|]. by intros c' x [= <-].
  - apply safe_set_right; [done|]. by intros c' x [= <-].
Qed.
End Frame.

Lemma rotation_effect_refl n hc p0 mc m x : rotation_effect n hc p0 mc m x x.
Proof. by repeat split. Qed.

Lemma rotation_effect_trans n hc p0 mc m x y z :
  rotation_effect n hc p0 mc m x y -> rotation_effect n hc p0 mc m y z ->
  rotation_effect n hc p0 mc m x z.
Proof.
  intros (? & ? & H1 & H2 & H3) (? & ? & H1' & H2' & H3').
  split_and!; try congruence.
  - intros ? ?. destruct H1, H1'; try done. split; congruence.
  - intros ? ? ?. destruct H2, H2'; try done. split; congruence.
  - intros ? ? ? ?. rewrite H3', H3; done.
Qed.

Lemma rotate_steps_eq n hc s :
  _rotate_left n (Some hc) s = rotate_steps SideLeft n hc s /\
  _rotate_right n (Some hc) s = rotate_steps SideRight n hc s.
Proof.
  split; unfold _rotate_left, _rotate_right, rotate_steps, bind; simpl;
    destruct (get n s); reflexivity.
Qed.

Lemma rotate_steps_frame d n hc s s' xn xh :
  heap s !! n = Some xn -> heap s !! hc = Some xh ->
  rotate_steps d n hc s = Ok tt s' ->
  changes_only (rotation_effect n hc (parent xn) (child d xh)) s s'.
Proof.
  intros Hn Hhc H. unfold rotate_steps in H.
  apply bind_Ok_inv in H as (x & s1 & H1 & H).
  apply get_Ok_inv in H1 as [Hn' ->]. rewrite Hn in Hn'. injection Hn' as <-.
  apply bind_Ok_inv in H as ([] & s1 & H1 & H).
  injection H1 as <-.
  apply bind_Ok_inv in H as (hx & s1 & H1 & H).
  apply get_Ok_inv in H1 as [Hhc' ->]. simpl in Hhc'.
  rewrite Hhc in Hhc'. injection Hhc' as <-.
  set (P := rotation_effect n hc (parent xn) (child d xh)).
  assert (Hrefl : forall m x, P m x x) by apply rotation_effect_refl.
  assert (Htrans : forall m x y z, P m x y -> P m y z -> P m x z)
    by apply rotation_effect_trans.
  eapply (changes_only_trans P Htrans _ (mkState (heap s) (root s) (trace s ++ [rotation_event d n hc]))).
  { by apply changes_only_same. }
  revert H. generalize (mkState (heap s) (root s) (trace s ++ [rotation_event d n hc])).
  intros s0 H.
  cut (safe P
    (set_child (opposite d) n (child d xh);;
     update n;; set_parent hc (parent xn);; set_child d hc (Some n);;
     update hc;;
     match parent xn with
     | Some p => add_child p hc
     | None => set_root (Some hc)
     end)); [intros Hs; exact (Hs _ _ _ H)|]. clear H.
  assert (Hat_n : forall x y, key y = key x -> count y = count x -> P n x y).
  { intros x y ? ?. split_and!; try done. }
  assert (Hat_hc : forall x y, key y = key x -> count y = count x -> P hc x y).
  { intros x y ? ?. split_and!; try done. }
  assert (Hat_mc : forall c x p, child d xh = Some c -> P c x (with_parent p x)).
  { intros c x p Hc. split_and!; try done; intros; congruence. }
  assert (Hat_p : forall p x y, parent xn = Some p ->
                    key y = key x -> count y = count x ->
                    weight y = weight x -> height y = height x -> P p x y).
  { intros p x y Hp ? ? ? ?. split_and!; try done; intros; congruence. }
  apply safe_bind; try assumption; [|intros []; cbv beta].
  { destruct d; simpl;
      [apply safe_set_right|apply safe_set_left]; try done;
      try (intros; by apply Hat_n); intros; by eapply Hat_mc. }
  apply safe_bind; try assumption; [|intros []; cbv beta].
  { apply safe_update; try done; intros; by apply Hat_n. }
  apply safe_bind; try assumption; [|intros []; cbv beta].
  { apply safe_set_parent; try done; intros; by apply Hat_hc. }
  apply safe_bind; try assumption; [|intros []; cbv beta].
  { destruct d; simpl;
      [apply safe_set_left|apply safe_set_right]; try done;
      try (intros; by apply Hat_hc); intros c' x [= <-]; by apply Hat_n. }
  apply safe_bind; try assumption; [|intros []; cbv beta].
  { apply safe_update; try done; intros; by apply Hat_hc. }
  destruct (parent xn) as [p|] eqn:Hp.
  - apply safe_add_child; try done;
      try (intros; by apply (Hat_p p)); intros; by apply Hat_hc.
  - by apply safe_set_root.
Qed.

(** ** The tree after any run of operations *)

Lemma operations_keep_avl (ops : list op) (fuel : nat) :
  (fuel_for (length ops) <= fuel)%nat ->
  exists s t,
    run_ops fuel ops empty_tree = Ok tt s /\ represents s t /\ avl t /\
    (size t <= length ops)%nat.
Proof.
  intros Hfuel.
  apply (run_ops_keep_avl ops empty_tree Leaf fuel);
    [apply represents_empty|apply avl_Leaf|done].
Qed.



(** C1: the code breaks the property on a tree that was emptied.  After
    inserting 1 and deleting it again no node is left, so every reachable
    node is balanced, yet [is_balanced(root)] falls back to the absent root,
    dereferences it and raises where its docstring promises an answer. *)
Lemma is_balanced_of_emptied_tree_raises :
  exists s,
    run_ops 24 [Insert 1; Delete 1] empty_tree = Ok tt s /\
    root s = None /\
    is_balanced 24 (root s) s = Err AttributeError.
Proof. eexists. split_and!; [vm_compute; reflexivity|reflexivity|reflexivity]. Qed.

(** C4: after any sequence of inserts and deletes on an empty tree, the
    store holds a tree whose stored heights and weights are the ones a
    recomputation from the leaves gives ([exact]), and at every node
    reachable from the root the height is one more than the larger child
    height (-1 for an absent child) and the weight is the count plus the
    child weights (0 for an absent child). *)
Theorem operations_keep_bookkeeping (ops : list op) (fuel : nat) :
  (fuel_for (length ops) <= fuel)%nat ->
  exists s t,
    run_ops fuel ops empty_tree = Ok tt s /\
    represents s t /\ exact t /\
    (forall n, reachable s n -> bookkeeping_current s n).
Proof.
  intros Hfuel.
  destruct (operations_keep_avl ops fuel Hfuel) as (s & t & Hrun & Hs & Havl & Hsz).
  destruct Havl as (_ & He & _).
  exists s, t. split_and!; [done..|].
  intros n Hn. eapply exact_bookkeeping; [done..|]. by eapply reachable_in.
Qed.

Lemma operations_keep_bookkeeping_witness :
  (fuel_for (length [Insert 30; Insert 10; Delete 30; Insert 20]) <= 48)%nat /\
  exists s t,
    run_ops 48 [Insert 30; Insert 10; Delete 30; Insert 20] empty_tree = Ok tt s /\
    represents s t /\ exact t /\
    (forall n, reachable s n -> bookkeeping_current s n).
Proof.
  split; [vm_compute; lia|].
  apply (operations_keep_bookkeeping [Insert 30; Insert 10; Delete 30; Insert 20] 48).
  vm_compute; lia.
Defined.

(** ** One call of [_balance] *)

Lemma left_chain_represents : represents left_chain left_chain_shape.
Proof.
  split_and!; [done| |].
  - simpl. split_and!; done.
  - simpl. repeat constructor; set_solver.
Qed.

Lemma left_chain_bst : bst left_chain_shape.
Proof. unfold bst. simpl. repeat constructor; lia. Qed.

Lemma left_chain_exact : exact left_chain_shape.
Proof. simpl. split_and!; done. Qed.

Lemma balance_runs s t n fuel :
  represents s t -> bst t -> heights_nonneg t ->
  n ∈ locs t -> (size t <= fuel)%nat ->
  exists s' t',
    _balance fuel n s = Ok tt s' /\ represents s' t' /\
    keys t' = keys t /\ bst t'.
Proof.
  intros Hs Hbst Hnn Hn Hfuel.
  destruct (focus_elem _ _ Hn) as [[c u] Hf].
  apply focus_plug in Hf as [-> Hroot].
  destruct (balance_sim c u n s fuel Hroot Hs Hbst Hnn) as (s' & Hrun & Hs').
  { assert (u <> Leaf) by (by destruct u).
    pose proof (length_ctx_lt c u ltac:(done)). lia. }
  exists s', (balance_up c u). split_and!; [done..| |].
  - apply balance_up_keys.
  - unfold bst. by rewrite balance_up_keys.
Qed.

(** C5: a call of [_balance] at a node of a search tree leaves a search
    tree with the same keys in the same order, so the same multiset of
    keys, still strictly increasing in order. *)
Theorem balance_keeps_keys (s : tree_state) (t : tree) (n : loc) (fuel : nat) :
  represents s t -> bst t -> heights_nonneg t ->
  n ∈ locs t -> (size t <= fuel)%nat ->
  exists s' t',
    _balance fuel n s = Ok tt s' /\ represents s' t' /\
    keys t' = keys t /\ StronglySorted Z.lt (keys t').
Proof.
  intros Hs Hbst Hnn Hn Hfuel.
  destruct (balance_runs s t n fuel Hs Hbst Hnn Hn Hfuel)
    as (s' & t' & ? & ? & ? & ?).
  by exists s', t'.
Qed.

Lemma balance_keeps_keys_witness :
  represents left_chain left_chain_shape /\ bst left_chain_shape /\
  heights_nonneg left_chain_shape /\
  2%positive ∈ locs left_chain_shape /\ (size left_chain_shape <= 3)%nat /\
  exists s' t',
    _balance 3 2%positive left_chain = Ok tt s' /\ represents s' t' /\
    keys t' = keys left_chain_shape /\ StronglySorted Z.lt (keys t').
Proof.
  assert (H1 := left_chain_represents). assert (H2 := left_chain_bst).
  assert (H3 : heights_nonneg left_chain_shape)
    by (apply exact_heights_nonneg, left_chain_exact).
  assert (H4 : 2%positive ∈ locs left_chain_shape) by (simpl; set_solver).
  assert (H5 : (size left_chain_shape <= 3)%nat) by (simpl; lia).
  split_and!; try done.
  exact (balance_keeps_keys left_chain left_chain_shape 2%positive 3 H1 H2 H3 H4 H5).
Defined.

(** C9: when every stored height is the height of its subtree, a node that
    reports left-heavy has a left child and one that reports right-heavy has
    a right child, and a call of [_balance] at any node of the tree runs to
    its end: no dereference in it meets an absent child. *)
Theorem balance_never_fails (s : tree_state) (t : tree) (n : loc) (fuel : nat) :
  represents s t -> bst t -> exact t ->
  n ∈ locs t -> (size t <= fuel)%nat ->
  (is_left_heavy n 1 s = Ok true s ->
   exists x l, heap s !! n = Some x /\ left x = Some l) /\
  (is_right_heavy n 1 s = Ok true s ->
   exists x r, heap s !! n = Some x /\ right x = Some r) /\
  exists s', _balance fuel n s = Ok tt s'.
Proof.
  intros Hs Hbst He Hn Hfuel.
  assert (Hnn := exact_heights_nonneg t He).
  split_and!.
  - destruct (node_at _ _ Hn) as (c & i & l & r & ->). intros Hh.
    rewrite (is_left_heavy_at _ _ _ _ _ _ 1 Hs) in Hh.
    apply heights_nonneg_plug_inv in Hnn as (_ & Hl & Hr).
    apply sheight_nonneg in Hr.
    destruct s as [h rt tr].
    pose proof (focus_lookup _ _ _ _ _ _ _ _ Hs) as (Hx & _).
    destruct l as [|ln li ll lr]; simpl in Hh.
    { destruct (Z.gtb_spec (-1 - sheight r) 1); [lia|congruence]. }
    eexists _, ln. split; [exact Hx|done].
  - destruct (node_at _ _ Hn) as (c & i & l & r & ->). intros Hh.
    rewrite (is_right_heavy_at _ _ _ _ _ _ 1 Hs) in Hh.
    apply heights_nonneg_plug_inv in Hnn as (_ & Hl & Hr).
    apply sheight_nonneg in Hl.
    destruct s as [h rt tr].
    pose proof (focus_lookup _ _ _ _ _ _ _ _ Hs) as (Hx & _).
    destruct r as [|rn ri rl rr]; simpl in Hh.
    { destruct (Z.gtb_spec (-1 - sheight l) 1); [lia|congruence]. }
    eexists _, rn. split; [exact Hx|done].
  - destruct (balance_runs s t n fuel Hs Hbst Hnn Hn Hfuel) as (s' & _ & ? & _).
    by exists s'.
Qed.

Lemma balance_never_fails_witness :
  represents left_chain left_chain_shape /\ bst left_chain_shape /\
  exact left_chain_shape /\
  1%positive ∈ locs left_chain_shape /\ (size left_chain_shape <= 3)%nat /\
  (is_left_heavy 1%positive 1 left_chain = Ok true left_chain ->
   exists x l, heap left_chain !! 1%positive = Some x /\ left x = Some l) /\
  (is_right_heavy 1%positive 1 left_chain = Ok true left_chain ->
   exists x r, heap left_chain !! 1%positive = Some x /\ right x = Some r) /\
  exists s', _balance 3 1%positive left_chain = Ok tt s'.
Proof.
  assert (H1 := left_chain_represents). assert (H2 := left_chain_bst).
  assert (H3 := left_chain_exact).
  assert (H4 : 1%positive ∈ locs left_chain_shape) by (simpl; set_solver).
  assert (H5 : (size left_chain_shape <= 3)%nat) by (simpl; lia).
  split_and!; try done;
    apply (balance_never_fails left_chain left_chain_shape 1%positive 3 H1 H2 H3 H4 H5).
Defined.

(** ** Reads do not depend on the trace *)

Lemma get_any_trace h rt tr rt' tr' n x :
  get n (mkState h rt tr) = Ok x (mkState h rt tr) ->
  get n (mkState h rt' tr') = Ok x (mkState h rt' tr').
Proof. intros [H _]%get_Ok_inv. by apply get_Ok. Qed.

Lemma left_height_any_trace h rt tr rt' tr' n v :
  left_height n (mkState h rt tr) = Ok v (mkState h rt tr) ->
  left_height n (mkState h rt' tr') = Ok v (mkState h rt' tr').
Proof.
  unfold left_height, bind, get, ret. simpl.
  destruct (h !! n) as [x|]; [|done].
  destruct (left x) as [l|]; cbn [heap]; [destruct (h !! l)|];
    intros H; by inversion H.
Qed.

Lemma right_height_any_trace h rt tr rt' tr' n v :
  right_height n (mkState h rt tr) = Ok v (mkState h rt tr) ->
  right_height n (mkState h rt' tr') = Ok v (mkState h rt' tr').
Proof.
  unfold right_height, bind, get, ret. simpl.
  destruct (h !! n) as [x|]; [|done].
  destruct (right x) as [l|]; cbn [heap]; [destruct (h !! l)|];
    intros H; by inversion H.
Qed.

Lemma left_height_same_state n s v s' : left_height n s = Ok v s' -> s' = s.
Proof.
  unfold left_height, bind, get, ret.
  destruct (heap s !! n) as [x|]; [|done].
  destruct (left x) as [l|]; [destruct (heap s !! l)|]; by intros [= _ <-].
Qed.

Lemma right_height_same_state n s v s' : right_height n s = Ok v s' -> s' = s.
Proof.
  unfold right_height, bind, get, ret.
  destruct (heap s !! n) as [x|]; [|done].
  destruct (right x) as [l|]; [destruct (heap s !! l)|]; by intros [= _ <-].
Qed.

Lemma is_left_heavy_any_trace h rt tr rt' tr' n d b :
  is_left_heavy n d (mkState h rt tr) = Ok b (mkState h rt tr) ->
  is_left_heavy n d (mkState h rt' tr') = Ok b (mkState h rt' tr').
Proof.
  unfold is_left_heavy. intros H.
  apply bind_Ok_inv in H as (lh & s1 & H1 & H).
  pose proof (left_height_same_state _ _ _ _ H1) as ->.
  apply bind_Ok_inv in H as (rh & s1 & H2 & H).
  pose proof (right_height_same_state _ _ _ _ H2) as ->.
  injection H as <-.
  rewrite (bind_Ok _ _ _ _ _ (left_height_any_trace _ _ _ rt' tr' _ _ H1)).
  by rewrite (bind_Ok _ _ _ _ _ (right_height_any_trace _ _ _ rt' tr' _ _ H2)).
Qed.

Lemma is_right_heavy_any_trace h rt tr rt' tr' n d b :
  is_right_heavy n d (mkState h rt tr) = Ok b (mkState h rt tr) ->
  is_right_heavy n d (mkState h rt' tr') = Ok b (mkState h rt' tr').
Proof.
  unfold is_right_heavy. intros H.
  apply bind_Ok_inv in H as (rh & s1 & H1 & H).
  pose proof (right_height_same_state _ _ _ _ H1) as ->.
  apply bind_Ok_inv in H as (lh & s1 & H2 & H).
  pose proof (left_height_same_state _ _ _ _ H2) as ->.
  injection H as <-.
  rewrite (bind_Ok _ _ _ _ _ (right_height_any_trace _ _ _ rt' tr' _ _ H1)).
  by rewrite (bind_Ok _ _ _ _ _ (left_height_any_trace _ _ _ rt' tr' _ _ H2)).
Qed.

Lemma bind_assoc {A B C} (m : M A) (k : A -> M B) (k' : B -> M C) s :
  bind (bind m k) k' s = bind m (fun a => bind (k a) k') s.
Proof. unfold bind. by destruct (m s). Qed.

(** ** The rotations of one call, on a held tree *)

Lemma rotations_at_trace s c n i l r :
  let t := Node n i l r in
  represents s (plug c t) -> bst (plug c t) -> heights_nonneg (plug c t) ->
  exists s',
    rotations_at n s = Ok tt s' /\
    represents s' (plug c (balance_node t)) /\
    trace s' = trace s ++ balance_events t /\
    (balance_events t = [] -> s' = s).
Proof.
  intros t Hs Hbst Hnn. subst t.
  pose proof (heights_nonneg_plug_inv _ _ Hnn) as (Hi & Hl & Hr).
  unfold rotations_at, balance_node, balance_events.
  step_with (is_left_heavy_at _ _ _ _ _ _ 1 Hs).
  destruct (sheight l - sheight r >? 1) eqn:Hlh.
  - (* left-heavy *)
    step_with (get_left_at _ _ _ _ _ _ Hs).
    destruct l as [|ln li ll lr].
    { apply sheight_nonneg in Hr. simpl in Hlh. lia. }
    simpl root_loc. unfold deref. step_with (ret_Ok ln s).
    assert (Hs' : represents s (plug (InLeft n i r :: c) (Node ln li ll lr))) by done.
    step_with (is_right_heavy_at _ _ _ _ _ _ 0 Hs').
    destruct (sheight lr - sheight ll >? 0) eqn:Hin.
    + destruct lr as [|lrn lri lrl lrr].
      { destruct Hl as (_ & Hll & _). apply sheight_nonneg in Hll.
        simpl in Hin. lia. }
      destruct (rotate_left_sim s (InLeft n i r :: c) ln li ll lrn lri lrl lrr)
        as (s1 & Hrun1 & Hs1 & Htr1); [done..|].
      assert (Hrun1' : (let* lr := get_right ln in _rotate_left ln lr) s
                       = Ok tt s1).
      { step_with (get_right_at _ _ _ _ _ _ Hs'). exact Hrun1. }
      step_with Hrun1'.
      simpl in Hs1.
      step_with (get_left_at _ _ _ _ _ _ Hs1).
      edestruct (rotate_right_sim s1 c n i lrn) as (s2 & Hrun2 & Hs2 & Htr2);
        [exact Hs1| |].
      { revert Hbst. apply bst_plug_keys. simpl.
        f_equal. by rewrite <- app_assoc. }
      exists s2. split_and!; [exact Hrun2|exact Hs2| |done].
      rewrite Htr2, Htr1, <- app_assoc. reflexivity.
    + step_with (ret_Ok tt s).
      step_with (get_left_at _ _ _ _ _ _ Hs).
      edestruct (rotate_right_sim s c n i ln) as (s2 & Hrun2 & Hs2 & Htr2);
        [exact Hs|done|].
      exists s2. split_and!; [exact Hrun2|exact Hs2|exact Htr2|done].
  - step_with (is_right_heavy_at _ _ _ _ _ _ 1 Hs).
    destruct (sheight r - sheight l >? 1) eqn:Hrh.
    + (* right-heavy *)
      step_with (get_right_at _ _ _ _ _ _ Hs).
      destruct r as [|rn ri rl rr].
      { apply sheight_nonneg in Hl. simpl in Hrh. lia. }
      simpl root_loc. unfold deref. step_with (ret_Ok rn s).
      assert (Hs' : represents s (plug (InRight n i l :: c) (Node rn ri rl rr))) by done.
      step_with (is_left_heavy_at _ _ _ _ _ _ 0 Hs').
      destruct (sheight rl - sheight rr >? 0) eqn:Hin.
      * destruct rl as [|rln rli rll rlr].
        { destruct Hr as (_ & _ & Hrr). apply sheight_nonneg in Hrr.
          simpl in Hin. lia. }
        destruct (rotate_right_sim s (InRight n i l :: c) rn ri rln rli rll rlr rr)
          as (s1 & Hrun1 & Hs1 & Htr1); [done..|].
        assert (Hrun1' : (let* rl := get_left rn in _rotate_right rn rl) s
                         = Ok tt s1).
        { step_with (get_left_at _ _ _ _ _ _ Hs'). exact Hrun1. }
        step_with Hrun1'.
        simpl in Hs1.
        step_with (get_right_at _ _ _ _ _ _ Hs1).
        edestruct (rotate_left_sim s1 c n i l rln) as (s2 & Hrun2 & Hs2 & Htr2);
          [exact Hs1| |].
        { revert Hbst. apply bst_plug_keys. simpl.
          do 2 f_equal. by rewrite <- app_assoc. }
        exists s2. split_and!; [exact Hrun2|exact Hs2| |done].
        rewrite Htr2, Htr1, <- app_assoc. reflexivity.
      * step_with (ret_Ok tt s).
        step_with (get_right_at _ _ _ _ _ _ Hs).
        edestruct (rotate_left_sim s c n i l rn) as (s2 & Hrun2 & Hs2 & Htr2);
          [exact Hs|done|].
        exists s2. split_and!; [exact Hrun2|exact Hs2|exact Htr2|done].
    + exists s. split_and!; [reflexivity|exact Hs|by rewrite app_nil_r|done].
Qed.

(** C2: what a call of [_balance] does at a node of a search tree the store
    holds, with stored heights that are heights of nodes.  It reads the two
    child heights [sheight l] and [sheight r]; then
    - left-heavy (the difference is above 1): the left child is there, and
      when that child is right-heavy by the strict test a left rotation is
      done at it, pulling its right child [x] up, and then a right rotation
      at the node pulls [x] up again; otherwise the one right rotation at
      the node pulls the left child up;
    - right-heavy: the mirror image;
    - otherwise no rotation is done and no object changes.
    The rotations are the ones recorded, in that order, and the store holds
    the rotated subtree in place of the old one.  In every case the call
    then goes on with [_balance] at the parent the node had on entry. *)
Theorem balance_rotates (fuel : nat) (s : tree_state) (c : list frame)
    (n : loc) (i : info) (l r : tree) :
  represents s (plug c (Node n i l r)) ->
  bst (plug c (Node n i l r)) ->
  heights_nonneg (plug c (Node n i l r)) ->
  exists s1 evs t',
    left_height n s = Ok (sheight l) s /\
    right_height n s = Ok (sheight r) s /\
    get_parent n s = Ok (ctx_parent c) s /\
    (observe_balance n ;; rotations_at n) s = Ok tt s1 /\
    trace s1 =
      trace s ++ EvBalance n (iheight i) (sheight l) (sheight r) :: evs /\
    represents s1 (plug c t') /\
    _balance (S fuel) n s = continue_at fuel (ctx_parent c) s1 /\
    ((length c <= fuel)%nat ->
     exists s2, _balance (S fuel) n s = Ok tt s2) /\
    (sheight l - sheight r > 1 -> left_heavy_outcome s n i l r evs t') /\
    (sheight r - sheight l > 1 -> right_heavy_outcome s n i l r evs t') /\
    (Z.abs (sheight l - sheight r) <= 1 ->
     evs = [] /\ t' = Node n i l r /\ heap s1 = heap s /\ root s1 = root s).
Proof.
  intros Hs Hbst Hnn.
  destruct (observe_balance_at _ _ _ _ _ _ Hs) as (s0 & Hobs & Hh & Hr & Htr).
  pose proof (represents_same _ _ _ Hh Hr Hs) as Hs0.
  destruct (rotations_at_trace _ _ _ _ _ _ Hs0 Hbst Hnn)
    as (s1 & Hrot & Hs1 & Htr1 & Hsame).
  exists s1, (balance_events (Node n i l r)), (balance_node (Node n i l r)).
  pose proof (heights_nonneg_plug_inv _ _ Hnn) as (Hi & Hl & Hrr).
  split_and!.
  - by eapply left_height_at.
  - by eapply right_height_at.
  - by eapply get_parent_at.
  - by rewrite (bind_Ok _ _ _ _ _ Hobs).
  - rewrite Htr1, Htr, <- app_assoc. reflexivity.
  - exact Hs1.
  - rewrite balance_unfold, (bind_Ok _ _ _ _ _ Hobs).
    rewrite (bind_Ok _ _ _ _ _ (get_parent_at _ _ _ _ _ _ Hs0)).
    by rewrite (bind_Ok _ _ _ _ _ Hrot).
  - intros Hfuel.
    destruct (balance_sim c (Node n i l r) n s (S fuel) eq_refl Hs Hbst Hnn)
      as (s2 & Hrun & _); [lia|]. by exists s2.
  - intros Hgt. unfold balance_events, balance_node.
    destruct (Z.gtb_spec (sheight l - sheight r) 1); [|lia].
    destruct l as [|ln li ll lr].
    { apply sheight_nonneg in Hrr. simpl in Hgt. lia. }
    assert (Hs' : represents s (plug (InLeft n i r :: c) (Node ln li ll lr))) by done.
    exists ln, li, ll, lr. split_and!; [done| | | |].
    + by eapply left_height_at.
    + by eapply right_height_at.
    + intros Hin. destruct (Z.gtb_spec (sheight lr - sheight ll) 0); [|lia].
      destruct lr as [|x xi xl xr].
      { destruct Hl as (_ & Hll & _). apply sheight_nonneg in Hll.
        simpl in Hin. lia. }
      by exists x, xi, xl, xr.
    + intros Hin. destruct (Z.gtb_spec (sheight lr - sheight ll) 0); [lia|done].
  - intros Hgt. unfold balance_events, balance_node.
    destruct (Z.gtb_spec (sheight l - sheight r) 1); [lia|].
    destruct (Z.gtb_spec (sheight r - sheight l) 1); [|lia].
    destruct r as [|rn ri rl rr].
    { apply sheight_nonneg in Hl. simpl in Hgt. lia. }
    assert (Hs' : represents s (plug (InRight n i l :: c) (Node rn ri rl rr))) by done.
    exists rn, ri, rl, rr. split_and!; [done| | | |].
    + by eapply left_height_at.
    + by eapply right_height_at.
    + intros Hin. destruct (Z.gtb_spec (sheight rl - sheight rr) 0); [|lia].
      destruct rl as [|x xi xl xr].
      { destruct Hrr as (_ & _ & Hr'). apply sheight_nonneg in Hr'.
        simpl in Hin. lia. }
      by exists x, xi, xl, xr.
    + intros Hin. destruct (Z.gtb_spec (sheight rl - sheight rr) 0); [lia|done].
  - intros Habs.
    assert (E : balance_events (Node n i l r) = []).
    { unfold balance_events.
      destruct (Z.gtb_spec (sheight l - sheight r) 1); [lia|].
      by destruct (Z.gtb_spec (sheight r - sheight l) 1); [lia|]. }
    assert (E' : balance_node (Node n i l r) = Node n i l r).
    { unfold balance_node.
      destruct (Z.gtb_spec (sheight l - sheight r) 1); [lia|].
      by destruct (Z.gtb_spec (sheight r - sheight l) 1); [lia|]. }
    rewrite (Hsame E). by rewrite E, E'.
Qed.

Lemma zigzag_represents : represents zigzag zigzag_shape.
Proof.
  split_and!; [done| |].
  - simpl. split_and!; done.
  - simpl. repeat constructor; set_solver.
Qed.

Lemma right_chain_represents : represents right_chain right_chain_shape.
Proof.
  split_and!; [done| |].
  - simpl. split_and!; done.
  - simpl. repeat constructor; set_solver.
Qed.

Lemma sorted_10_20_30 : StronglySorted Z.lt [10; 20; 30].
Proof. repeat constructor; lia. Qed.

Lemma balance_rotates_witness :
  (* the double rotation: 30 over 10 over 20 *)
  (represents zigzag (plug [] zigzag_shape) /\ bst (plug [] zigzag_shape) /\
   heights_nonneg (plug [] zigzag_shape) /\
   exists s1,
     (observe_balance 1%positive ;; rotations_at 1%positive) zigzag = Ok tt s1 /\
     trace s1 = [EvBalance 1%positive 2 1 (-1);
                 EvRotateLeft 2%positive 3%positive;
                 EvRotateRight 1%positive 3%positive] /\
     represents s1
       (Node 3%positive (mkInfo 20 1 3 1)
             (Node 2%positive (mkInfo 10 1 1 0) Leaf Leaf)
             (Node 1%positive (mkInfo 30 1 1 0) Leaf Leaf)) /\
     _balance 1 1%positive zigzag = continue_at 0 None s1) /\
  (* the mirror image, one rotation: the right chain 10, 20, 30 *)
  (represents right_chain (plug [] right_chain_shape) /\
   bst (plug [] right_chain_shape) /\
   heights_nonneg (plug [] right_chain_shape) /\
   exists s1,
     (observe_balance 1%positive ;; rotations_at 1%positive) right_chain
       = Ok tt s1 /\
     trace s1 = [EvBalance 1%positive 2 (-1) 1;
                 EvRotateLeft 1%positive 2%positive] /\
     represents s1
       (Node 2%positive (mkInfo 20 1 3 1)
             (Node 1%positive (mkInfo 10 1 1 0) Leaf Leaf)
             (Node 3%positive (mkInfo 30 1 1 0) Leaf Leaf)) /\
     _balance 1 1%positive right_chain = continue_at 0 None s1) /\
  (* no rotation, below the root: the node of 20 in the left chain *)
  (represents left_chain
     (plug [InLeft 1%positive (mkInfo 30 1 3 2) Leaf]
           (Node 2%positive (mkInfo 20 1 2 1)
                 (Node 3%positive (mkInfo 10 1 1 0) Leaf Leaf) Leaf)) /\
   bst left_chain_shape /\ heights_nonneg left_chain_shape /\
   exists s1,
     trace s1 = [EvBalance 2%positive 1 0 (-1)] /\
     heap s1 = heap left_chain /\ root s1 = root left_chain /\
     get_parent 2%positive left_chain = Ok (Some 1%positive) left_chain /\
     _balance 2 2%positive left_chain = _balance 1 1%positive s1).
Proof.
  assert (Hb : forall t, keys t = [10; 20; 30] -> bst t).
  { intros t E. unfold bst. rewrite E. exact sorted_10_20_30. }
  split_and!.
  - exact zigzag_represents.
  - by apply Hb.
  - simpl. split_and!; try done; lia.
  - destruct (balance_rotates 0 zigzag [] 1%positive (mkInfo 30 1 3 2)
                (Node 2%positive (mkInfo 10 1 2 1) Leaf
                      (Node 3%positive (mkInfo 20 1 1 0) Leaf Leaf))
                Leaf zigzag_represents (Hb zigzag_shape eq_refl)
                ltac:(simpl; split_and!; try done; lia))
      as (s1 & evs & t' & _ & _ & _ & Hrun & Htr & Hs1 & Hgo & _ & Hleft & _ & _).
    destruct (Hleft ltac:(simpl; lia))
      as (ln & li & ll & lr & El & _ & _ & Hdouble & _).
    injection El as <- <- <- <-.
    destruct (Hdouble ltac:(simpl; lia)) as (x & xi & xl & xr & Ex & -> & ->).
    injection Ex as <- <- <- <-.
    exists s1. split_and!; [exact Hrun|exact Htr|exact Hs1|exact Hgo].
  - exact right_chain_represents.
  - by apply Hb.
  - simpl. split_and!; try done; lia.
  - destruct (balance_rotates 0 right_chain [] 1%positive (mkInfo 10 1 3 2) Leaf
                (Node 2%positive (mkInfo 20 1 2 1) Leaf
                      (Node 3%positive (mkInfo 30 1 1 0) Leaf Leaf))
                right_chain_represents (Hb right_chain_shape eq_refl)
                ltac:(simpl; split_and!; try done; lia))
      as (s1 & evs & t' & _ & _ & _ & Hrun & Htr & Hs1 & Hgo & _ & _ & Hright & _).
    destruct (Hright ltac:(simpl; lia))
      as (rn & ri & rl & rr & Er & _ & _ & _ & Hsingle).
    injection Er as <- <- <- <-.
    destruct (Hsingle ltac:(simpl; lia)) as (-> & ->).
    exists s1. split_and!; [exact Hrun|exact Htr|exact Hs1|exact Hgo].
  - exact left_chain_represents.
  - by apply Hb.
  - simpl. split_and!; try done; lia.
  - destruct (balance_rotates 1 left_chain
                [InLeft 1%positive (mkInfo 30 1 3 2) Leaf] 2%positive
                (mkInfo 20 1 2 1)
                (Node 3%positive (mkInfo 10 1 1 0) Leaf Leaf) Leaf
                left_chain_represents (Hb left_chain_shape eq_refl)
                ltac:(simpl; split_and!; try done; lia))
      as (s1 & evs & t' & _ & _ & Hp & _ & Htr & _ & Hgo & _ & _ & _ & Hquiet).
    destruct (Hquiet ltac:(simpl; lia)) as (-> & _ & Hh & Hr).
    exists s1. split_and!; [exact Htr|exact Hh|exact Hr|exact Hp|exact Hgo].
Defined.

(** ** The two scenarios of three inserts *)

(** C6, as it holds: inserting 10, 20, 30 does one left rotation, at the
    node that holds 10, and leaves 20 at the root over the leaves 10 and 30,
    heights 1 and 0; inserting 30, 10, 20 leaves the same shape, by the
    left-right double rotation: left at the node that holds 10, then right
    at the node that holds 30. *)
Theorem three_inserts_rotate :
  (exists s,
     run_ops 35 [Insert 10; Insert 20; Insert 30] empty_tree = Ok tt s /\
     rotations (trace s) = [EvRotateLeft 1%positive 2%positive] /\
     represents s
       (Node 2%positive (mkInfo 20 1 3 1)
             (Node 1%positive (mkInfo 10 1 1 0) Leaf Leaf)
             (Node 3%positive (mkInfo 30 1 1 0) Leaf Leaf))) /\
  (exists s,
     run_ops 35 [Insert 30; Insert 10; Insert 20] empty_tree = Ok tt s /\
     rotations (trace s) = [EvRotateLeft 2%positive 3%positive;
                            EvRotateRight 1%positive 3%positive] /\
     left_right_double (rotations (trace s)) /\
     represents s
       (Node 3%positive (mkInfo 20 1 3 1)
             (Node 2%positive (mkInfo 10 1 1 0) Leaf Leaf)
             (Node 1%positive (mkInfo 30 1 1 0) Leaf Leaf))).
Proof.
  split.
  - eexists. split; [vm_compute; reflexivity|]. split; [reflexivity|].
    split_and!; [reflexivity|simpl; split_and!; reflexivity|].
    simpl. repeat constructor; set_solver.
  - eexists. split; [vm_compute; reflexivity|]. split; [reflexivity|].
    split; [by eexists _, _, _|].
    split_and!; [reflexivity|simpl; split_and!; reflexivity|].
    simpl. repeat constructor; set_solver.
Qed.

(** C6, as stated, fails in its second scenario: the rotations that
    inserting 30, 10, 20 performs are not a right-left double rotation. *)
Lemma insert_30_10_20_is_not_right_left :
  exists s,
    run_ops 35 [Insert 30; Insert 10; Insert 20] empty_tree = Ok tt s /\
    ~ right_left_double (rotations (trace s)).
Proof.
  eexists. split; [vm_compute; reflexivity|].
  intros (n & c & x & H). vm_compute in H. discriminate H.
Qed.

(** ** Heights when [_balance] inspects a node *)

(** C7, as it holds: the node the loop of [_update] hands to [_balance] has
    just been updated, so the height [_balance] finds stored there is one
    more than the larger of the child heights it reads. *)
Theorem loop_inspects_current (c : list frame) (n : loc) (i : info)
    (l r : tree) (s : tree_state) :
  represents s (plug c (Node n i l r)) ->
  exists s1 s2 ev,
    update n s = Ok tt s1 /\
    observe_balance n s1 = Ok tt s2 /\
    trace s2 = trace s ++ [ev] /\
    ev = EvBalance n (1 + Z.max (sheight l) (sheight r)) (sheight l) (sheight r) /\
    current_when_inspected ev /\
    forall fuel,
      _update (S fuel) (Some n) s =
        ((let* p0 := get_parent n in
          rotations_at n ;; continue_at fuel p0) ;;
         let* p := get_parent n in _update fuel p) s2.
Proof.
  intros Hs.
  destruct (update_sim s c n i l r Hs) as (s1 & Hup & Hs1 & Htr & _).
  unfold upd in Hs1.
  destruct (observe_balance_at _ _ _ _ _ _ Hs1) as (s2 & Hobs & _ & _ & Htr2).
  simpl in Htr2. rewrite Htr in Htr2.
  eexists s1, s2, _. split_and!; [done..| |].
  - reflexivity.
  - intros fuel. cbn [_update].
    rewrite (bind_Ok _ _ _ _ _ Hup).
    unfold bind at 1. rewrite balance_unfold.
    rewrite (bind_Ok _ _ _ _ _ Hobs). reflexivity.
Qed.

Lemma loop_inspects_current_witness :
  represents left_chain (plug [] left_chain_shape) /\
  exists s1 s2 ev,
    update 1%positive left_chain = Ok tt s1 /\
    observe_balance 1%positive s1 = Ok tt s2 /\
    trace s2 = trace left_chain ++ [ev] /\
    ev = EvBalance 1%positive (1 + Z.max 1 (-1)) 1 (-1) /\
    current_when_inspected ev /\
    forall fuel,
      _update (S fuel) (Some 1%positive) left_chain =
        ((let* p0 := get_parent 1%positive in
          rotations_at 1%positive ;; continue_at fuel p0) ;;
         let* p := get_parent 1%positive in _update fuel p) s2.
Proof.
  split; [exact left_chain_represents|].
  exact (loop_inspects_current [] 1%positive (mkInfo 30 1 3 2)
           (Node 2%positive (mkInfo 20 1 2 1)
                 (Node 3%positive (mkInfo 10 1 1 0) Leaf Leaf) Leaf)
           Leaf left_chain left_chain_represents).
Defined.

(** C7, as stated, fails for a node [_balance] reaches by its own
    recursion: when 20 is inserted under 10, [_balance] inspects the node of
    10 while it still stores height 0, with child heights -1 and 0. *)
Lemma recursion_inspects_stale_height :
  exists s,
    run_ops 24 [Insert 10; Insert 20] empty_tree = Ok tt s /\
    EvBalance 1%positive 0 (-1) 0 ∈ trace s /\
    ~ current_when_inspected (EvBalance 1%positive 0 (-1) 0).
Proof.
  eexists. split; [vm_compute; reflexivity|]. split.
  - do 2 apply list_elem_of_further. apply list_elem_of_here.
  - simpl. lia.
Qed.

(** ** What a rotation writes *)

(** C8, as it holds: a rotation keeps every key and count; it writes the
    height and weight of the rotated node and of the heavy child only; it
    writes child links of those two and of the original parent only; and
    besides these three the one object it writes is the child that moves
    across, whose parent link it sets. *)
Theorem rotation_frame (n hc : loc) (s s' : tree_state) (xn xh : node) :
  heap s !! n = Some xn -> heap s !! hc = Some xh ->
  (_rotate_left n (Some hc) s = Ok tt s' ->
   changes_only (rotation_effect n hc (parent xn) (left xh)) s s') /\
  (_rotate_right n (Some hc) s = Ok tt s' ->
   changes_only (rotation_effect n hc (parent xn) (right xh)) s s').
Proof.
  intros Hn Hhc. destruct (rotate_steps_eq n hc s) as [El Er]. split.
  - rewrite El. by apply (rotate_steps_frame SideLeft).
  - rewrite Er. by apply (rotate_steps_frame SideRight).
Qed.

Lemma rotation_frame_witness :
  heap four_nodes !! 2%positive
    = Some (mkNode 10 None (Some 4%positive) (Some 1%positive) 1 3 2) /\
  heap four_nodes !! 4%positive
    = Some (mkNode 30 (Some 3%positive) None (Some 2%positive) 1 2 1) /\
  forall s',
    (_rotate_left 2%positive (Some 4%positive) four_nodes = Ok tt s' ->
     changes_only
       (rotation_effect 2%positive 4%positive (Some 1%positive) (Some 3%positive))
       four_nodes s') /\
    (_rotate_right 2%positive (Some 4%positive) four_nodes = Ok tt s' ->
     changes_only
       (rotation_effect 2%positive 4%positive (Some 1%positive) None)
       four_nodes s').
Proof.
  split_and!; [reflexivity|reflexivity|]. intros s'.
  exact (rotation_frame 2%positive 4%positive four_nodes s'
           (mkNode 10 None (Some 4%positive) (Some 1%positive) 1 3 2)
           (mkNode 30 (Some 3%positive) None (Some 2%positive) 1 2 1)
           eq_refl eq_refl).
Defined.

(** C8, as stated, fails: the left rotation at the node of 10 in the chain
    5, 10, 30 with 20 under 30 changes link fields of four objects, the
    fourth being the node of 20 that moves across. *)
Lemma rotation_writes_four_link_fields :
  exists s',
    _rotate_left 2%positive (Some 4%positive) four_nodes = Ok tt s' /\
    links_changed four_nodes s' 1%positive /\
    links_changed four_nodes s' 2%positive /\
    links_changed four_nodes s' 4%positive /\
    links_changed four_nodes s' 3%positive.
Proof.
  eexists. split; [vm_compute; reflexivity|].
  split_and!; intros H; vm_compute in H; discriminate H.
Qed.

(** ** The height tests of a node *)

(** X1: a node is heavy exactly when it is left-heavy or right-heavy by the
    default difference; the three methods also fail together. *)
Theorem is_heavy_left_or_right (n : loc) (s : tree_state) :
  is_heavy n s =
    (let* l := is_left_heavy n 1 in
     let* r := is_right_heavy n 1 in
     ret (l || r)) s.
Proof.
  destruct (left_height n s) as [lh s1|e] eqn:El.
  2: { assert (Hl : is_left_heavy n 1 s = Err e).
       { unfold is_left_heavy. by rewrite (bind_Err _ _ _ _ El). }
       unfold is_heavy. by rewrite (bind_Err _ _ _ _ El), (bind_Err _ _ _ _ Hl). }
  pose proof (left_height_same_state _ _ _ _ El) as ->.
  destruct (right_height n s) as [rh s1|e] eqn:Er.
  2: { assert (Hl : is_left_heavy n 1 s = Err e).
       { unfold is_left_heavy.
         by rewrite (bind_Ok _ _ _ _ _ El), (bind_Err _ _ _ _ Er). }
       unfold is_heavy.
       by rewrite (bind_Ok _ _ _ _ _ El), (bind_Err _ _ _ _ Er),
         (bind_Err _ _ _ _ Hl). }
  pose proof (right_height_same_state _ _ _ _ Er) as ->.
  assert (Hl : is_left_heavy n 1 s = Ok (lh - rh >? 1) s).
  { unfold is_left_heavy.
    by rewrite (bind_Ok _ _ _ _ _ El), (bind_Ok _ _ _ _ _ Er). }
  assert (Hr : is_right_heavy n 1 s = Ok (rh - lh >? 1) s).
  { unfold is_right_heavy.
    by rewrite (bind_Ok _ _ _ _ _ Er), (bind_Ok _ _ _ _ _ El). }
  unfold is_heavy.
  rewrite (bind_Ok _ _ _ _ _ El), (bind_Ok _ _ _ _ _ Er),
    (bind_Ok _ _ _ _ _ Hl), (bind_Ok _ _ _ _ _ Hr).
  unfold ret. f_equal.
  destruct (Z.gtb_spec (Z.abs (lh - rh)) 1), (Z.gtb_spec (lh - rh) 1),
    (Z.gtb_spec (rh - lh) 1); simpl; try done; lia.
Qed.

(** X2: for a difference that is not negative, a node that is left-heavy is
    not right-heavy and one that is right-heavy is not left-heavy; and a node
    heavy to one side by [d] is heavy to that side by any smaller
    difference. *)
Theorem heavy_sides_exclude (n : loc) (d d' : Z) (s : tree_state) :
  0 <= d -> d' <= d ->
  (is_left_heavy n d s = Ok true s ->
   is_right_heavy n d s = Ok false s /\ is_left_heavy n d' s = Ok true s) /\
  (is_right_heavy n d s = Ok true s ->
   is_left_heavy n d s = Ok false s /\ is_right_heavy n d' s = Ok true s).
Proof.
  intros Hd Hd'. unfold is_left_heavy, is_right_heavy. split; intros H.
  - apply bind_Ok_inv in H as (lh & s1 & El & H).
    pose proof (left_height_same_state _ _ _ _ El) as ->.
    apply bind_Ok_inv in H as (rh & s1 & Er & H).
    pose proof (right_height_same_state _ _ _ _ Er) as ->.
    injection H as H.
    rewrite !(bind_Ok _ _ _ _ _ Er), !(bind_Ok _ _ _ _ _ El),
      !(bind_Ok _ _ _ _ _ Er).
    unfold ret. apply Z.gtb_lt in H.
    split; f_equal; [rewrite Z.gtb_ltb; apply Z.ltb_ge; lia|apply Z.gtb_lt; lia].
  - apply bind_Ok_inv in H as (rh & s1 & Er & H).
    pose proof (right_height_same_state _ _ _ _ Er) as ->.
    apply bind_Ok_inv in H as (lh & s1 & El & H).
    pose proof (left_height_same_state _ _ _ _ El) as ->.
    injection H as H.
    rewrite !(bind_Ok _ _ _ _ _ El), !(bind_Ok _ _ _ _ _ Er),
      !(bind_Ok _ _ _ _ _ El).
    unfold ret. apply Z.gtb_lt in H.
    split; f_equal; [rewrite Z.gtb_ltb; apply Z.ltb_ge; lia|apply Z.gtb_lt; lia].
Qed.

Lemma heavy_sides_exclude_witness :
  0 <= 1 /\ 0 <= 1 /\
  is_left_heavy 1%positive 1 left_chain = Ok true left_chain /\
  is_right_heavy 1%positive 1 left_chain = Ok false left_chain /\
  is_left_heavy 1%positive 0 left_chain = Ok true left_chain.
Proof.
  split_and!; [lia|lia|reflexivity|..];
    apply (proj1 (heavy_sides_exclude 1%positive 1 0 left_chain
                    ltac:(lia) ltac:(lia)) eq_refl).
Defined.

(** ** [is_balanced] *)

Lemma is_heavy_same_state n s b s' : is_heavy n s = Ok b s' -> s' = s.
Proof.
  unfold is_heavy. intros H.
  apply bind_Ok_inv in H as (lh & s1 & El & H).
  pose proof (left_height_same_state _ _ _ _ El) as ->.
  apply bind_Ok_inv in H as (rh & s1 & Er & H).
  pose proof (right_height_same_state _ _ _ _ Er) as ->.
  by injection H as _ <-.
Qed.

(** X3: [is_balanced] only reads: whatever store it is run on, with or
    without a node, when it returns the store is the one it was given. *)
Theorem is_balanced_reads_only (fuel : nat) (arg : option loc)
    (s s' : tree_state) (b : bool) :
  is_balanced fuel arg s = Ok b s' -> s' = s.
Proof.
  revert arg s s' b. induction fuel as [|fuel IH]; intros arg s s' b H; [done|].
  simpl in H.
  apply bind_Ok_inv in H as (start & s1 & H1 & H).
  assert (s1 = s) as ->.
  { destruct arg; by injection H1 as _ <-. }
  apply bind_Ok_inv in H as (n & s1 & H2 & H).
  assert (s1 = s) as ->.
  { destruct start; [by injection H2 as _ <-|done]. }
  apply bind_Ok_inv in H as (heavy & s1 & H3 & H).
  apply is_heavy_same_state in H3 as ->.
  apply bind_Ok_inv in H as (x & s1 & H4 & H).
  apply get_Ok_inv in H4 as [_ ->].
  apply bind_Ok_inv in H as (b1 & s1 & H5 & H).
  assert (s1 = s) as ->.
  { destruct (negb heavy), (left x); first [by eapply IH|by injection H5 as _ <-]. }
  apply bind_Ok_inv in H as (x' & s1 & H6 & H).
  apply get_Ok_inv in H6 as [_ ->].
  apply bind_Ok_inv in H as (b2 & s1 & H7 & H).
  assert (s1 = s) as ->.
  { destruct b1, (right x'); first [by eapply IH|by injection H7 as _ <-]. }
  by injection H as _ <-.
Qed.

Lemma is_balanced_reads_only_witness :
  is_balanced 3 None left_chain = Ok false left_chain /\
  left_chain = left_chain.
Proof.
  split; [reflexivity|].
  exact (is_balanced_reads_only 3 None left_chain left_chain false eq_refl).
Defined.

(** ** What [is_balanced] answers *)

Lemma not_heavy_at s c n i l r :
  represents s (plug c (Node n i l r)) ->
  not_heavy s n <-> Z.abs (sheight l - sheight r) <= 1.
Proof.
  intros Hs. pose proof (left_height_at _ _ _ _ _ _ Hs) as Hl.
  pose proof (right_height_at _ _ _ _ _ _ Hs) as Hr. split.
  - intros (lh & rh & Hl' & Hr' & H). congruence.
  - intros H. by exists (sheight l), (sheight r).
Qed.

Lemma none_heavy_not_heavy s t :
  forall c, represents s (plug c t) ->
    none_heavy t = true <-> forall m, m ∈ locs t -> not_heavy s m.
Proof.
  induction t as [|n i l IHl r IHr]; intros c Hs.
  { simpl. split; [|done]. intros _ m Hm. by apply elem_of_nil in Hm. }
  pose proof (not_heavy_at _ _ _ _ _ _ Hs) as Hn.
  specialize (IHl (InLeft n i r :: c) Hs).
  specialize (IHr (InRight n i l :: c) Hs).
  simpl. rewrite !andb_true_iff, negb_true_iff, IHl, IHr. split.
  - intros ((Hh & Hl) & Hr) m Hm.
    apply elem_of_app in Hm as [Hm|Hm]; [by apply Hl|].
    apply elem_of_cons in Hm as [->|Hm]; [|by apply Hr].
    apply Hn. destruct (Z.gtb_spec (Z.abs (sheight l - sheight r)) 1); [done|lia].
  - intros H. split_and!.
    + assert (Hh : not_heavy s n) by (apply H; set_solver).
      apply Hn in Hh.
      destruct (Z.gtb_spec (Z.abs (sheight l - sheight r)) 1); [lia|done].
    + intros m Hm. apply H. set_solver.
    + intros m Hm. apply H. set_solver.
Qed.

(** X4: called on a node of a tree the store holds, [is_balanced] returns,
    leaves the store as it is, and answers true exactly when no node of the
    subtree under that node is heavy. *)
Theorem is_balanced_decides (s : tree_state) (c : list frame) (t : tree)
    (n : loc) (fuel : nat) :
  root_loc t = Some n -> represents s (plug c t) -> (size t <= fuel)%nat ->
  exists b,
    is_balanced fuel (Some n) s = Ok b s /\
    (b = true <-> forall m, m ∈ locs t -> not_heavy s m).
Proof.
  intros Hroot Hs Hfuel. exists (none_heavy t). split.
  - by apply (is_balanced_sim s t c).
  - by apply (none_heavy_not_heavy s t c).
Qed.

Lemma is_balanced_decides_witness :
  root_loc (Node 2%positive (mkInfo 20 1 2 1)
              (Node 3%positive (mkInfo 10 1 1 0) Leaf Leaf) Leaf)
    = Some 2%positive /\
  represents left_chain
    (plug [InLeft 1%positive (mkInfo 30 1 3 2) Leaf]
          (Node 2%positive (mkInfo 20 1 2 1)
                (Node 3%positive (mkInfo 10 1 1 0) Leaf Leaf) Leaf)) /\
  (size (Node 2%positive (mkInfo 20 1 2 1)
           (Node 3%positive (mkInfo 10 1 1 0) Leaf Leaf) Leaf) <= 2)%nat /\
  exists b,
    is_balanced 2 (Some 2%positive) left_chain = Ok b left_chain /\
    (b = true <->
     forall m, m ∈ [3%positive; 2%positive] -> not_heavy left_chain m).
Proof.
  split_and!; [reflexivity|exact left_chain_represents|simpl; lia|].
  exact (is_balanced_decides left_chain
           [InLeft 1%positive (mkInfo 30 1 3 2) Leaf]
           (Node 2%positive (mkInfo 20 1 2 1)
                 (Node 3%positive (mkInfo 10 1 1 0) Leaf Leaf) Leaf)
           2%positive 2 eq_refl left_chain_represents ltac:(simpl; lia)).
Defined.

Lemma locs_reachable s :
  forall c n i l r,
    represents s (plug c (Node n i l r)) -> reachable s n.
Proof.
  induction c as [|f c IH]; intros n i l r Hs.
  - apply reach_root. by destruct Hs as (-> & _).
  - destruct s as [h rt tr]. destruct f as [p pi pr|p pi pl]; simpl in Hs.
    + pose proof (focus_lookup _ _ _ _ _ _ _ _ Hs) as (Hp & _).
      eapply reach_left; [by eapply IH|exact Hp|done].
    + pose proof (focus_lookup _ _ _ _ _ _ _ _ Hs) as (Hp & _).
      eapply reach_right; [by eapply IH|exact Hp|done].
Qed.

Lemma reachable_iff_locs s t n : represents s t -> reachable s n <-> n ∈ locs t.
Proof.
  intros Hs. split; [by apply reachable_in|].
  intros Hn. destruct (node_at _ _ Hn) as (c & i & l & r & ->).
  by eapply locs_reachable.
Qed.

(** X5: called with no node on a tree that is not empty, [is_balanced]
    answers for the whole tree: true exactly when no node reachable from the
    root is heavy. *)
Theorem is_balanced_whole_tree (s : tree_state) (t : tree) (fuel : nat) :
  represents s t -> t <> Leaf -> (size t <= fuel)%nat ->
  exists b,
    is_balanced fuel None s = Ok b s /\
    (b = true <-> forall m, reachable s m -> not_heavy s m).
Proof.
  intros Hs Ht Hfuel. destruct t as [|n i l r]; [done|].
  destruct (is_balanced_decides s [] (Node n i l r) n fuel eq_refl Hs Hfuel)
    as (b & Hrun & Hb).
  exists b. split.
  - destruct fuel as [|fuel]; [simpl in Hfuel; lia|].
    destruct Hs as (Hroot & _). simpl in Hroot.
    destruct s as [h rt tr]. simpl in Hroot. subst rt. exact Hrun.
  - rewrite Hb. split; intros H m Hm; apply H.
    + by apply (reachable_iff_locs s (Node n i l r)).
    + by apply (reachable_iff_locs s (Node n i l r)) in Hm.
Qed.

Lemma three_nodes_represents : represents three_nodes three_nodes_shape.
Proof.
  split_and!; [done| |].
  - simpl. split_and!; done.
  - simpl. repeat constructor; set_solver.
Qed.

Lemma is_balanced_whole_tree_witness :
  represents three_nodes three_nodes_shape /\ three_nodes_shape <> Leaf /\
  (size three_nodes_shape <= 3)%nat /\
  exists b,
    is_balanced 3 None three_nodes = Ok b three_nodes /\
    (b = true <-> forall m, reachable three_nodes m -> not_heavy three_nodes m).
Proof.
  split_and!; [exact three_nodes_represents|done|simpl; lia|].
  exact (is_balanced_whole_tree three_nodes three_nodes_shape 3
           three_nodes_represents ltac:(done) ltac:(simpl; lia)).
Defined.

(** ** [_balance] on a tree in which no node is heavy *)

Lemma none_heavy_plug_inv c t : none_heavy (plug c t) = true -> none_heavy t = true.
Proof.
  revert t. induction c as [|f c IH]; intros t; simpl; [done|].
  intros H. apply IH in H. destruct f; simpl in H;
    rewrite !andb_true_iff in H; tauto.
Qed.

Lemma rotations_app evs evs' : rotations (evs ++ evs') = rotations evs ++ rotations evs'.
Proof. unfold rotations. apply List.filter_app. Qed.

Lemma balance_quiet c :
  forall t n s fuel,
    root_loc t = Some n -> represents s (plug c t) ->
    none_heavy (plug c t) = true -> (length c < fuel)%nat ->
    exists s',
      _balance fuel n s = Ok tt s' /\ heap s' = heap s /\ root s' = root s /\
      rotations (trace s') = rotations (trace s).
Proof.
  induction c as [|f c IH]; intros t n s fuel Hroot Hs Hq Hfuel;
    (destruct fuel as [|fuel]; [simpl in Hfuel; lia|]);
    (destruct t as [|n' i l r]; [done|]); injection Hroot as ->;
    rewrite balance_unfold;
    destruct (observe_balance_at _ _ _ _ _ _ Hs) as (s1 & Hobs & Hh & Hr & Htr);
    pose proof (represents_same _ _ _ Hh Hr Hs) as Hs1;
    rewrite (bind_Ok _ _ _ _ _ Hobs);
    rewrite (bind_Ok _ _ _ _ _ (get_parent_at _ _ _ _ _ _ Hs1));
    pose proof (none_heavy_plug_inv _ _ Hq) as Hq'; simpl in Hq';
    rewrite !andb_true_iff, negb_true_iff in Hq'; destruct Hq' as ((Hd & _) & _);
    assert (Hrot : rotations_at n s1 = Ok tt s1).
  1, 3: unfold rotations_at;
    rewrite (bind_Ok _ _ _ _ _ (is_left_heavy_at _ _ _ _ _ _ 1 Hs1));
    destruct (Z.gtb_spec (Z.abs (sheight l - sheight r)) 1); [done|];
    (destruct (Z.gtb_spec (sheight l - sheight r) 1); [lia|]);
    rewrite (bind_Ok _ _ _ _ _ (is_right_heavy_at _ _ _ _ _ _ 1 Hs1));
    (destruct (Z.gtb_spec (sheight r - sheight l) 1); [lia|]); reflexivity.
  - rewrite (bind_Ok _ _ _ _ _ Hrot). simpl. exists s1.
    split_and!; [done..|]. rewrite Htr, rotations_app. simpl. apply app_nil_r.
  - rewrite (bind_Ok _ _ _ _ _ Hrot). simpl continue_at.
    destruct (IH (plug1 f (Node n i l r)) (frame_loc f) s1 fuel)
      as (s' & Hrun & Hh' & Hr' & Htr'); [by destruct f|done|done|simpl in Hfuel; lia|].
    exists s'. split_and!; [done|congruence|congruence|].
    rewrite Htr', Htr, rotations_app. simpl. apply app_nil_r.
Qed.

(** X6: when [is_balanced] answers true for the tree the store holds,
    [_balance] at any of its nodes returns, leaves every object and the root
    as they are, and does no rotation. *)
Theorem balance_of_balanced_tree (s : tree_state) (t : tree) (n : loc)
    (fuel : nat) :
  represents s t -> is_balanced fuel None s = Ok true s ->
  n ∈ locs t -> (size t <= fuel)%nat ->
  exists s',
    _balance fuel n s = Ok tt s' /\ heap s' = heap s /\ root s' = root s /\
    rotations (trace s') = rotations (trace s).
Proof.
  intros Hs Hb Hn Hfuel.
  assert (Hq : none_heavy t = true).
  { destruct t as [|r i tl tr]; [done|].
    destruct fuel as [|fuel]; [simpl in Hfuel; lia|].
    pose proof (is_balanced_sim s (Node r i tl tr) [] r (S fuel) eq_refl Hs Hfuel)
      as Hrun.
    assert (is_balanced (S fuel) None s = is_balanced (S fuel) (Some r) s) as E.
    { destruct Hs as (Hroot & _). destruct s as [h rt tr0].
      simpl in Hroot. by subst rt. }
    rewrite E, Hrun in Hb. by injection Hb. }
  destruct (focus_elem _ _ Hn) as [[c u] Hf].
  apply focus_plug in Hf as [-> Hroot].
  apply (balance_quiet c u n s fuel Hroot Hs Hq).
  assert (u <> Leaf) by (by destruct u).
  pose proof (length_ctx_lt c u ltac:(done)). lia.
Qed.

Lemma balance_of_balanced_tree_witness :
  represents three_nodes three_nodes_shape /\
  is_balanced 3 None three_nodes = Ok true three_nodes /\
  2%positive ∈ locs three_nodes_shape /\ (size three_nodes_shape <= 3)%nat /\
  exists s',
    _balance 3 2%positive three_nodes = Ok tt s' /\
    heap s' = heap three_nodes /\ root s' = root three_nodes /\
    rotations (trace s') = rotations (trace three_nodes).
Proof.
  assert (H4 : 2%positive ∈ locs three_nodes_shape) by (simpl; set_solver).
  split_and!; [exact three_nodes_represents|reflexivity|done|simpl; lia|].
  exact (balance_of_balanced_tree three_nodes three_nodes_shape 2%positive 3
           three_nodes_represents eq_refl H4 ltac:(simpl; lia)).
Defined.

(** ** The two rotations on a held tree *)

Lemma bookkeeping_at s c n i l r :
  represents s (plug c (Node n i l r)) -> bookkeeping_current s n ->
  iheight i = 1 + Z.max (sheight l) (sheight r) /\
  iweight i = icount i + sweight l + sweight r.
Proof.
  destruct s as [h rt tr]. intros Hs (x & lh & rh & lw & rw & Hx & H1 & H2 & H3 & H4 & Hh & Hw).
  pose proof (focus_lookup _ _ _ _ _ _ _ _ Hs) as (Hn & Hlh & Hrh & Hlw & Hrw).
  simpl in *. rewrite Hn in Hx. injection Hx as <-. simpl in *.
  rewrite Hlh in H1. rewrite Hrh in H2. rewrite Hlw in H3. rewrite Hrw in H4.
  injection H1 as <-. injection H2 as <-. injection H3 as <-. injection H4 as <-.
  done.
Qed.

Lemma upd_current n i l r :
  iheight i = 1 + Z.max (sheight l) (sheight r) ->
  iweight i = icount i + sweight l + sweight r ->
  upd n i l r = Node n i l r.
Proof. intros Hh Hw. unfold upd. rewrite <- Hh, <- Hw. by destruct i. Qed.

(** X7: a left rotation at a node followed by a right rotation at the node
    that came up, pulling the first node up again, gives back the tree the
    store held, when the bookkeeping of the two nodes was current. *)
Theorem rotate_left_then_right (s : tree_state) (c : list frame)
    (n hc : loc) (i hi : info) (l m r : tree) :
  represents s (plug c (Node n i l (Node hc hi m r))) ->
  bst (plug c (Node n i l (Node hc hi m r))) ->
  bookkeeping_current s n -> bookkeeping_current s hc ->
  exists s1 s2,
    _rotate_left n (Some hc) s = Ok tt s1 /\
    _rotate_right hc (Some n) s1 = Ok tt s2 /\
    represents s2 (plug c (Node n i l (Node hc hi m r))).
Proof.
  intros Hs Hbst Hn Hhc.
  destruct (bookkeeping_at _ _ _ _ _ _ Hs Hn) as (Hih & Hiw).
  assert (Hs' : represents s (plug (InRight n i l :: c) (Node hc hi m r))) by done.
  destruct (bookkeeping_at _ _ _ _ _ _ Hs' Hhc) as (Hhh & Hhw).
  destruct (rotate_left_sim s c n i l hc hi m r Hs Hbst) as (s1 & Hr1 & Hs1 & _).
  simpl rot_left in Hs1. unfold upd at 1 in Hs1.
  assert (Hbst1 : bst (plug c (rot_left (Node n i l (Node hc hi m r))))).
  { eapply bst_plug_keys; [|exact Hbst]. apply rot_left_keys. }
  simpl rot_left in Hbst1. unfold upd at 1 in Hbst1.
  unfold upd in Hs1, Hbst1.
  match type of Hs1 with
  | represents _ (plug _ (Node _ ?i1 (Node _ ?i2 _ _) _)) =>
      destruct (rotate_right_sim s1 c hc i1 n i2 l m r Hs1 Hbst1)
        as (s2 & Hr2 & Hs2 & _)
  end.
  exists s1, s2. split_and!; [done..|].
  simpl rot_right in Hs2. unfold upd in Hs2. simpl in Hs2.
  rewrite <- Hhh, <- Hhw in Hs2.
  assert (E : mkInfo (ikey hi) (icount hi) (iweight hi) (iheight hi) = hi)
    by by destruct hi.
  simpl in Hih, Hiw. rewrite <- Hih, <- Hiw in Hs2.
  assert (E' : mkInfo (ikey i) (icount i) (iweight i) (iheight i) = i)
    by by destruct i.
  by rewrite E, E' in Hs2.
Qed.

Lemma three_nodes_bst : bst three_nodes_shape.
Proof. unfold bst. simpl. repeat constructor; lia. Qed.

Lemma three_nodes_exact : exact three_nodes_shape.
Proof. simpl. split_and!; done. Qed.

Lemma rotate_left_then_right_witness :
  represents three_nodes (plug [] three_nodes_shape) /\
  bst (plug [] three_nodes_shape) /\
  bookkeeping_current three_nodes 1%positive /\
  bookkeeping_current three_nodes 3%positive /\
  exists s1 s2,
    _rotate_left 1%positive (Some 3%positive) three_nodes = Ok tt s1 /\
    _rotate_right 3%positive (Some 1%positive) s1 = Ok tt s2 /\
    represents s2 three_nodes_shape.
Proof.
  assert (H1 := three_nodes_represents). assert (H2 := three_nodes_bst).
  assert (H3 : bookkeeping_current three_nodes 1%positive).
  { apply (exact_bookkeeping _ _ _ H1 three_nodes_exact). simpl. set_solver. }
  assert (H4 : bookkeeping_current three_nodes 3%positive).
  { apply (exact_bookkeeping _ _ _ H1 three_nodes_exact). simpl. set_solver. }
  split_and!; try done.
  exact (rotate_left_then_right three_nodes [] 1%positive 3%positive
           (mkInfo 20 1 3 1) (mkInfo 30 1 1 0)
           (Node 2%positive (mkInfo 10 1 1 0) Leaf Leaf) Leaf Leaf H1 H2 H3 H4).
Defined.

(** X8: a rotation leaves exact bookkeeping when the three subtrees it
    rehangs have exact bookkeeping: it updates the node that went down
    before the one that came up.  The keys stay in their order and the
    heavy child is where the node was. *)
Theorem rotation_keeps_bookkeeping (s : tree_state) (c : list frame)
    (n hc : loc) (i hi : info) (a b d : tree) :
  exact a -> exact b -> exact d ->
  (represents s (plug c (Node n i a (Node hc hi b d))) ->
   bst (plug c (Node n i a (Node hc hi b d))) ->
   exists s' t',
     _rotate_left n (Some hc) s = Ok tt s' /\ represents s' (plug c t') /\
     root_loc t' = Some hc /\ exact t' /\
     keys t' = keys (Node n i a (Node hc hi b d))) /\
  (represents s (plug c (Node n i (Node hc hi a b) d)) ->
   bst (plug c (Node n i (Node hc hi a b) d)) ->
   exists s' t',
     _rotate_right n (Some hc) s = Ok tt s' /\ represents s' (plug c t') /\
     root_loc t' = Some hc /\ exact t' /\
     keys t' = keys (Node n i (Node hc hi a b) d)).
Proof.
  intros Ha Hb Hd. split; intros Hs Hbst.
  - destruct (rotate_left_sim s c n i a hc hi b d Hs Hbst) as (s' & Hr & Hs' & _).
    exists s', (rot_left (Node n i a (Node hc hi b d))).
    split_and!; [done|done|done| |apply rot_left_keys].
    simpl rot_left. apply exact_upd; [by apply exact_upd|done].
  - destruct (rotate_right_sim s c n i hc hi a b d Hs Hbst) as (s' & Hr & Hs' & _).
    exists s', (rot_right (Node n i (Node hc hi a b) d)).
    split_and!; [done|done|done| |apply rot_right_keys].
    simpl rot_right. apply exact_upd; [done|by apply exact_upd].
Qed.

Lemma rotation_keeps_bookkeeping_witness :
  exact Leaf /\ exact (Node 3%positive (mkInfo 10 1 1 0) Leaf Leaf) /\
  represents left_chain left_chain_shape /\ bst left_chain_shape /\
  exists s' t',
    _rotate_right 1%positive (Some 2%positive) left_chain = Ok tt s' /\
    represents s' t' /\ root_loc t' = Some 2%positive /\ exact t' /\
    keys t' = [10; 20; 30].
Proof.
  assert (H1 : exact Leaf) by done.
  assert (H2 : exact (Node 3%positive (mkInfo 10 1 1 0) Leaf Leaf))
    by (simpl; split_and!; done).
  split_and!; [done|done|exact left_chain_represents|exact left_chain_bst|].
  exact (proj2 (rotation_keeps_bookkeeping left_chain [] 1%positive 2%positive
                  (mkInfo 30 1 3 2) (mkInfo 20 1 2 1)
                  (Node 3%positive (mkInfo 10 1 1 0) Leaf Leaf) Leaf Leaf
                  H2 H1 H1)
               left_chain_represents left_chain_bst).
Defined.

(** X9: [_balance] at the root of a tree whose two subtrees are
    height-balanced with exact bookkeeping and differ in height by two
    leaves a height-balanced tree with exact bookkeeping and the same keys
    in order. *)
Theorem balance_repairs_root (s : tree_state) (n : loc) (i : info)
    (l r : tree) (fuel : nat) :
  represents s (Node n i l r) -> bst (Node n i l r) ->
  sound l -> sound r -> 0 <= iheight i ->
  Z.abs (real_height l - real_height r) = 2 ->
  exists s' t',
    _balance (S fuel) n s = Ok tt s' /\ represents s' t' /\
    exact t' /\ balanced t' /\ keys t' = keys (Node n i l r).
Proof.
  intros Hs Hbst Hl Hr Hi Hd.
  assert (Hnn : heights_nonneg (Node n i l r)).
  { simpl. split_and!; [done|apply exact_heights_nonneg, Hl
                        |apply exact_heights_nonneg, Hr]. }
  destruct (balance_sim [] (Node n i l r) n s (S fuel) eq_refl Hs Hbst Hnn)
    as (s' & Hrun & Hs'); [simpl; lia|].
  destruct (balance_node_fixes n i l r Hl Hr Hd) as ((He & Hb) & _).
  exists s', (balance_node (Node n i l r)).
  split_and!; [done..|]. apply balance_node_keys.
Qed.

Lemma balance_repairs_root_witness :
  represents left_chain left_chain_shape /\ bst left_chain_shape /\
  sound (Node 2%positive (mkInfo 20 1 2 1)
           (Node 3%positive (mkInfo 10 1 1 0) Leaf Leaf) Leaf) /\
  sound Leaf /\ 0 <= 2 /\ Z.abs (1 - -1) = 2 /\
  exists s' t',
    _balance 1 1%positive left_chain = Ok tt s' /\ represents s' t' /\
    exact t' /\ balanced t' /\ keys t' = [10; 20; 30].
Proof.
  assert (H3 : sound (Node 2%positive (mkInfo 20 1 2 1)
                        (Node 3%positive (mkInfo 10 1 1 0) Leaf Leaf) Leaf)).
  { split; simpl; split_and!; done. }
  assert (H4 : sound Leaf) by done.
  split_and!; [exact left_chain_represents|exact left_chain_bst|done|done|lia|lia|].
  exact (balance_repairs_root left_chain 1%positive (mkInfo 30 1 3 2)
           (Node 2%positive (mkInfo 20 1 2 1)
                 (Node 3%positive (mkInfo 10 1 1 0) Leaf Leaf) Leaf)
           Leaf 0 left_chain_represents left_chain_bst H3 H4
           ltac:(simpl; lia) ltac:(simpl; lia)).
Defined.

(** ** Where the balancing core raises *)



(** ** [update] and the walk on a tree that is in order *)

Lemma updated_twice x lw rw lh rh :
  updated (updated x lw rw lh rh) lw rw lh rh = updated x lw rw lh rh.
Proof. reflexivity. Qed.

(** X11: [update] on a node of a held tree is idempotent: a second call
    leaves the store as the first one left it. *)
Theorem update_idempotent (c : list frame) (n : loc) (i : info) (l r : tree)
    (s s1 : tree_state) :
  represents s (plug c (Node n i l r)) ->
  update n s = Ok tt s1 -> update n s1 = Ok tt s1.
Proof.
  intros Hs Hup.
  destruct (update_sim s c n i l r Hs) as (s1' & Hup' & Hs1 & _).
  rewrite Hup in Hup'. injection Hup' as <-.
  destruct s1 as [h1 rt1 tr1]. unfold upd in Hs1.
  pose proof (focus_lookup _ _ _ _ _ _ _ _ Hs1) as (Hn & Hlh & Hrh & Hlw & Hrw).
  rewrite (update_Ok _ _ _ _ _ _ _ _ _ Hn Hlw Hrw Hlh Hrh).
  f_equal. f_equal. apply insert_id. by rewrite Hn.
Qed.

Lemma update_idempotent_witness :
  represents left_chain (plug [] left_chain_shape) /\
  update 1%positive left_chain = Ok tt left_chain /\
  update 1%positive left_chain = Ok tt left_chain.
Proof.
  assert (E : update 1%positive left_chain = Ok tt left_chain).
  { vm_compute. reflexivity. }
  split_and!; [exact left_chain_represents|exact E|].
  exact (update_idempotent [] 1%positive (mkInfo 30 1 3 2)
           (Node 2%positive (mkInfo 20 1 2 1)
                 (Node 3%positive (mkInfo 10 1 1 0) Leaf Leaf) Leaf)
           Leaf left_chain left_chain left_chain_represents E).
Defined.

Lemma update_quiet s c n i l r :
  represents s (plug c (Node n i l r)) ->
  iheight i = 1 + Z.max (sheight l) (sheight r) ->
  iweight i = icount i + sweight l + sweight r ->
  update n s = Ok tt s.
Proof.
  intros Hs Hh Hw. destruct s as [h rt tr].
  pose proof (focus_lookup _ _ _ _ _ _ _ _ Hs) as (Hn & Hlh & Hrh & Hlw & Hrw).
  rewrite (update_Ok _ _ _ _ _ _ _ _ _ Hn Hlw Hrw Hlh Hrh).
  f_equal. f_equal. apply insert_id. rewrite Hn. f_equal.
  unfold updated, to_node. simpl. by rewrite <- Hh, <- Hw.
Qed.

Lemma exact_plug_current c n i l r :
  exact (plug c (Node n i l r)) ->
  iheight i = 1 + Z.max (sheight l) (sheight r) /\
  iweight i = icount i + sweight l + sweight r.
Proof.
  intros (Hh & Hw & Hl & Hr)%exact_plug_inv.
  by rewrite (exact_sheight l), (exact_sheight r),
    (exact_sweight l), (exact_sweight r).
Qed.

Lemma update_walk_quiet c :
  forall t n s fuel,
    root_loc t = Some n -> represents s (plug c t) ->
    exact (plug c t) -> none_heavy (plug c t) = true ->
    (length c < fuel)%nat ->
    exists s',
      _update fuel (Some n) s = Ok tt s' /\ heap s' = heap s /\
      root s' = root s /\ rotations (trace s') = rotations (trace s).
Proof.
  induction c as [|f c IH]; intros t n s fuel Hroot Hs He Hq Hfuel;
    (destruct fuel as [|fuel]; [simpl in Hfuel; lia|]);
    (destruct t as [|n' i l r]; [done|]); injection Hroot as ->;
    destruct (exact_plug_current _ _ _ _ _ He) as (Hh & Hw);
    pose proof (update_quiet _ _ _ _ _ _ Hs Hh Hw) as Hup;
    rewrite update_loop_unfold, (bind_Ok _ _ _ _ _ Hup).
  - destruct (balance_quiet [] (Node n i l r) n s (S fuel) eq_refl Hs Hq)
      as (s1 & Hbal & Hh1 & Hr1 & Htr1); [simpl; lia|].
    rewrite (bind_Ok _ _ _ _ _ Hbal).
    pose proof (represents_same _ _ _ Hh1 Hr1 Hs) as Hs1.
    rewrite (bind_Ok _ _ _ _ _ (get_parent_at _ _ _ _ _ _ Hs1)). simpl.
    exists s1. split_and!; [by destruct fuel|done..].
  - destruct (balance_quiet (f :: c) (Node n i l r) n s (S fuel) eq_refl Hs Hq)
      as (s1 & Hbal & Hh1 & Hr1 & Htr1); [simpl in *; lia|].
    rewrite (bind_Ok _ _ _ _ _ Hbal).
    pose proof (represents_same _ _ _ Hh1 Hr1 Hs) as Hs1.
    rewrite (bind_Ok _ _ _ _ _ (get_parent_at _ _ _ _ _ _ Hs1)).
    simpl ctx_parent.
    destruct (IH (plug1 f (Node n i l r)) (frame_loc f) s1 fuel)
      as (s' & Hrun & Hh' & Hr' & Htr');
      [by destruct f|done|done|done|simpl in Hfuel; lia|].
    exists s'. split_and!; [done|congruence..].
Qed.

(** X12: on a tree whose bookkeeping is exact and for which [is_balanced]
    answers true, the walk of [_update] from any node returns and changes
    nothing: every object and the root are as before and no rotation is
    done. *)
Theorem update_walk_of_avl_tree (s : tree_state) (t : tree) (n : loc)
    (fuel : nat) :
  represents s t -> exact t -> is_balanced fuel None s = Ok true s ->
  n ∈ locs t -> (size t <= fuel)%nat ->
  exists s',
    _update fuel (Some n) s = Ok tt s' /\ heap s' = heap s /\
    root s' = root s /\ rotations (trace s') = rotations (trace s).
Proof.
  intros Hs He Hb Hn Hfuel.
  assert (Hq : none_heavy t = true).
  { destruct t as [|r i tl tr]; [done|].
    destruct fuel as [|fuel]; [simpl in Hfuel; lia|].
    pose proof (is_balanced_sim s (Node r i tl tr) [] r (S fuel) eq_refl Hs Hfuel)
      as Hrun.
    assert (is_balanced (S fuel) None s = is_balanced (S fuel) (Some r) s) as E.
    { destruct Hs as (Hroot & _). destruct s as [h rt tr0].
      simpl in Hroot. by subst rt. }
    rewrite E, Hrun in Hb. by injection Hb. }
  destruct (focus_elem _ _ Hn) as [[c u] Hf].
  apply focus_plug in Hf as [-> Hroot].
  apply (update_walk_quiet c u n s fuel Hroot Hs He Hq).
  assert (u <> Leaf) by (by destruct u).
  pose proof (length_ctx_lt c u ltac:(done)). lia.
Qed.

Lemma update_walk_of_avl_tree_witness :
  represents three_nodes three_nodes_shape /\ exact three_nodes_shape /\
  is_balanced 3 None three_nodes = Ok true three_nodes /\
  3%positive ∈ locs three_nodes_shape /\ (size three_nodes_shape <= 3)%nat /\
  exists s',
    _update 3 (Some 3%positive) three_nodes = Ok tt s' /\
    heap s' = heap three_nodes /\ root s' = root three_nodes /\
    rotations (trace s') = rotations (trace three_nodes).
Proof.
  assert (H4 : 3%positive ∈ locs three_nodes_shape) by (simpl; set_solver).
  split_and!; [exact three_nodes_represents|exact three_nodes_exact
              |reflexivity|done|simpl; lia|].
  exact (update_walk_of_avl_tree three_nodes three_nodes_shape 3%positive 3
           three_nodes_represents three_nodes_exact eq_refl H4
           ltac:(simpl; lia)).
Defined.

(** ** A new node *)

(** X13: [create_node] makes an object that was not in the store and leaves
    every other object and the root as they are; the new node has height 0,
    reads -1 for both child heights, is not heavy, and [is_balanced] on it
    answers true. *)
Theorem create_node_is_balanced_leaf (k : Z) (s s' : tree_state) (n : loc)
    (fuel : nat) :
  create_node k s = Ok n s' ->
  heap s !! n = None /\
  (forall m, m <> n -> heap s' !! m = heap s !! m) /\
  root s' = root s /\
  height <$> heap s' !! n = Some 0 /\
  left_height n s' = Ok (-1) s' /\ right_height n s' = Ok (-1) s' /\
  is_heavy n s' = Ok false s' /\
  is_balanced (S fuel) (Some n) s' = Ok true s'.
Proof.
  destruct s as [h rt tr]. rewrite create_node_Ok. intros [= <- <-].
  remember (fresh (dom h)) as n eqn:En.
  assert (Hn : <[n := mkNode k None None None 1 1 0]> h !! n
               = Some (mkNode k None None None 1 1 0)) by apply lookup_insert_eq.
  set (s' := mkState (<[n := mkNode k None None None 1 1 0]> h) rt tr).
  assert (Hg : get n s' = Ok (mkNode k None None None 1 1 0) s') by by apply get_Ok.
  assert (Hl : left_height n s' = Ok (-1) s').
  { unfold left_height. by rewrite (bind_Ok _ _ _ _ _ Hg). }
  assert (Hr : right_height n s' = Ok (-1) s').
  { unfold right_height. by rewrite (bind_Ok _ _ _ _ _ Hg). }
  assert (Hh : is_heavy n s' = Ok false s').
  { unfold is_heavy. by rewrite (bind_Ok _ _ _ _ _ Hl), (bind_Ok _ _ _ _ _ Hr). }
  split_and!; try done.
  - subst n. apply fresh_lookup.
  - intros m Hm. simpl. by rewrite lookup_insert_ne.
  - simpl. by rewrite Hn.
  - simpl is_balanced. unfold ret at 1. unfold bind at 1. simpl deref.
    unfold ret at 1. unfold bind at 1.
    rewrite (bind_Ok _ _ _ _ _ Hh). simpl negb.
    rewrite (bind_Ok _ _ _ _ _ Hg). simpl left.
    unfold ret at 1. unfold bind at 1.
    rewrite (bind_Ok _ _ _ _ _ Hg). reflexivity.
Qed.

Lemma create_node_is_balanced_leaf_witness :
  create_node 7 left_chain
    = Ok 4%positive
         (mkState (<[4%positive := mkNode 7 None None None 1 1 0]> (heap left_chain))
                  (root left_chain) (trace left_chain)) /\
  heap left_chain !! 4%positive = None /\
  is_balanced 1 (Some 4%positive)
    (mkState (<[4%positive := mkNode 7 None None None 1 1 0]> (heap left_chain))
             (root left_chain) (trace left_chain))
  = Ok true
       (mkState (<[4%positive := mkNode 7 None None None 1 1 0]> (heap left_chain))
                (root left_chain) (trace left_chain)).
Proof.
  assert (E : create_node 7 left_chain
    = Ok 4%positive
         (mkState (<[4%positive := mkNode 7 None None None 1 1 0]> (heap left_chain))
                  (root left_chain) (trace left_chain))).
  { vm_compute. reflexivity. }
  pose proof (create_node_is_balanced_leaf 7 left_chain _ 4%positive 0 E)
    as (H1 & _ & _ & _ & _ & _ & _ & H8).
  split_and!; [exact E|exact H1|exact H8].
Defined.

(** ** The height of a tree that [is_balanced] accepts *)

Lemma min_nodes_step k :
  min_nodes (S (S k)) = S (min_nodes (S k) + min_nodes k).
Proof. reflexivity. Qed.

Lemma min_nodes_mono_step k : (min_nodes k <= min_nodes (S k))%nat.
Proof.
  destruct k as [|k]; [simpl; lia|]. rewrite min_nodes_step. lia.
Qed.

Lemma min_nodes_mono k k' : (k <= k')%nat -> (min_nodes k <= min_nodes k')%nat.
Proof.
  induction 1 as [|k' _ IH]; [done|].
  pose proof (min_nodes_mono_step k'). lia.
Qed.

Lemma min_nodes_grows k :
  2 ^ Z.of_nat k <= (Z.of_nat (min_nodes k) + 1) ^ 2 /\
  2 ^ Z.of_nat (S k) <= (Z.of_nat (min_nodes (S k)) + 1) ^ 2.
Proof.
  induction k as [|k (IH1 & IH2)]; [simpl; lia|].
  split; [done|].
  rewrite min_nodes_step.
  pose proof (min_nodes_mono_step k) as Hm.
  replace (Z.of_nat (S (S k))) with (Z.succ (Z.succ (Z.of_nat k))) by lia.
  rewrite !Z.pow_succ_r by lia.
  nia.
Qed.

Lemma levels_nat t : exists k : nat, real_height t + 1 = Z.of_nat k.
Proof.
  exists (Z.to_nat (real_height t + 1)).
  pose proof (real_height_ge t). lia.
Qed.

Lemma balanced_min_nodes t :
  balanced t ->
  (min_nodes (Z.to_nat (real_height t + 1)) <= size t)%nat.
Proof.
  induction t as [|n i l IHl r IHr]; [simpl; lia|].
  intros (Hd & Hl & Hr). specialize (IHl Hl). specialize (IHr Hr).
  destruct (levels_nat l) as (a & Ha). destruct (levels_nat r) as (b & Hb).
  simpl real_height. simpl size.
  rewrite Ha, Nat2Z.id in IHl. rewrite Hb, Nat2Z.id in IHr.
  replace (Z.to_nat (1 + Z.max (real_height l) (real_height r) + 1))
    with (S (Nat.max a b)) by lia.
  destruct (Nat.max a b) as [|k] eqn:Hk.
  { simpl. lia. }
  rewrite min_nodes_step.
  destruct (decide (b <= a)%nat) as [Hab|Hab].
  - assert (a = S k) as -> by lia.
    pose proof (min_nodes_mono k b ltac:(lia)). lia.
  - assert (b = S k) as -> by lia.
    pose proof (min_nodes_mono k a ltac:(lia)). lia.
Qed.

Lemma none_heavy_balanced t : exact t -> none_heavy t = true -> balanced t.
Proof.
  induction t as [|n i l IHl r IHr]; [done|].
  intros (_ & _ & Hl & Hr). simpl.
  rewrite !andb_true_iff, negb_true_iff.
  rewrite (exact_sheight l), (exact_sheight r) by done.
  intros ((Hd & Hql) & Hqr). split_and!; [|by apply IHl|by apply IHr].
  destruct (Z.gtb_spec (Z.abs (real_height l - real_height r)) 1); [done|lia].
Qed.

(** X14: when the bookkeeping is exact and [is_balanced] answers true, the
    height the root stores is logarithmic in the number [size t] of nodes:
    two to the power of that height plus one is at most the square of the
    number of nodes plus one. *)
Theorem balanced_height_logarithmic (s : tree_state) (t : tree)
    (fuel : nat) (r : loc) (x : node) :
  represents s t -> exact t -> (size t <= fuel)%nat ->
  is_balanced fuel None s = Ok true s ->
  root s = Some r -> heap s !! r = Some x ->
  2 ^ (height x + 1) <= (Z.of_nat (size t) + 1) ^ 2.
Proof.
  intros Hs He Hfuel Hb Hroot Hx.
  destruct t as [|n i tl tr].
  { destruct Hs as (Hr & _). simpl in Hr. congruence. }
  destruct fuel as [|fuel]; [simpl in Hfuel; lia|].
  assert (Hq : none_heavy (Node n i tl tr) = true).
  { pose proof (is_balanced_sim s (Node n i tl tr) [] n (S fuel) eq_refl Hs Hfuel)
      as Hrun.
    assert (is_balanced (S fuel) None s = is_balanced (S fuel) (Some n) s) as E.
    { destruct Hs as (Hr & _). destruct s as [h rt tr0].
      simpl in Hr. by subst rt. }
    rewrite E, Hrun in Hb. by injection Hb. }
  pose proof (none_heavy_balanced _ He Hq) as Hbal.
  pose proof (balanced_min_nodes _ Hbal) as Hmin.
  assert (Hh : height x = real_height (Node n i tl tr)).
  { destruct s as [h rt tr0].
    pose proof (focus_lookup h rt tr0 [] n i tl tr Hs) as (Hn & _).
    destruct Hs as (Hr & _). simpl in Hr, Hroot, Hx.
    rewrite Hroot in Hr. injection Hr as ->. rewrite Hn in Hx.
    injection Hx as <-. simpl. by destruct He as (-> & _). }
  rewrite Hh.
  destruct (levels_nat (Node n i tl tr)) as (k & Hk).
  rewrite Hk in *. rewrite Nat2Z.id in Hmin.
  destruct (min_nodes_grows k) as (Hg & _).
  assert (0 <= Z.of_nat (min_nodes k) <= Z.of_nat (size (Node n i tl tr))) by lia.
  nia.
Qed.

Lemma balanced_height_logarithmic_witness :
  represents three_nodes three_nodes_shape /\ exact three_nodes_shape /\
  (size three_nodes_shape <= 3)%nat /\
  is_balanced 3 None three_nodes = Ok true three_nodes /\
  root three_nodes = Some 1%positive /\
  heap three_nodes !! 1%positive
    = Some (mkNode 20 (Some 2%positive) (Some 3%positive) None 1 3 1) /\
  2 ^ (1 + 1) <= (Z.of_nat 3 + 1) ^ 2.
Proof.
  split_and!; [exact three_nodes_represents|exact three_nodes_exact
              |simpl; lia|reflexivity|reflexivity|reflexivity|].
  exact (balanced_height_logarithmic three_nodes three_nodes_shape 3 1%positive
           (mkNode 20 (Some 2%positive) (Some 3%positive) None 1 3 1)
           three_nodes_represents three_nodes_exact ltac:(simpl; lia)
           eq_refl eq_refl eq_refl).
Defined.

(** ** Corrupted heights *)

(** X15: [_balance] raises [AttributeError] at a node that has no left
    child while its right child stores a height below -2 (the node then
    reports left-heavy and the absent child is dereferenced), and likewise
    with the sides exchanged. *)
Theorem balance_raises_on_missing_child (fuel : nat) (n : loc) (x : node)
    (h : Z) (s : tree_state) :
  get n s = Ok x s -> h < -2 ->
  (left x = None -> right_height n s = Ok h s ->
   _balance (S fuel) n s = Err AttributeError) /\
  (right x = None -> left_height n s = Ok h s ->
   _balance (S fuel) n s = Err AttributeError).
Proof.
  intros Hx Hh. destruct s as [hp rt tr].
  assert (Hx' : forall tr', get n (mkState hp rt tr') = Ok x (mkState hp rt tr')).
  { intros tr'. by eapply get_any_trace. }
  assert (Hstart : forall lh rh,
            (forall tr', left_height n (mkState hp rt tr')
                         = Ok lh (mkState hp rt tr')) ->
            (forall tr', right_height n (mkState hp rt tr')
                         = Ok rh (mkState hp rt tr')) ->
            rotations_at n (mkState hp rt (tr ++ [EvBalance n (height x) lh rh]))
              = Err AttributeError ->
            _balance (S fuel) n (mkState hp rt tr) = Err AttributeError).
  { intros lh rh Hl Hr Hrot. rewrite balance_unfold.
    assert (Hobs : observe_balance n (mkState hp rt tr)
                   = Ok tt (mkState hp rt (tr ++ [EvBalance n (height x) lh rh]))).
    { unfold observe_balance.
      by rewrite (bind_Ok _ _ _ _ _ (Hx' tr)), (bind_Ok _ _ _ _ _ (Hl tr)),
        (bind_Ok _ _ _ _ _ (Hr tr)). }
    rewrite (bind_Ok _ _ _ _ _ Hobs).
    unfold get_parent. rewrite bind_assoc, (bind_Ok _ _ _ _ _ (Hx' _)).
    unfold ret at 1. unfold bind at 1. by apply bind_Err. }
  split; intros Hnone Hread.
  - assert (Hl : forall tr', left_height n (mkState hp rt tr')
                             = Ok (-1) (mkState hp rt tr')).
    { intros tr'. unfold left_height.
      by rewrite (bind_Ok _ _ _ _ _ (Hx' tr')), Hnone. }
    assert (Hr : forall tr', right_height n (mkState hp rt tr')
                             = Ok h (mkState hp rt tr')).
    { intros tr'. by eapply right_height_any_trace. }
    apply (Hstart _ _ Hl Hr). set (tr1 := tr ++ _).
    assert (Hlheavy : is_left_heavy n 1 (mkState hp rt tr1)
                      = Ok true (mkState hp rt tr1)).
    { unfold is_left_heavy.
      rewrite (bind_Ok _ _ _ _ _ (Hl tr1)), (bind_Ok _ _ _ _ _ (Hr tr1)).
      unfold ret. f_equal. apply Z.gtb_lt. lia. }
    unfold rotations_at. rewrite (bind_Ok _ _ _ _ _ Hlheavy).
    unfold get_left. rewrite bind_assoc, (bind_Ok _ _ _ _ _ (Hx' tr1)), Hnone.
    reflexivity.
  - assert (Hr : forall tr', right_height n (mkState hp rt tr')
                             = Ok (-1) (mkState hp rt tr')).
    { intros tr'. unfold right_height.
      by rewrite (bind_Ok _ _ _ _ _ (Hx' tr')), Hnone. }
    assert (Hl : forall tr', left_height n (mkState hp rt tr')
                             = Ok h (mkState hp rt tr')).
    { intros tr'. by eapply left_height_any_trace. }
    apply (Hstart _ _ Hl Hr). set (tr1 := tr ++ _).
    assert (Hlheavy : is_left_heavy n 1 (mkState hp rt tr1)
                      = Ok false (mkState hp rt tr1)).
    { unfold is_left_heavy.
      rewrite (bind_Ok _ _ _ _ _ (Hl tr1)), (bind_Ok _ _ _ _ _ (Hr tr1)).
      unfold ret. f_equal. rewrite Z.gtb_ltb. apply Z.ltb_ge. lia. }
    assert (Hrheavy : is_right_heavy n 1 (mkState hp rt tr1)
                      = Ok true (mkState hp rt tr1)).
    { unfold is_right_heavy.
      rewrite (bind_Ok _ _ _ _ _ (Hr tr1)), (bind_Ok _ _ _ _ _ (Hl tr1)).
      unfold ret. f_equal. apply Z.gtb_lt. lia. }
    unfold rotations_at.
    rewrite (bind_Ok _ _ _ _ _ Hlheavy), (bind_Ok _ _ _ _ _ Hrheavy).
    unfold get_right. rewrite bind_assoc, (bind_Ok _ _ _ _ _ (Hx' tr1)), Hnone.
    reflexivity.
Qed.

Lemma balance_raises_on_missing_child_witness :
  get 1%positive bad_heights
    = Ok (mkNode 10 None (Some 2%positive) None 1 2 1) bad_heights /\
  -5 < -2 /\
  right_height 1%positive bad_heights = Ok (-5) bad_heights /\
  _balance 1 1%positive bad_heights = Err AttributeError.
Proof.
  split_and!; [reflexivity|lia|reflexivity|].
  exact (proj1 (balance_raises_on_missing_child 0 1%positive
                  (mkNode 10 None (Some 2%positive) None 1 2 1) (-5) bad_heights
                  eq_refl ltac:(lia)) eq_refl eq_refl).
Defined.

(** ** Where a rotation hangs the heavy child *)

Lemma root_after_rotation s' c t t' hc (rt : option loc) :
  represents s' (plug c t') -> root_loc t' = Some hc ->
  rt = root_loc (plug c t) ->
  root s' = match c with [] => Some hc | _ :: _ => rt end.
Proof.
  intros (Hroot & _) Hhc ->. rewrite Hroot.
  destruct c as [|f c]; [done|]. apply root_loc_plug_cons.
Qed.

(** X16: after a rotation the heavy child has the parent the rotated node
    had; the root of the tree is the heavy child when the rotated node was
    the root, and is left as it was otherwise. *)
Theorem rotation_reattaches (s : tree_state) (c : list frame)
    (n hc : loc) (i hi : info) (a b d : tree) :
  (represents s (plug c (Node n i a (Node hc hi b d))) ->
   bst (plug c (Node n i a (Node hc hi b d))) ->
   exists s' x,
     _rotate_left n (Some hc) s = Ok tt s' /\
     heap s' !! hc = Some x /\ parent x = ctx_parent c /\
     left x = Some n /\
     root s' = match c with [] => Some hc | _ :: _ => root s end) /\
  (represents s (plug c (Node n i (Node hc hi a b) d)) ->
   bst (plug c (Node n i (Node hc hi a b) d)) ->
   exists s' x,
     _rotate_right n (Some hc) s = Ok tt s' /\
     heap s' !! hc = Some x /\ parent x = ctx_parent c /\
     right x = Some n /\
     root s' = match c with [] => Some hc | _ :: _ => root s end).
Proof.
  split; intros Hs Hbst.
  - destruct (rotate_left_sim s c n i a hc hi b d Hs Hbst) as (s' & Hr & Hs' & _).
    simpl rot_left in Hs'. unfold upd in Hs'.
    destruct s' as [h' rt' tr'].
    pose proof (focus_lookup _ _ _ _ _ _ _ _ Hs') as (Hx & _).
    eexists _, _. split_and!; [exact Hr|exact Hx|done|done|].
    eapply (root_after_rotation _ c (Node n i a (Node hc hi b d)));
      [exact Hs'|done|by destruct Hs].
  - destruct (rotate_right_sim s c n i hc hi a b d Hs Hbst) as (s' & Hr & Hs' & _).
    simpl rot_right in Hs'. unfold upd in Hs'.
    destruct s' as [h' rt' tr'].
    pose proof (focus_lookup _ _ _ _ _ _ _ _ Hs') as (Hx & _).
    eexists _, _. split_and!; [exact Hr|exact Hx|done|done|].
    eapply (root_after_rotation _ c (Node n i (Node hc hi a b) d));
      [exact Hs'|done|by destruct Hs].
Qed.

Lemma rotation_reattaches_witness :
  represents left_chain left_chain_shape /\ bst left_chain_shape /\
  exists s' x,
    _rotate_right 1%positive (Some 2%positive) left_chain = Ok tt s' /\
    heap s' !! 2%positive = Some x /\ parent x = None /\
    right x = Some 1%positive /\ root s' = Some 2%positive.
Proof.
  split_and!; [exact left_chain_represents|exact left_chain_bst|].
  exact (proj2 (rotation_reattaches left_chain [] 1%positive 2%positive
                  (mkInfo 30 1 3 2) (mkInfo 20 1 2 1)
                  (Node 3%positive (mkInfo 10 1 1 0) Leaf Leaf) Leaf Leaf)
               left_chain_represents left_chain_bst).
Defined.

(** ** The height after any run of operations *)




(** ** What [update] writes *)

(** X18: whatever the store, [update] at a node keeps every object, changes
    no key, no count and no link, and leaves every object but that node as
    it is: it writes the weight and the height of that node only. *)
Theorem update_writes_own_bookkeeping (n : loc) (s s' : tree_state) :
  update n s = Ok tt s' -> changes_only (update_effect n) s s'.
Proof.
  intros H.
  assert (Hrefl : forall m x, update_effect n m x x) by (by repeat split).
  assert (Htrans : forall m x y z,
            update_effect n m x y -> update_effect n m y z ->
            update_effect n m x z).
  { intros m x y z (Ha & Hb & Hc & Hxy) (Ha' & Hb' & Hc' & Hyz).
    split_and!; try congruence. intros Hm. rewrite Hyz, Hxy; done. }
  eapply (safe_update (update_effect n) Hrefl Htrans n); [| |exact H].
  - intros x w. by repeat split.
  - intros x h. by repeat split.
Qed.

Lemma update_writes_own_bookkeeping_witness :
  update 2%positive four_nodes
    = Ok tt (mkState
               (<[2%positive := mkNode 10 None (Some 4%positive) (Some 1%positive) 1 3 2]>
                  (heap four_nodes))
               (root four_nodes) (trace four_nodes)) /\
  changes_only (update_effect 2%positive) four_nodes
    (mkState
       (<[2%positive := mkNode 10 None (Some 4%positive) (Some 1%positive) 1 3 2]>
          (heap four_nodes))
       (root four_nodes) (trace four_nodes)).
Proof.
  assert (E : update 2%positive four_nodes
    = Ok tt (mkState
               (<[2%positive := mkNode 10 None (Some 4%positive) (Some 1%positive) 1 3 2]>
                  (heap four_nodes))
               (root four_nodes) (trace four_nodes))).
  { vm_compute. reflexivity. }
  split; [exact E|].
  exact (update_writes_own_bookkeeping 2%positive four_nodes _ E).
Defined.
